(** * Capture-All: request correlation, timeline aggregation and export

    A shallow embedding of the service worker ([background.js]) and of the
    content script of the Capture-All browser extension, with the
    properties of its event-correlation and timeline-export engine.

    Conventions of the embedding.
    - A JavaScript array is a [list]; [arr[i]] is stdpp's lookup [arr !! i]
      and an in-place write to [arr[i].f] is [alter] at index [i].
    - [Array.prototype.findIndex] returns [option nat]; [None] stands for
      the JavaScript result [-1].
    - Every call of [Date.now()] is an explicit argument holding the value
      that call returned.
    - What the surroundings answer (whether the debugger attached, what a
      [FileReader] delivered, whether a download resolved) is an explicit
      argument as well.
    - An optional property of an object is an [option] field: [None] is the
      absent ([undefined]) property.
    - Numbers the code produces itself (times from [Date.now()], counts,
      lengths, status codes, tab ids) are whole and are [Z]. A number
      inside logged data is a [Number], a finite decimal with or without
      a fraction; so are the coordinates of an element's rectangle. The
      play head of the timeline page and the sizes and scroll offsets of
      the window, which are only compared and never written out here, are
      rationals. A string is a [string] of 8-bit characters. *)

From Stdlib Require Import ZArith NArith String Ascii Lia Bool.
From Stdlib Require Import Sorting.Sorted Sorting.Permutation.
From Stdlib Require Import Numbers.DecimalFacts Numbers.DecimalPos Numbers.DecimalN.
From Stdlib Require QArith.QArith_base.
From stdpp Require Import base option list gmap strings.

Set Warnings "-register-all".

Local Open Scope string_scope.
Local Open Scope list_scope.
Local Open Scope Z_scope.

(** ** JavaScript values *)

(** The digits 1 to 9. *)
Inductive NonzeroDigit := Dg1 | Dg2 | Dg3 | Dg4 | Dg5 | Dg6 | Dg7 | Dg8 | Dg9.

Definition digit_value (r : NonzeroDigit) : N :=
  match r with
  | Dg1 => 1 | Dg2 => 2 | Dg3 => 3 | Dg4 => 4 | Dg5 => 5
  | Dg6 => 6 | Dg7 => 7 | Dg8 => 8 | Dg9 => 9
  end%N.

Definition nonzero_digit (d : N) : NonzeroDigit :=
  match d with
  | 1 => Dg1 | 2 => Dg2 | 3 => Dg3 | 4 => Dg4 | 5 => Dg5
  | 6 => Dg6 | 7 => Dg7 | 8 => Dg8 | _ => Dg9
  end%N.

(** A finite number, as a decimal: a whole number, or a number with a
    fraction, [(10 q + r) / 10^e] with its sign, whose last digit [r] is
    not zero, so that every number has one representation. A Number value
    of the language is identified by the shortest decimal that denotes it,
    which is the one [Number::toString] writes and the one reading that
    numeral gives back; the whole numbers that occur as times, counts,
    sizes, status codes and tab ids are below 2^53 and are their own
    decimals. A whole number stands for itself where a [Number] is
    expected. The values [NaN] and the infinities do not occur in the
    data. *)
Inductive Number :=
| Whole (n : Z)
| Fraction (negative : bool) (q : N) (r : NonzeroDigit) (e : positive).

Coercion Whole : Z >-> Number.

(** Plain data as it travels through the logs: protocol headers, post data,
    decoded response bodies, interaction payloads. *)
Inductive jsval : Type :=
| JUndefined
| JNull
| JBool (b : bool)
| JNum (n : Number)
| JStr (s : string)
| JArr (items : list jsval)
| JObj (props : list (string * jsval)).

(** [String.prototype.includes]: [needle] occurs somewhere in [hay]. *)
Fixpoint includes (needle hay : string) : bool :=
  String.prefix needle hay ||
  match hay with
  | EmptyString => false
  | String _ rest => includes needle rest
  end.

(** [Array.prototype.findIndex]: position of the first element satisfying
    the predicate. *)
Fixpoint findIndex {A : Type} (p : A -> bool) (l : list A) : option nat :=
  match l with
  | [] => None
  | x :: rest => if p x then Some 0%nat else S <$> findIndex p rest
  end.

(** ** Request correlator ([background.js]) *)

(** Parameters of the four debugger protocol events. *)
Record Request := {
  rq_url : string;
  rq_method : string;
  rq_headers : jsval;
  rq_postData : jsval
}.

Record RequestWillBeSentParams := {
  rs_requestId : string;
  rs_request : Request
}.

Record Response := {
  rp_status : Z;
  rp_statusText : string;
  rp_headers : jsval;
  rp_mimeType : option string
}.

Record ResponseReceivedParams := {
  rr_requestId : string;
  rr_response : Response
}.

Record LoadingFinishedParams := {
  lf_requestId : string;
  lf_encodedDataLength : Z
}.

Record LoadingFailedParams := {
  lx_requestId : string;
  lx_errorText : string;
  lx_canceled : option bool
}.

(** The sub-records a log entry acquires as later phases arrive. *)
Record ResponseRecord := {
  status : Z;
  statusText : string;
  r_headers : jsval;
  mimeType : option string;
  r_timestamp : Z;
  body : option jsval;
  bodySize : option Z
}.

Record LoadingFinishedRecord := {
  f_timestamp : Z;
  encodedDataLength : Z
}.

Record LoadingFailedRecord := {
  x_timestamp : Z;
  errorText : string;
  canceled : option bool
}.

(** One element of [networkLogs]. *)
Record NetworkLogEntry := {
  type : string;
  timestamp : Z;
  requestId : string;
  url : string;
  method : string;
  headers : jsval;
  postData : jsval;
  tabId : Z;
  response : option ResponseRecord;
  loadingFinished : option LoadingFinishedRecord;
  loadingFailed : option LoadingFailedRecord
}.

Definition set_response (r : ResponseRecord) (e : NetworkLogEntry) : NetworkLogEntry :=
  {| type := type e; timestamp := timestamp e; requestId := requestId e;
     url := url e; method := method e; headers := headers e;
     postData := postData e; tabId := tabId e;
     response := Some r;
     loadingFinished := loadingFinished e; loadingFailed := loadingFailed e |}.

Definition set_loadingFinished (f : LoadingFinishedRecord) (e : NetworkLogEntry) : NetworkLogEntry :=
  {| type := type e; timestamp := timestamp e; requestId := requestId e;
     url := url e; method := method e; headers := headers e;
     postData := postData e; tabId := tabId e;
     response := response e;
     loadingFinished := Some f; loadingFailed := loadingFailed e |}.

Definition set_loadingFailed (x : LoadingFailedRecord) (e : NetworkLogEntry) : NetworkLogEntry :=
  {| type := type e; timestamp := timestamp e; requestId := requestId e;
     url := url e; method := method e; headers := headers e;
     postData := postData e; tabId := tabId e;
     response := response e;
     loadingFinished := loadingFinished e; loadingFailed := Some x |}.

(** The predicate handed to [findIndex] by the three later-phase handlers:
    [log.requestId === params.requestId && log.type === 'request']. *)
Definition is_request_for (rid : string) (log : NetworkLogEntry) : bool :=
  String.eqb (requestId log) rid && String.eqb (type log) "request".

(** [handleNetworkRequest]: build the entry and [push] it. *)
Definition handleNetworkRequest (now : Z) (params : RequestWillBeSentParams)
    (tab : Z) (networkLogs : list NetworkLogEntry) : list NetworkLogEntry :=
  let logEntry :=
    {| type := "request";
       timestamp := now;
       requestId := rs_requestId params;
       url := rq_url (rs_request params);
       method := rq_method (rs_request params);
       headers := rq_headers (rs_request params);
       postData := rq_postData (rs_request params);
       tabId := tab;
       response := None; loadingFinished := None; loadingFailed := None |} in
  networkLogs ++ [logEntry].

(** [handleNetworkResponse], up to its first [await]: the entry found by
    [findIndex] receives the [response] sub-record. What follows the
    [await] is [storeResponseBody]. *)
Definition handleNetworkResponse (now : Z) (params : ResponseReceivedParams)
    (tab : Z) (networkLogs : list NetworkLogEntry) : list NetworkLogEntry :=
  match findIndex (is_request_for (rr_requestId params)) networkLogs with
  | Some requestIndex =>
      alter (set_response
               {| status := rp_status (rr_response params);
                  statusText := rp_statusText (rr_response params);
                  r_headers := rp_headers (rr_response params);
                  mimeType := rp_mimeType (rr_response params);
                  r_timestamp := now;
                  body := None; bodySize := None |})
            requestIndex networkLogs
  | None => networkLogs
  end.

(** Whether [handleNetworkResponse] goes on to fetch the body: the MIME
    type is a non-empty string containing [json], [javascript], [text] or
    [xml]. *)
Definition fetchesBody (params : ResponseReceivedParams) : bool :=
  match rp_mimeType (rr_response params) with
  | Some m =>
      negb (String.eqb m "")
      && (includes "json" m || includes "javascript" m
          || includes "text" m || includes "xml" m)
  | None => false
  end.

Definition set_body (bodyContent : jsval) (size_of_body : Z) (r : ResponseRecord)
    : ResponseRecord :=
  {| status := status r; statusText := statusText r; r_headers := r_headers r;
     mimeType := mimeType r; r_timestamp := r_timestamp r;
     body := Some bodyContent; bodySize := Some size_of_body |}.

(** [handleNetworkResponse], after the [await] of [Network.getResponseBody]
    returned a non-empty body: [bodyContent] is that body decoded (and
    parsed, for a JSON type) and [size_of_body] the length of the raw body.
    They are written to [networkLogs[requestIndex].response], with the
    index computed before the [await] and the log as it is by now. When
    the log has no entry at that index any more, or the entry there has no
    [response], the write throws inside the [try] and nothing is stored. *)
Definition storeResponseBody (requestIndex : nat) (params : ResponseReceivedParams)
    (bodyContent : jsval) (size_of_body : Z)
    (networkLogs : list NetworkLogEntry) : list NetworkLogEntry :=
  if fetchesBody params then
    match networkLogs !! requestIndex with
    | Some e =>
        match response e with
        | Some r =>
            <[requestIndex := set_response (set_body bodyContent size_of_body r) e]>
              networkLogs
        | None => networkLogs
        end
    | None => networkLogs
    end
  else networkLogs.

(** [handleNetworkLoadingFinished]. *)
Definition handleNetworkLoadingFinished (now : Z) (params : LoadingFinishedParams)
    (tab : Z) (networkLogs : list NetworkLogEntry) : list NetworkLogEntry :=
  match findIndex (is_request_for (lf_requestId params)) networkLogs with
  | Some requestIndex =>
      alter (set_loadingFinished
               {| f_timestamp := now;
                  encodedDataLength := lf_encodedDataLength params |})
            requestIndex networkLogs
  | None => networkLogs
  end.

(** [handleNetworkLoadingFailed]. *)
Definition handleNetworkLoadingFailed (now : Z) (params : LoadingFailedParams)
    (tab : Z) (networkLogs : list NetworkLogEntry) : list NetworkLogEntry :=
  match findIndex (is_request_for (lx_requestId params)) networkLogs with
  | Some requestIndex =>
      alter (set_loadingFailed
               {| x_timestamp := now;
                  errorText := lx_errorText params;
                  canceled := lx_canceled params |})
            requestIndex networkLogs
  | None => networkLogs
  end.

(** *** The orchestrator's session state and its operations *)

(** The module-level variables of [background.js] that the logging side
    reads and writes. *)
Record Session := {
  isRecording : bool;
  networkLogs : list NetworkLogEntry;
  attachedTabs : gset Z
}.

Definition with_logs (f : list NetworkLogEntry -> list NetworkLogEntry)
    (s : Session) : Session :=
  {| isRecording := isRecording s;
     networkLogs := f (networkLogs s);
     attachedTabs := attachedTabs s |}.

(** The [method] argument of [onDebuggerEvent] with its [params]; a method
    outside the four cases of the [switch] is [OtherMethod]. *)
Inductive DebuggerEvent :=
| Network_requestWillBeSent (params : RequestWillBeSentParams)
| Network_responseReceived (params : ResponseReceivedParams)
| Network_loadingFinished (params : LoadingFinishedParams)
| Network_loadingFailed (params : LoadingFailedParams)
| OtherMethod.

(** [onDebuggerEvent(source, method, params)]; [now] is the reading of
    [Date.now()] made by the handler that runs. *)
Definition onDebuggerEvent (now : Z) (source_tabId : Z) (ev : DebuggerEvent)
    (s : Session) : Session :=
  if bool_decide (source_tabId ∈ attachedTabs s) then
    match ev with
    | Network_requestWillBeSent params =>
        with_logs (handleNetworkRequest now params source_tabId) s
    | Network_responseReceived params =>
        with_logs (handleNetworkResponse now params source_tabId) s
    | Network_loadingFinished params =>
        with_logs (handleNetworkLoadingFinished now params source_tabId) s
    | Network_loadingFailed params =>
        with_logs (handleNetworkLoadingFailed now params source_tabId) s
    | OtherMethod => s
    end
  else s.

(** [startRecording(tabId)]. [attached] tells whether
    [chrome.debugger.attach] and the two [sendCommand] calls resolved; when
    one of them rejects the function rethrows before touching the state. *)
Definition startRecording (attached : bool) (tab : Z) (s : Session) : Session :=
  if attached then
    {| isRecording := true; networkLogs := []; attachedTabs := {[tab]} ∪ attachedTabs s |}
  else s.

(** [stopRecording(tabId)]. [detached] tells whether
    [chrome.debugger.detach] resolved; the [catch] branch removes the tab
    and leaves [isRecording] as it was. *)
Definition stopRecording (detached : bool) (tab : Z) (s : Session) : Session :=
  if bool_decide (tab ∈ attachedTabs s) then
    if detached then
      {| isRecording := false; networkLogs := networkLogs s;
         attachedTabs := attachedTabs s ∖ {[tab]} |}
    else
      {| isRecording := isRecording s; networkLogs := networkLogs s;
         attachedTabs := attachedTabs s ∖ {[tab]} |}
  else
    {| isRecording := false; networkLogs := networkLogs s;
       attachedTabs := attachedTabs s |}.

(** The [chrome.debugger.onDetach] listener. *)
Definition onDetach (source_tabId : Z) (s : Session) : Session :=
  if bool_decide (source_tabId ∈ attachedTabs s) then
    {| isRecording := false; networkLogs := networkLogs s;
       attachedTabs := attachedTabs s ∖ {[source_tabId]} |}
  else s.

(** [clearAllLogs()], on the session variables. *)
Definition clearAllLogs (s : Session) : Session :=
  {| isRecording := isRecording s; networkLogs := []; attachedTabs := attachedTabs s |}.

(** The reply of the [getStatus] message. *)
Definition getStatus (s : Session) : bool * nat :=
  (isRecording s, length (networkLogs s)).

(** One operation of the orchestrator on the session variables: a debugger
    event, the arrival of a response body that [handleNetworkResponse] was
    waiting for, a control message, or the debugger detaching.
    [ExportLogs] and [GetStatus] only read the session. The video
    functions do not touch [networkLogs]; of their effects on the session
    only the calls of [stopRecording] matter here, and these are
    [StopRecording] operations. *)
Inductive Op :=
| DebuggerEvent_op (now : Z) (source_tabId : Z) (ev : DebuggerEvent)
| ResponseBodyFetched (requestIndex : nat) (params : ResponseReceivedParams)
    (bodyContent : jsval) (size_of_body : Z)
| StartRecording (attached : bool) (tab : Z)
| StopRecording (detached : bool) (tab : Z)
| Detached (source_tabId : Z)
| ClearLogs
| GetStatus
| ExportLogs.

Definition step (op : Op) (s : Session) : Session :=
  match op with
  | DebuggerEvent_op now tab ev => onDebuggerEvent now tab ev s
  | ResponseBodyFetched requestIndex params bodyContent size_of_body =>
      with_logs (storeResponseBody requestIndex params bodyContent size_of_body) s
  | StartRecording attached tab => startRecording attached tab s
  | StopRecording detached tab => stopRecording detached tab s
  | Detached tab => onDetach tab s
  | ClearLogs => clearAllLogs s
  | GetStatus => s
  | ExportLogs => s
  end.

(** Operations are handled one at a time, in arrival order. *)
Definition run (ops : list Op) (s : Session) : Session :=
  foldl (fun acc op => step op acc) s ops.

(** The state of a freshly loaded service worker. *)
Definition initial_session : Session :=
  {| isRecording := false; networkLogs := []; attachedTabs := ∅ |}.

(** *** The correlation policy in the words of the specification *)

(** [Array.prototype.findLastIndex]. *)
Definition findLastIndex {A : Type} (p : A -> bool) (l : list A) : option nat :=
  (fun i => (length l - 1 - i)%nat) <$> findIndex p (reverse l).

(** The specification's [onResponseReceived]: the most recent entry with
    the matching id and no [response] yet receives the sub-record; without
    such an entry the event is discarded. *)
Definition spec_onResponseReceived (now : Z) (params : ResponseReceivedParams)
    (networkLogs : list NetworkLogEntry) : list NetworkLogEntry :=
  match findLastIndex
          (fun log => String.eqb (requestId log) (rr_requestId params)
                      && negb (bool_decide (is_Some (response log))))
          networkLogs with
  | Some i =>
      alter (set_response
               {| status := rp_status (rr_response params);
                  statusText := rp_statusText (rr_response params);
                  r_headers := rp_headers (rr_response params);
                  mimeType := rp_mimeType (rr_response params);
                  r_timestamp := now;
                  body := None; bodySize := None |})
            i networkLogs
  | None => networkLogs
  end.

(** *** What it means for an entry to survive an operation *)

(** Entries are mutated in place, so an entry is recognised by the fields
    fixed at its creation. *)
Definition same_request (e e' : NetworkLogEntry) : Prop :=
  type e' = type e /\ timestamp e' = timestamp e /\ requestId e' = requestId e /\
  url e' = url e /\ method e' = method e /\ headers e' = headers e /\
  postData e' = postData e /\ tabId e' = tabId e.

(** [e'] is [e] after some later phases: same request, and no sub-record
    that was set has been erased. *)
Definition entry_extends (e e' : NetworkLogEntry) : Prop :=
  same_request e e' /\
  (is_Some (response e) -> is_Some (response e')) /\
  (is_Some (loadingFinished e) -> is_Some (loadingFinished e')) /\
  (is_Some (loadingFailed e) -> is_Some (loadingFailed e')).

(** Every entry of [l] is still in [l'], at its index. *)
Definition entries_preserved (l l' : list NetworkLogEntry) : Prop :=
  forall (i : nat) (e : NetworkLogEntry),
    l !! i = Some e -> exists e', l' !! i = Some e' /\ entry_extends e e'.

(** What an operation writes to the [response] of the entry [e] at index
    [i], if it writes there at all: a response-received event names the
    entry's request id and brings a new sub-record, the arrival of a
    response body names the index and completes the sub-record that is
    there. *)
Definition response_written (op : Op) (i : nat) (e : NetworkLogEntry)
    : option ResponseRecord :=
  match op with
  | DebuggerEvent_op now _ (Network_responseReceived params) =>
      if String.eqb (requestId e) (rr_requestId params) then
        Some {| status := rp_status (rr_response params);
                statusText := rp_statusText (rr_response params);
                r_headers := rp_headers (rr_response params);
                mimeType := rp_mimeType (rr_response params);
                r_timestamp := now;
                body := None; bodySize := None |}
      else None
  | ResponseBodyFetched requestIndex _ bodyContent size_of_body =>
      if bool_decide (requestIndex = i)
      then set_body bodyContent size_of_body <$> response e
      else None
  | _ => None
  end.

(** What an operation writes to [loadingFinished] and to [loadingFailed]
    of the entry [e]: only an event of that kind for the entry's request
    id writes there. *)
Definition loadingFinished_written (op : Op) (e : NetworkLogEntry)
    : option LoadingFinishedRecord :=
  match op with
  | DebuggerEvent_op now _ (Network_loadingFinished params) =>
      if String.eqb (requestId e) (lf_requestId params) then
        Some {| f_timestamp := now; encodedDataLength := lf_encodedDataLength params |}
      else None
  | _ => None
  end.

Definition loadingFailed_written (op : Op) (e : NetworkLogEntry)
    : option LoadingFailedRecord :=
  match op with
  | DebuggerEvent_op now _ (Network_loadingFailed params) =>
      if String.eqb (requestId e) (lx_requestId params) then
        Some {| x_timestamp := now; errorText := lx_errorText params;
                canceled := lx_canceled params |}
      else None
  | _ => None
  end.

(** A sub-record after an operation: the one from before, or the one the
    operation wrote. *)
Definition kept_or_written {A : Type} (before after written : option A) : Prop :=
  after = before \/ (is_Some written /\ after = written).

(** The request ids for which a terminal event of either kind occurs in a
    sequence of operations. *)
Definition finished_delivered (rid : string) (ops : list Op) : Prop :=
  exists now tab params,
    DebuggerEvent_op now tab (Network_loadingFinished params) ∈ ops /\
    lf_requestId params = rid.

Definition failed_delivered (rid : string) (ops : list Op) : Prop :=
  exists now tab params,
    DebuggerEvent_op now tab (Network_loadingFailed params) ∈ ops /\
    lx_requestId params = rid.

(** Every terminal sub-record found in the log was put there by an event of
    its kind, delivered for the id of the entry that carries it. *)
Definition terminals_accounted (done : list Op) (logs : list NetworkLogEntry) : Prop :=
  forall e, e ∈ logs ->
    (is_Some (loadingFinished e) -> finished_delivered (requestId e) done) /\
    (is_Some (loadingFailed e) -> failed_delivered (requestId e) done).

(** *** Sample sessions *)

Definition req_x : RequestWillBeSentParams :=
  {| rs_requestId := "x";
     rs_request := {| rq_url := "https://example.org/a"; rq_method := "GET";
                      rq_headers := JObj []; rq_postData := JUndefined |} |}.

Definition resp_x (code : Z) : ResponseReceivedParams :=
  {| rr_requestId := "x";
     rr_response := {| rp_status := code; rp_statusText := "OK";
                       rp_headers := JObj []; rp_mimeType := Some "image/png" |} |}.

Definition finished_x : LoadingFinishedParams :=
  {| lf_requestId := "x"; lf_encodedDataLength := 512 |}.

Definition failed_x : LoadingFailedParams :=
  {| lx_requestId := "x"; lx_errorText := "net::ERR_ABORTED"; lx_canceled := Some true |}.

(** Tab 1 is attached and the request id ["x"] was sent twice, at times 10
    and 20; the first of the two was answered with status 200 at time 15. *)
Definition two_requests_one_answered : list NetworkLogEntry :=
  handleNetworkRequest 20 req_x 1
    (handleNetworkResponse 15 (resp_x 200) 1
       (handleNetworkRequest 10 req_x 1 [])).

Definition recording_session : Session :=
  {| isRecording := true; networkLogs := two_requests_one_answered;
     attachedTabs := {[ 1 ]} |}.

(** A request is sent, then reported finished, then reported failed. *)
Definition finished_then_failed : list Op :=
  [ StartRecording true 1;
    DebuggerEvent_op 10 1 (Network_requestWillBeSent req_x);
    DebuggerEvent_op 20 1 (Network_loadingFinished finished_x);
    DebuggerEvent_op 30 1 (Network_loadingFailed failed_x) ].

(** A request is sent, answered and reported finished. *)
Definition sent_answered_finished : list Op :=
  [ StartRecording true 1;
    DebuggerEvent_op 10 1 (Network_requestWillBeSent req_x);
    DebuggerEvent_op 15 1 (Network_responseReceived (resp_x 200));
    DebuggerEvent_op 20 1 (Network_loadingFinished finished_x) ].


(** ** Event aggregator ([generateImprovedTimelineHTML], [background.js]) *)

(** An element of the stored [interactionLogs]: the message data sent by the
    content script, to which the [logInteraction] handler adds
    [timestamp: Date.now()]. *)
Record InteractionLogEntry := {
  i_timestamp : Z;
  i_data : list (string * jsval)
}.

(** An element of the stored [elementSnapshots]. *)
Record ElementSnapshot := {
  s_timestamp : Z;
  s_url : string;
  s_elements : list jsval;
  s_viewport : jsval
}.

(** [videoData] of the export document: [{ hasVideo: false }] or
    [{ hasVideo: true, videoFileName, videoSize }], in which
    [videoFileName] may be [null]. *)
Inductive VideoData :=
| NoVideoData
| HasVideoData (videoFileName : option string) (videoSize : Z).

Definition hasVideo (v : VideoData) : bool :=
  match v with
  | NoVideoData => false
  | HasVideoData _ _ => true
  end.

Record Summary := {
  totalNetworkRequests : nat;
  totalInteractions : nat;
  totalElementSnapshots : nat
}.

(** The object [exportData] built by [exportAllLogs]. *)
Record ExportData := {
  exportDate : string;
  e_tabId : Z;
  mode : string;
  e_networkLogs : list NetworkLogEntry;
  e_interactionLogs : list InteractionLogEntry;
  e_elementSnapshots : list ElementSnapshot;
  videoData : VideoData;
  summary : Summary
}.

(** The [data] property of an element of [allEvents]. *)
Inductive EventData :=
| NetworkData (log : NetworkLogEntry)
| InteractionData (log : InteractionLogEntry)
| SnapshotData (snapshot : ElementSnapshot).

(** [{ type, timestamp, data }]. *)
Record TimelineEvent := {
  ev_type : string;
  ev_timestamp : Z;
  ev_data : EventData
}.

(** The three [forEach] loops pushing onto [allEvents]: network, then
    interaction, then snapshot records, each list in its own order. The
    guards [if (data.networkLogs)] and the like hold for every document,
    whose three logs are arrays. *)
Definition pushAllEvents (data : ExportData) : list TimelineEvent :=
  map (fun log => {| ev_type := "network"; ev_timestamp := timestamp log;
                     ev_data := NetworkData log |}) (e_networkLogs data)
  ++ map (fun log => {| ev_type := "interaction"; ev_timestamp := i_timestamp log;
                        ev_data := InteractionData log |}) (e_interactionLogs data)
  ++ map (fun snapshot => {| ev_type := "snapshot"; ev_timestamp := s_timestamp snapshot;
                             ev_data := SnapshotData snapshot |}) (e_elementSnapshots data).

(** [Array.prototype.sort(comparefn)]. The language requires the sort to be
    stable, and for a consistent comparator the stably sorted arrangement
    of an array is unique; it is computed here by inserting each element,
    from the last to the first, in front of the first element it does not
    have to follow ([comparefn(x, y) <= 0]). *)
Fixpoint insert_by {A : Type} (comparefn : A -> A -> Z) (x : A) (l : list A) : list A :=
  match l with
  | [] => [x]
  | y :: rest =>
      if comparefn x y <=? 0 then x :: y :: rest
      else y :: insert_by comparefn x rest
  end.

Definition Array_sort {A : Type} (comparefn : A -> A -> Z) (l : list A) : list A :=
  foldr (insert_by comparefn) [] l.

(** [allEvents] after [allEvents.sort((a, b) => a.timestamp - b.timestamp)]. *)
Definition allEvents (data : ExportData) : list TimelineEvent :=
  Array_sort (fun a b => ev_timestamp a - ev_timestamp b) (pushAllEvents data).

Record TimelineBounds := {
  startTime : Z;
  endTime : Z;
  duration : Z
}.

(** [startTime], [endTime] and [duration] of the generators. [now1] and
    [now2] are the readings of the two [Date.now()] calls, made one after
    the other when [allEvents] is empty:
    [allEvents.length > 0 ? allEvents[0].timestamp : Date.now()] and
    [allEvents.length > 0 ? allEvents[allEvents.length - 1].timestamp : Date.now()]. *)
Definition timelineBounds (now1 now2 : Z) (events : list TimelineEvent) : TimelineBounds :=
  let startTime :=
    match events !! 0%nat with
    | Some first => ev_timestamp first
    | None => now1
    end in
  let endTime :=
    match events !! (length events - 1)%nat with
    | Some last => ev_timestamp last
    | None => now2
    end in
  {| startTime := startTime; endTime := endTime; duration := endTime - startTime |}.

(** [event.timestamp - startTime], the position of an event on the
    timeline. *)
Definition relativeTime (start : Z) (event : TimelineEvent) : Z :=
  ev_timestamp event - start.


(** *** Sample documents *)

Definition empty_export : ExportData :=
  {| exportDate := "2024-01-01T00:00:00.000Z"; e_tabId := 1; mode := "logs";
     e_networkLogs := []; e_interactionLogs := []; e_elementSnapshots := [];
     videoData := NoVideoData;
     summary := {| totalNetworkRequests := 0; totalInteractions := 0;
                   totalElementSnapshots := 0 |} |}.

(** Scenario C of the specification: one network entry at 1000 and one
    interaction at 500. *)
Definition scenario_C : ExportData :=
  {| exportDate := "2024-01-01T00:00:00.000Z"; e_tabId := 1; mode := "logs";
     e_networkLogs := handleNetworkRequest 1000 req_x 1 [];
     e_interactionLogs := [ {| i_timestamp := 500; i_data := [("type", JStr "click")] |} ];
     e_elementSnapshots := [];
     videoData := NoVideoData;
     summary := {| totalNetworkRequests := 1; totalInteractions := 1;
                   totalElementSnapshots := 0 |} |}.


(** ** [JSON.stringify] and [JSON.parse] *)

(** Text is handled as a list of characters; [to_chars] and [of_chars]
    convert from and to [string]. *)
Abbreviation to_chars := list_ascii_of_string.
Abbreviation of_chars := string_of_list_ascii.

(** *** Numbers *)

(** The characters of a run of decimal digits, and the digit a character
    stands for. *)
Fixpoint uint_chars (d : Decimal.uint) : list ascii :=
  match d with
  | Decimal.Nil => []
  | Decimal.D0 d => "0"%char :: uint_chars d
  | Decimal.D1 d => "1"%char :: uint_chars d
  | Decimal.D2 d => "2"%char :: uint_chars d
  | Decimal.D3 d => "3"%char :: uint_chars d
  | Decimal.D4 d => "4"%char :: uint_chars d
  | Decimal.D5 d => "5"%char :: uint_chars d
  | Decimal.D6 d => "6"%char :: uint_chars d
  | Decimal.D7 d => "7"%char :: uint_chars d
  | Decimal.D8 d => "8"%char :: uint_chars d
  | Decimal.D9 d => "9"%char :: uint_chars d
  end.

Definition digit_of (c : ascii) : option (Decimal.uint -> Decimal.uint) :=
  match c with
  | "0"%char => Some Decimal.D0
  | "1"%char => Some Decimal.D1
  | "2"%char => Some Decimal.D2
  | "3"%char => Some Decimal.D3
  | "4"%char => Some Decimal.D4
  | "5"%char => Some Decimal.D5
  | "6"%char => Some Decimal.D6
  | "7"%char => Some Decimal.D7
  | "8"%char => Some Decimal.D8
  | "9"%char => Some Decimal.D9
  | _ => None
  end.

(** The decimal digits of a natural number. *)
Definition N_digits (m : N) : list ascii := uint_chars (N.to_uint m).

(** The exponent of the scientific notation: [e], the sign, the digits. *)
Definition exponent_part (x : Z) : list ascii :=
  "e"%char :: (if x <? 0 then "-"%char else "+"%char) :: N_digits (Z.abs_N x).

(** The digits with a point after the first one, then the exponent. *)
Definition scientific (digits : list ascii) (x : Z) : list ascii :=
  match digits with
  | [] => []
  | [d] => d :: exponent_part x
  | d :: more => d :: "."%char :: more ++ exponent_part x
  end.

(** The digits up to the last one that is not [0]. *)
Fixpoint without_trailing_zeros (digits : list ascii) : list ascii :=
  match digits with
  | [] => []
  | c :: r =>
      match without_trailing_zeros r with
      | [] => if Ascii.eqb c "0" then [] else [c]
      | r' => c :: r'
      end
  end.

(** [Number::toString]. With [k] digits and the decimal point [n]
    places behind the first digit's front: a whole number below 10^21
    is written as its digits; a number with a fraction as digits, point,
    digits when [0 < n <= 21], and as [0.], zeros, digits when
    [-6 < n <= 0]; everything else in scientific notation, with the
    exponent [n - 1]. *)
Definition Number_toString (x : Number) : list ascii :=
  match x with
  | Whole n =>
      let digits := N_digits (Z.abs_N n) in
      (if n <? 0 then ["-"%char] else [])
      ++ (if (length digits <=? 21)%nat then digits
          else scientific (without_trailing_zeros digits) (Z.of_nat (length digits) - 1))
  | Fraction negative q r e =>
      let digits := N_digits (10 * q + digit_value r) in
      let n := Z.of_nat (length digits) - Z.pos e in
      (if negative then ["-"%char] else [])
      ++ (if (0 <? n) && (n <=? 21) then
            take (Z.to_nat n) digits ++ "."%char :: drop (Z.to_nat n) digits
          else if (-6 <? n) && (n <=? 0) then
            "0"%char :: "."%char :: replicate (Z.to_nat (- n)) "0"%char ++ digits
          else scientific digits (n - 1))
  end.

(** Whether the character is one of [0] to [9]. *)
Definition is_digit (c : ascii) : bool := bool_decide (is_Some (digit_of c)).

(** The longest run of decimal digits at the head of the text. *)
Fixpoint read_digits (s : list ascii) : list ascii * list ascii :=
  match s with
  | [] => ([], [])
  | c :: r =>
      if is_digit c then let '(d, r') := read_digits r in (c :: d, r')
      else ([], s)
  end.

(** The number a run of digits denotes, after the digits already read. *)
Fixpoint digits_value (acc : N) (digits : list ascii) : N :=
  match digits with
  | [] => acc
  | c :: r => digits_value (10 * acc + (N_of_ascii c - 48))%N r
  end.

(** The fraction of a numeral, if it has one: a point and at least one
    digit. *)
Definition read_fraction (s : list ascii) : option (list ascii * list ascii) :=
  match s with
  | "."%char :: r =>
      match read_digits r with
      | ([], _) => None
      | (fraction, r') => Some (fraction, r')
      end
  | _ => Some ([], s)
  end.

(** The exponent of a numeral, if it has one: [e] or [E], an optional
    sign, at least one digit. *)
Definition read_exponent (s : list ascii) : option (Z * list ascii) :=
  match s with
  | c :: r =>
      if bool_decide (c = "e"%char \/ c = "E"%char) then
        let '(negative, r1) :=
          match r with
          | "-"%char :: r1 => (true, r1)
          | "+"%char :: r1 => (false, r1)
          | _ => (false, r)
          end in
        match read_digits r1 with
        | ([], _) => None
        | (digits, r') =>
            Some (if negative then - Z.of_N (digits_value 0 digits)
                  else Z.of_N (digits_value 0 digits), r')
        end
      else Some (0, s)
  | [] => Some (0, [])
  end.

(** Takes factors of ten out of [m] as long as the exponent [x] is
    negative. *)
Fixpoint reduce (fuel : nat) (m : N) (x : Z) : N * Z :=
  match fuel with
  | O => (m, x)
  | S fuel' =>
      if (x <? 0) && (m mod 10 =? 0)%N then reduce fuel' (m / 10)%N (x + 1)
      else (m, x)
  end.

(** The number [m * 10^x] with its sign. *)
Definition make_Number (negative : bool) (m : N) (x : Z) : Number :=
  if (m =? 0)%N then Whole 0
  else if 0 <=? x then
    Whole ((if negative then - Z.of_N m else Z.of_N m) * 10 ^ x)
  else
    let '(m', x') := reduce (Z.to_nat (- x)) m x in
    if x' =? 0 then Whole (if negative then - Z.of_N m' else Z.of_N m')
    else Fraction negative (m' / 10) (nonzero_digit (m' mod 10)) (Z.to_pos (- x')).

(** A numeral without its sign: [0] or a run of digits that does not
    start with [0], then an optional fraction and an optional exponent. *)
Definition parse_unsigned (negative : bool) (s : list ascii)
    : option (Number * list ascii) :=
  let '(integer, r1) := read_digits s in
  match integer with
  | [] => None
  | c :: more =>
      if Ascii.eqb c "0" && negb (bool_decide (more = [])) then None
      else
        match read_fraction r1 with
        | None => None
        | Some (fraction, r2) =>
            match read_exponent r2 with
            | None => None
            | Some (exponent, r3) =>
                Some (make_Number negative (digits_value 0 (integer ++ fraction))
                        (exponent - Z.of_nat (length fraction)),
                      r3)
            end
        end
  end.

(** A JSON numeral. *)
Definition parse_number (s : list ascii) : option (Number * list ascii) :=
  match s with
  | "-"%char :: r => parse_unsigned true r
  | _ => parse_unsigned false s
  end.

(** Whether the text goes on with a fraction or an exponent. *)
Definition starts_fraction_or_exponent (s : list ascii) : bool :=
  match s with
  | c :: _ => bool_decide (c = "."%char \/ c = "e"%char \/ c = "E"%char)
  | [] => false
  end.


(** *** Strings *)

Definition quote_char : ascii := "034"%char.
Definition backslash : ascii := "\"%char.

Definition hex_digit (n : N) : ascii :=
  nth (N.to_nat n) (to_chars "0123456789abcdef") "0"%char.

Definition hex_value (c : ascii) : option N :=
  let n := N_of_ascii c in
  if ((48 <=? n) && (n <=? 57))%N then Some (n - 48)%N
  else if ((97 <=? n) && (n <=? 102))%N then Some (n - 87)%N
  else if ((65 <=? n) && (n <=? 70))%N then Some (n - 55)%N
  else None.

(** [QuoteJSONString], one character: the two-character escapes, [\u00XX]
    for the other control characters, and every other character as it is. *)
Definition escape_char (c : ascii) : list ascii :=
  match c with
  | "008"%char => [backslash; "b"%char]
  | "009"%char => [backslash; "t"%char]
  | "010"%char => [backslash; "n"%char]
  | "012"%char => [backslash; "f"%char]
  | "013"%char => [backslash; "r"%char]
  | "034"%char => [backslash; quote_char]
  | "\"%char => [backslash; backslash]
  | _ =>
      if (N_of_ascii c <? 32)%N then
        [backslash; "u"%char; "0"%char; "0"%char;
         hex_digit (N_of_ascii c / 16); hex_digit (N_of_ascii c mod 16)]
      else [c]
  end.

Definition QuoteJSONString (s : string) : list ascii :=
  quote_char :: flat_map escape_char (to_chars s) ++ [quote_char].

(** One character of a JSON string literal, escape sequences decoded. A
    [\uXXXX] escape above [\u00FF] names a character outside the 8-bit
    characters of this embedding. *)
Definition read_char (s : list ascii) : option (ascii * list ascii) :=
  match s with
  | [] => None
  | c :: r =>
      if bool_decide (c = backslash) then
        match r with
        | [] => None
        | e :: r1 =>
            match e with
            | "034"%char => Some (quote_char, r1)
            | "\"%char => Some (backslash, r1)
            | "/"%char => Some ("/"%char, r1)
            | "b"%char => Some ("008"%char, r1)
            | "f"%char => Some ("012"%char, r1)
            | "n"%char => Some ("010"%char, r1)
            | "r"%char => Some ("013"%char, r1)
            | "t"%char => Some ("009"%char, r1)
            | "u"%char =>
                match r1 with
                | h1 :: h2 :: h3 :: h4 :: r2 =>
                    match hex_value h1, hex_value h2, hex_value h3, hex_value h4 with
                    | Some a, Some b, Some c3, Some d =>
                        let n := (((a * 16 + b) * 16 + c3) * 16 + d)%N in
                        if (n <? 256)%N then Some (ascii_of_N n, r2) else None
                    | _, _, _, _ => None
                    end
                | _ => None
                end
            | _ => None
            end
        end
      else if (N_of_ascii c <? 32)%N then None
      else Some (c, r)
  end.

(** The characters of a string literal up to its closing quote. *)
Fixpoint parse_string_body (fuel : nat) (s : list ascii) : option (list ascii * list ascii) :=
  match fuel with
  | O => None
  | S fuel' =>
      match s with
      | [] => None
      | c :: r =>
          if bool_decide (c = quote_char) then Some ([], r)
          else
            match read_char s with
            | Some (c', r') =>
                match parse_string_body fuel' r' with
                | Some (cs, r'') => Some (c' :: cs, r'')
                | None => None
                end
            | None => None
            end
      end
  end.

(** A string literal, from its opening quote. *)
Definition parse_string (s : list ascii) : option (string * list ascii) :=
  match s with
  | c :: r =>
      if bool_decide (c = quote_char) then
        match parse_string_body (S (length r)) r with
        | Some (cs, r') => Some (of_chars cs, r')
        | None => None
        end
      else None
  | [] => None
  end.


(** *** Values *)

(** The [gap] of [JSON.stringify(value, null, 2)]. *)
Definition gap : list ascii := [" "%char; " "%char].

Definition newline : ascii := "010"%char.

(** [partial.join(separator)]. *)
Fixpoint join (sep : list ascii) (parts : list (list ascii)) : list ascii :=
  match parts with
  | [] => []
  | [p] => p
  | p :: rest => p ++ sep ++ join sep rest
  end.

(** The text between the brackets of a non-empty array or object:
    a line break, the members one per line at the deeper indentation, a
    line break and the indentation of the enclosing level. *)
Definition lines (stepback indent : list ascii) (partial : list (list ascii)) : list ascii :=
  newline :: indent ++ join (","%char :: newline :: indent) partial
    ++ newline :: stepback.

(** [SerializeJSONProperty] with [SerializeJSONArray] and
    [SerializeJSONObject]; [None] is the result [undefined]. An
    [undefined] array element is written [null] and a property whose value
    is [undefined] is left out. *)
Fixpoint SerializeJSONProperty (stepback : list ascii) (value : jsval)
    : option (list ascii) :=
  let indent := stepback ++ gap in
  match value with
  | JUndefined => None
  | JNull => Some (to_chars "null")
  | JBool true => Some (to_chars "true")
  | JBool false => Some (to_chars "false")
  | JNum n => Some (Number_toString n)
  | JStr s => Some (QuoteJSONString s)
  | JArr items =>
      let partial :=
        map (fun x => default (to_chars "null") (SerializeJSONProperty indent x))
            items in
      Some (match partial with
            | [] => to_chars "[]"
            | _ => "["%char :: lines stepback indent partial ++ ["]"%char]
            end)
  | JObj props =>
      let partial :=
        omap (fun kv =>
                match SerializeJSONProperty indent (snd kv) with
                | Some strP =>
                    Some (QuoteJSONString (fst kv) ++ ":"%char :: " "%char :: strP)
                | None => None
                end)
             props in
      Some (match partial with
            | [] => to_chars "{}"
            | _ => "{"%char :: lines stepback indent partial ++ ["}"%char]
            end)
  end.

(** [JSON.stringify(value, null, 2)]. *)
Definition JSON_stringify (value : jsval) : option string :=
  of_chars <$> SerializeJSONProperty [] value.

(** What a value looks like once written as JSON: [undefined] array
    elements have become [null] and [undefined] properties are gone. *)
Fixpoint json_image (value : jsval) : jsval :=
  match value with
  | JArr items =>
      JArr (map (fun x => match x with
                          | JUndefined => JNull
                          | _ => json_image x
                          end) items)
  | JObj props =>
      JObj (omap (fun kv => match snd kv with
                            | JUndefined => None
                            | _ => Some (fst kv, json_image (snd kv))
                            end) props)
  | _ => value
  end.

Definition is_ws (c : ascii) : bool :=
  bool_decide (c = " "%char \/ c = "009"%char \/ c = "010"%char \/ c = "013"%char).

Fixpoint skip_ws (s : list ascii) : list ascii :=
  match s with
  | c :: r => if is_ws c then skip_ws r else s
  | [] => []
  end.

(** The next character that is not white space must be [c]; the text
    after it. *)
Definition expect (c : ascii) (s : list ascii) : option (list ascii) :=
  match skip_ws s with
  | c' :: r => if bool_decide (c' = c) then Some r else None
  | [] => None
  end.

(** The JSON value grammar by recursive descent. [fuel] bounds the nesting
    of calls. An object is returned as its members in source order. *)
Fixpoint parse_value (fuel : nat) (s : list ascii) {struct fuel}
    : option (jsval * list ascii) :=
  match fuel with
  | O => None
  | S fuel' =>
      match skip_ws s with
      | [] => None
      | "n"%char :: r =>
          match r with
          | "u"%char :: "l"%char :: "l"%char :: r' => Some (JNull, r')
          | _ => None
          end
      | "t"%char :: r =>
          match r with
          | "r"%char :: "u"%char :: "e"%char :: r' => Some (JBool true, r')
          | _ => None
          end
      | "f"%char :: r =>
          match r with
          | "a"%char :: "l"%char :: "s"%char :: "e"%char :: r' => Some (JBool false, r')
          | _ => None
          end
      | "034"%char :: r =>
          match parse_string ("034"%char :: r) with
          | Some (str, r') => Some (JStr str, r')
          | None => None
          end
      | "["%char :: r =>
          match expect "]"%char r with
          | Some r' => Some (JArr [], r')
          | None =>
              match parse_elements fuel' r with
              | Some (items, r') => Some (JArr items, r')
              | None => None
              end
          end
      | "{"%char :: r =>
          match expect "}"%char r with
          | Some r' => Some (JObj [], r')
          | None =>
              match parse_members fuel' r with
              | Some (props, r') => Some (JObj props, r')
              | None => None
              end
          end
      | c :: r =>
          match parse_number (c :: r) with
          | Some (n, r') => Some (JNum n, r')
          | None => None
          end
      end
  end
with parse_elements (fuel : nat) (s : list ascii) {struct fuel}
    : option (list jsval * list ascii) :=
  match fuel with
  | O => None
  | S fuel' =>
      match parse_value fuel' s with
      | Some (v, r) =>
          match expect ","%char r with
          | Some r' =>
              match parse_elements fuel' r' with
              | Some (vs, r'') => Some (v :: vs, r'')
              | None => None
              end
          | None =>
              match expect "]"%char r with
              | Some r' => Some ([v], r')
              | None => None
              end
          end
      | None => None
      end
  end
with parse_members (fuel : nat) (s : list ascii) {struct fuel}
    : option (list (string * jsval) * list ascii) :=
  match fuel with
  | O => None
  | S fuel' =>
      match parse_string (skip_ws s) with
      | Some (k, r) =>
          match expect ":"%char r with
          | Some r1 =>
              match parse_value fuel' r1 with
              | Some (v, r2) =>
                  match expect ","%char r2 with
                  | Some r3 =>
                      match parse_members fuel' r3 with
                      | Some (kvs, r4) => Some ((k, v) :: kvs, r4)
                      | None => None
                      end
                  | None =>
                      match expect "}"%char r2 with
                      | Some r3 => Some ([(k, v)], r3)
                      | None => None
                      end
                  end
              | None => None
              end
          | None => None
          end
      | None => None
      end
  end.

(** [JSON.parse(text)]; [None] is a [SyntaxError] (or a
    character outside this embedding). Every call consumes a character, so
    the length of the text is fuel enough. *)
Definition JSON_parse (text : string) : option jsval :=
  match parse_value (S (String.length text)) (to_chars text) with
  | Some (v, r) =>
      match skip_ws r with
      | [] => Some v
      | _ => None
      end
  | None => None
  end.

(** A property read [object.name]: of several members with one name the
    last one stands, as a later member overwrites an earlier one;
    [JUndefined] when there is none, or when the value is no object. *)
Definition get_prop (name : string) (object : jsval) : jsval :=
  match object with
  | JObj props =>
      match list_find (fun kv => fst kv = name) (reverse props) with
      | Some (_, kv) => snd kv
      | None => JUndefined
      end
  | _ => JUndefined
  end.

(** [array.length]. *)
Definition array_length (array : jsval) : option nat :=
  match array with
  | JArr items => Some (length items)
  | _ => None
  end.


(** The characters a JSON value can begin with. *)
Definition value_start (c : ascii) : bool :=
  existsb (Ascii.eqb c) (quote_char :: to_chars "ntf[{-0123456789").

(** A numeral ends where the text ends or goes on with something that
    cannot continue a numeral. *)
Definition delimited (rest : list ascii) : bool :=
  match rest with
  | [] => true
  | c :: _ => negb (bool_decide (is_Some (digit_of c)))
              && negb (starts_fraction_or_exponent rest)
  end.

(** What may follow a run of digits: nothing, or a character that is not
    a digit. *)
Definition tail_ok (tail : list ascii) : Prop :=
  match tail with
  | [] => True
  | c :: _ => is_digit c = false
  end.

(** The text of a numeral from its parts: sign, digits before the point,
    digits after it, exponent. *)
Definition fraction_text (fraction : list ascii) : list ascii :=
  match fraction with
  | [] => []
  | _ => "."%char :: fraction
  end.

Definition exponent_text (exponent : option Z) : list ascii :=
  match exponent with
  | None => []
  | Some x => exponent_part x
  end.

Definition numeral_text (negative : bool) (integer fraction : list ascii)
    (exponent : option Z) : list ascii :=
  (if negative then ["-"%char] else [])
  ++ integer ++ fraction_text fraction ++ exponent_text exponent.

(** A bound on the nesting of parser calls that a value needs. *)
Fixpoint weight (value : jsval) : nat :=
  match value with
  | JArr items => S (sum_list_with (fun x => S (weight x)) items)
  | JObj props => S (sum_list_with (fun kv => S (weight (snd kv))) props)
  | _ => 1
  end.


(** A piece of JSON text together with the value it denotes and the call
    depth its parsing needs. *)
Record printed := {
  text : list ascii;
  image : jsval;
  need : nat
}.

(** [p] is a well-printed value: it begins like a value, its text is at
    least as long as the depth it needs, and with that much fuel the
    parser reads the value back and stops right behind it. *)
Definition parses (p : printed) : Prop :=
  (exists c t, text p = c :: t /\ value_start c = true) /\
  (need p <= length (text p))%nat /\
  forall fuel rest,
    (need p <= fuel)%nat -> delimited rest = true ->
    parse_value fuel (text p ++ rest) = Some (image p, rest).

(** The member [key: value] of an object. *)
Definition member_text (m : string * printed) : list ascii :=
  QuoteJSONString (fst m) ++ ":"%char :: " "%char :: text (snd m).

Definition ws_run (l : list ascii) : Prop := Forall (fun c => is_ws c = true) l.
Definition is_spaces (l : list ascii) : Prop := Forall (fun c => c = " "%char) l.

(** An array element as [SerializeJSONArray] writes it and as it reads
    back. *)
Definition print_element (indent : list ascii) (x : jsval) : printed :=
  {| text := default (to_chars "null") (SerializeJSONProperty indent x);
     image := match x with JUndefined => JNull | _ => json_image x end;
     need := weight (match x with JUndefined => JNull | _ => json_image x end) |}.

(** The members [SerializeJSONObject] writes. *)
Definition print_members (indent : list ascii) (props : list (string * jsval))
    : list (string * printed) :=
  omap (fun kv =>
          match SerializeJSONProperty indent (snd kv) with
          | Some strP =>
              Some (fst kv, {| text := strP; image := json_image (snd kv);
                               need := weight (json_image (snd kv)) |})
          | None => None
          end) props.


(** ** Export renderer ([exportAllLogs] and the two HTML generators) *)

(** *** The export document as a JavaScript value *)

Definition js_option {A : Type} (f : A -> jsval) (o : option A) : jsval :=
  match o with
  | Some a => f a
  | None => JUndefined
  end.

Definition ResponseRecord_to_js (r : ResponseRecord) : jsval :=
  JObj [ ("status", JNum (status r));
         ("statusText", JStr (statusText r));
         ("headers", r_headers r);
         ("mimeType", js_option JStr (mimeType r));
         ("timestamp", JNum (r_timestamp r));
         ("body", js_option (fun b => b) (body r));
         ("bodySize", js_option (fun n : Z => JNum n) (bodySize r)) ].

Definition LoadingFinishedRecord_to_js (f : LoadingFinishedRecord) : jsval :=
  JObj [ ("timestamp", JNum (f_timestamp f));
         ("encodedDataLength", JNum (encodedDataLength f)) ].

Definition LoadingFailedRecord_to_js (x : LoadingFailedRecord) : jsval :=
  JObj [ ("timestamp", JNum (x_timestamp x));
         ("errorText", JStr (errorText x));
         ("canceled", js_option JBool (canceled x)) ].

(** The three later phases of a request, each of which assigns one
    property of the log entry. *)
Inductive LaterPhase := ResponsePhase | LoadingFinishedPhase | LoadingFailedPhase.

Definition later_phases : list LaterPhase :=
  [ResponsePhase; LoadingFinishedPhase; LoadingFailedPhase].

(** The property a later phase assigns, with its value in the entry
    ([undefined] when the phase has not arrived). *)
Definition phase_property (e : NetworkLogEntry) (phase : LaterPhase) : string * jsval :=
  match phase with
  | ResponsePhase => ("response", js_option ResponseRecord_to_js (response e))
  | LoadingFinishedPhase =>
      ("loadingFinished", js_option LoadingFinishedRecord_to_js (loadingFinished e))
  | LoadingFailedPhase =>
      ("loadingFailed", js_option LoadingFailedRecord_to_js (loadingFailed e))
  end.

(** A log entry as an object. The eight properties set at creation come
    first, in the order of the object literal; the three optional ones
    follow in the order in which they were first assigned, which is the
    order in which the phases arrived. An entry does not record that
    order, so it is given: [arrival] lists the phases, the ones that have
    arrived in their order of arrival. *)
Definition NetworkLogEntry_to_js_in (arrival : list LaterPhase) (e : NetworkLogEntry)
    : jsval :=
  JObj ([ ("type", JStr (type e));
          ("timestamp", JNum (timestamp e));
          ("requestId", JStr (requestId e));
          ("url", JStr (url e));
          ("method", JStr (method e));
          ("headers", headers e);
          ("postData", postData e);
          ("tabId", JNum (tabId e)) ]
        ++ map (phase_property e) arrival).

(** The entry of a request whose phases arrived in the usual order:
    response, then loading finished or loading failed. *)
Definition NetworkLogEntry_to_js (e : NetworkLogEntry) : jsval :=
  JObj [ ("type", JStr (type e));
         ("timestamp", JNum (timestamp e));
         ("requestId", JStr (requestId e));
         ("url", JStr (url e));
         ("method", JStr (method e));
         ("headers", headers e);
         ("postData", postData e);
         ("tabId", JNum (tabId e));
         ("response", js_option ResponseRecord_to_js (response e));
         ("loadingFinished", js_option LoadingFinishedRecord_to_js (loadingFinished e));
         ("loadingFailed", js_option LoadingFailedRecord_to_js (loadingFailed e)) ].

(** An assignment [object[name] = value]: an existing property keeps its
    place and takes the new value, a new one goes to the end. *)
Fixpoint set_prop (name : string) (value : jsval) (props : list (string * jsval))
    : list (string * jsval) :=
  match props with
  | [] => [(name, value)]
  | (k, v) :: rest =>
      if String.eqb k name then (k, value) :: rest
      else (k, v) :: set_prop name value rest
  end.

(** [{ ...message.data, timestamp: Date.now() }]. *)
Definition InteractionLogEntry_to_js (i : InteractionLogEntry) : jsval :=
  JObj (set_prop "timestamp" (JNum (i_timestamp i)) (i_data i)).

Definition ElementSnapshot_to_js (s : ElementSnapshot) : jsval :=
  JObj [ ("timestamp", JNum (s_timestamp s));
         ("url", JStr (s_url s));
         ("elements", JArr (s_elements s));
         ("viewport", s_viewport s) ].

Definition VideoData_to_js (v : VideoData) : jsval :=
  match v with
  | NoVideoData => JObj [ ("hasVideo", JBool false) ]
  | HasVideoData videoFileName videoSize =>
      JObj [ ("hasVideo", JBool true);
             ("videoFileName", match videoFileName with
                               | Some name => JStr name
                               | None => JNull
                               end);
             ("videoSize", JNum videoSize) ]
  end.

Definition Summary_to_js (s : Summary) : jsval :=
  JObj [ ("totalNetworkRequests", JNum (Z.of_nat (totalNetworkRequests s)));
         ("totalInteractions", JNum (Z.of_nat (totalInteractions s)));
         ("totalElementSnapshots", JNum (Z.of_nat (totalElementSnapshots s))) ].

Definition ExportData_to_js (data : ExportData) : jsval :=
  JObj [ ("exportDate", JStr (exportDate data));
         ("tabId", JNum (e_tabId data));
         ("mode", JStr (mode data));
         ("networkLogs", JArr (map NetworkLogEntry_to_js (e_networkLogs data)));
         ("interactionLogs", JArr (map InteractionLogEntry_to_js (e_interactionLogs data)));
         ("elementSnapshots", JArr (map ElementSnapshot_to_js (e_elementSnapshots data)));
         ("videoData", VideoData_to_js (videoData data));
         ("summary", Summary_to_js (summary data)) ].

(** [JSON.stringify(exportData, null, 2)]. The document is an object, so
    the result is always a string; ["undefined"] is what string
    concatenation would make of the result [undefined]. *)
Definition renderJSON (data : ExportData) : string :=
  default "undefined" (JSON_stringify (ExportData_to_js data)).

(** The export document when the phases of entry [i] of the network log
    arrived in the order [arrival i]. *)
Definition ExportData_to_js_in (arrival : nat -> list LaterPhase) (data : ExportData)
    : jsval :=
  JObj [ ("exportDate", JStr (exportDate data));
         ("tabId", JNum (e_tabId data));
         ("mode", JStr (mode data));
         ("networkLogs",
          JArr (imap (fun i e => NetworkLogEntry_to_js_in (arrival i) e)
                     (e_networkLogs data)));
         ("interactionLogs", JArr (map InteractionLogEntry_to_js (e_interactionLogs data)));
         ("elementSnapshots", JArr (map ElementSnapshot_to_js (e_elementSnapshots data)));
         ("videoData", VideoData_to_js (videoData data));
         ("summary", Summary_to_js (summary data)) ].

Definition renderJSON_in (arrival : nat -> list LaterPhase) (data : ExportData) : string :=
  default "undefined" (JSON_stringify (ExportData_to_js_in arrival data)).

(** *** The video artifact *)

Record Blob := {
  size : Z;
  blob_type : string
}.

(** What [await getVideoBlob('current-video')] evaluates to: [null], the
    stored [blob] property when it is a [Blob], or a stored [blob]
    property of some other kind. *)
Inductive RetrievedVideo :=
| VideoNull
| VideoBlob (blob : Blob)
| VideoOther (value : jsval).

(** *** The HTML documents *)

(** The markup inside [#videoContainer]: the [<video>] element with its
    [src], or the placeholder with its two lines of text. *)
Inductive VideoContainer :=
| VideoElement (src : string)
| VideoPlaceholder (no_video : string) (hint : string).

(** The values interpolated into the template of
    [generateVideoTimelineHTML]; the fixed markup and style sheet around
    them are not reproduced. *)
Record VideoTimelineHTML := {
  videoSrc : option string;
  useDataUrl : bool;
  videoContainer : VideoContainer;
  videoControls : bool;
  hasVideo_flag : bool;
  vt_allEvents : list TimelineEvent;
  vt_bounds : TimelineBounds;
  vt_captureData : string
}.

(** The values interpolated into the template of
    [generateImprovedTimelineHTML]. *)
Record ImprovedTimelineHTML := {
  it_allEvents : list TimelineEvent;
  it_bounds : TimelineBounds;
  it_captureData : string
}.

Definition generateImprovedTimelineHTML (now1 now2 : Z) (data : ExportData)
    : ImprovedTimelineHTML :=
  {| it_allEvents := allEvents data;
     it_bounds := timelineBounds now1 now2 (allEvents data);
     it_captureData := renderJSON data |}.

(** Truthiness of a string or [null]. *)
Definition truthy_string (s : option string) : bool :=
  match s with
  | Some str => negb (String.eqb str "")
  | None => false
  end.

Definition maxDataUrlSize : Z := 10 * 1024 * 1024.

(** [generateVideoTimelineHTML(data, videoBlob = null, videoFileName = null)].
    [read] is what the [FileReader] delivers when the function asks for
    the blob as a data URL: the URL, or [None] when its [onerror] handler
    runs and resolves the promise with [null]. *)
Definition generateVideoTimelineHTML (read : option string) (now1 now2 : Z)
    (data : ExportData) (videoBlob : option Blob) (videoFileName : option string)
    : VideoTimelineHTML :=
  let '(videoSrc, useDataUrl) :=
    match videoBlob with
    | Some blob =>
        if size blob <? maxDataUrlSize then (read, true)
        else (Some (if truthy_string videoFileName
                    then default "" videoFileName else "video.webm"), false)
    | None => (None, false)
    end in
  {| videoSrc := videoSrc;
     useDataUrl := useDataUrl;
     videoContainer :=
       if truthy_string videoSrc then VideoElement (default "" videoSrc)
       else VideoPlaceholder "Video recording not available"
              (if truthy_string videoFileName
               then "Video file: " +:+ default "" videoFileName
                    +:+ " (place in same directory as this HTML file)"
               else "Enable video mode to capture screen recording");
     videoControls := truthy_string videoSrc;
     hasVideo_flag := truthy_string videoSrc;
     vt_allEvents := allEvents data;
     vt_bounds := timelineBounds now1 now2 (allEvents data);
     vt_captureData := renderJSON data |}.


(** *** [exportAllLogs] *)

(** The target of a [chrome.downloads.download] call. The script passes a
    data URL; here the payload is kept as it is: the video as the data URL
    the [FileReader] produced, the JSON text, the HTML document. *)
Inductive DownloadUrl :=
| VideoDataUrl (dataUrl : string)
| JsonDataUrl (jsonString : string)
| LogsHtmlDataUrl (htmlContent : ImprovedTimelineHTML)
| VideoHtmlDataUrl (htmlContent : VideoTimelineHTML).

(** [{ url, filename, saveAs: true }]. *)
Record Download := {
  d_url : DownloadUrl;
  d_filename : string
}.

(** What the surroundings answer during one run of [exportAllLogs], in the
    order the run asks. *)
Record ExportEnv := {
  (** [chrome.storage.local.get([...])]: the two stored values, each
      possibly absent; [None] when the call rejects. *)
  storage_get : option (option (list InteractionLogEntry)
                        * option (list ElementSnapshot));
  (** [getVideoBlob('current-video')]; [None] when the promise rejects. *)
  getVideoBlob : option RetrievedVideo;
  (** [Date.now()] for the video file name. *)
  video_now : Z;
  (** [reader.result] of the first [FileReader]; [None] on [onerror]. *)
  video_read : option string;
  (** Whether the JSON and the HTML download resolve. A rejected video
      download is caught and changes nothing in what follows. *)
  json_download_ok : bool;
  html_download_ok : bool;
  (** [new Date().toISOString()]. *)
  iso_now : string;
  (** [Date.now()] for the JSON and HTML file names. *)
  export_now : Z;
  (** The [FileReader] and the two [Date.now()] of the HTML generator. *)
  html_read : option string;
  html_now1 : Z;
  html_now2 : Z
}.

(** One run: the downloads it asked for, in order, the document it built
    (if it came that far), and whether the promise resolved. *)
Record ExportRun := {
  downloads : list Download;
  document : option ExportData;
  resolved : bool
}.

Definition decimal (n : Z) : string := of_chars (Number_toString n).

(** The video part of [exportAllLogs] in video mode, after [getVideoBlob]
    resolved with [retrieved]: the value of [videoBlob] and of
    [videoFileName] afterwards, and the video download asked for. A value
    that is not a [Blob] and an empty [Blob] become [null] (a falsy value
    is left as it is, which every later test treats like [null]); a [Blob] above
    500 MB is kept without being downloaded; any other [Blob] is named and,
    when the reader delivers its data URL, downloaded. A failing read or
    download is caught and the export goes on. *)
Definition retrieveVideo (env : ExportEnv) (retrieved : RetrievedVideo)
    : option Blob * option string * list Download :=
  match retrieved with
  | VideoNull => (None, None, [])
  | VideoOther _ => (None, None, [])
  | VideoBlob blob =>
      if size blob =? 0 then (None, None, [])
      else if size blob >? 500 * 1024 * 1024 then (Some blob, None, [])
      else
        let videoFileName := "capture_all_video_" +:+ decimal (video_now env) +:+ ".webm" in
        (Some blob, Some videoFileName,
         if truthy_string (video_read env)
         then [ {| d_url := VideoDataUrl (default "" (video_read env));
                   d_filename := videoFileName |} ]
         else [])
  end.

(** [exportAllLogs(tabId, mode)] on the current [networkLogs]. The text of
    the JSON download is written as [renderJSON] writes it, for entries
    whose phases arrived in the usual order; [renderJSON_in] is the text
    for any other order of arrival. *)
Definition exportAllLogs (env : ExportEnv) (networkLogs : list NetworkLogEntry)
    (tab : Z) (export_mode : string) : ExportRun :=
  match storage_get env with
  | None => {| downloads := []; document := None; resolved := false |}
  | Some (stored_interactions, stored_snapshots) =>
      let interactionLogs := default [] stored_interactions in
      let elementSnapshots := default [] stored_snapshots in
      let video :=
        if String.eqb export_mode "video" then
          match getVideoBlob env with
          | Some retrieved => Some (retrieveVideo env retrieved)
          | None => None
          end
        else Some (None, None, []) in
      match video with
      | None => {| downloads := []; document := None; resolved := false |}
      | Some (videoBlob, videoFileName, video_downloads) =>
          let exportData :=
            {| exportDate := iso_now env;
               e_tabId := tab;
               mode := export_mode;
               e_networkLogs := networkLogs;
               e_interactionLogs := interactionLogs;
               e_elementSnapshots := elementSnapshots;
               videoData :=
                 match videoBlob with
                 | Some blob => HasVideoData videoFileName (size blob)
                 | None => NoVideoData
                 end;
               summary :=
                 {| totalNetworkRequests := length networkLogs;
                    totalInteractions := length interactionLogs;
                    totalElementSnapshots := length elementSnapshots |} |} in
          let json_download :=
            {| d_url := JsonDataUrl (renderJSON exportData);
               d_filename := "capture_all_logs_" +:+ decimal (export_now env) +:+ ".json" |} in
          if json_download_ok env then
            let htmlContent :=
              if String.eqb export_mode "video"
              then VideoHtmlDataUrl
                     (generateVideoTimelineHTML (html_read env) (html_now1 env)
                        (html_now2 env) exportData videoBlob videoFileName)
              else LogsHtmlDataUrl
                     (generateImprovedTimelineHTML (html_now1 env) (html_now2 env)
                        exportData) in
            let html_download :=
              {| d_url := htmlContent;
                 d_filename := "capture_all_timeline_" +:+ decimal (export_now env) +:+ ".html" |} in
            {| downloads := video_downloads ++ [json_download; html_download];
               document := Some exportData;
               resolved := html_download_ok env |}
          else
            {| downloads := video_downloads ++ [json_download];
               document := Some exportData;
               resolved := false |}
      end
  end.

(** The value retrieved is unusable as a video: not a [Blob], or an empty
    one. *)
Definition not_a_usable_blob (retrieved : RetrievedVideo) : Prop :=
  match retrieved with
  | VideoBlob blob => size blob = 0
  | _ => True
  end.

Definition is_video_download (d : Download) : bool :=
  match d_url d with
  | VideoDataUrl _ => true
  | _ => false
  end.


(** *** Sample exports *)


Definition empty_video : Blob := {| size := 0; blob_type := "video/webm" |}.

(** An export in video mode in which the blob store hands back an empty
    blob; every download resolves. *)
Definition env_empty_video : ExportEnv :=
  {| storage_get := Some (Some [ {| i_timestamp := 500; i_data := [("type", JStr "click")] |} ],
                          None);
     getVideoBlob := Some (VideoBlob empty_video);
     video_now := 9000;
     video_read := Some "data:video/webm;base64,";
     json_download_ok := true;
     html_download_ok := true;
     iso_now := "2024-01-01T00:00:00.000Z";
     export_now := 9001;
     html_read := Some "data:video/webm;base64,";
     html_now1 := 9002;
     html_now2 := 9002 |}.


(** The text of the placeholder. *)
Definition no_video_placeholder (videoFileName : option string) : VideoContainer :=
  VideoPlaceholder "Video recording not available"
    (if truthy_string videoFileName
     then "Video file: " +:+ default "" videoFileName
          +:+ " (place in same directory as this HTML file)"
     else "Enable video mode to capture screen recording").


(** ** Content script ([content.js]): input events *)

(** *** The page *)

Record DOMRect := {
  rect_top : Number;
  rect_left : Number;
  rect_width : Number;
  rect_height : Number
}.

(** The three properties [isElementVisible] reads off
    [window.getComputedStyle(element)]. *)
Record ComputedStyle := {
  display : string;
  visibility : string;
  opacity : string
}.

(** An element of the page with what the script reads from it. [el_id] and
    [className] are empty when the element has none; [el_value] is the
    [value] property, the text currently in the field ([None] for an
    element without one), as opposed to the [value] content attribute,
    which is one of the [attributes]; [is_body] tells [document.body]. *)
Inductive Element := mkElement {
  tagName : string;
  el_id : string;
  className : string;
  textContent : option string;
  attributes : list (string * string);
  el_value : option string;
  boundingClientRect : DOMRect;
  computedStyle : ComputedStyle;
  is_body : bool;
  previousElementSibling : option Element;
  parentElement : option Element
}.

(** *** String helpers *)

(** [toLowerCase] on the letters [A] to [Z]. *)
Definition lower_char (c : ascii) : ascii :=
  let n := N_of_ascii c in
  if ((65 <=? n) && (n <=? 90))%N then ascii_of_N (n + 32) else c.

Definition toLowerCase (s : string) : string :=
  of_chars (map lower_char (to_chars s)).

(** White space as [trim] and [/\s+/] see it, among the 8-bit characters. *)
Definition is_space (c : ascii) : bool :=
  let n := N_of_ascii c in
  ((9 <=? n) && (n <=? 13) || (n =? 32) || (n =? 160))%N.

(** The maximal runs of characters that are not white space; [word] is the
    run being read, in reverse. *)
Fixpoint words_from (word : list ascii) (s : list ascii) : list string :=
  match s with
  | [] => match word with [] => [] | _ => [of_chars (rev word)] end
  | c :: r =>
      if is_space c then
        match word with
        | [] => words_from [] r
        | _ => of_chars (rev word) :: words_from [] r
        end
      else words_from (c :: word) r
  end.

(** [s.trim().split(/\s+/)]: the words of [s]; of a string without any,
    the one empty string. *)
Definition trim_split (s : string) : list string :=
  match words_from [] (to_chars s) with
  | [] => [""]
  | ws => ws
  end.

(** [parts.join(sep)] on strings. *)
Fixpoint join_strings (sep : string) (parts : list string) : string :=
  match parts with
  | [] => ""
  | [p] => p
  | p :: rest => p +:+ sep +:+ join_strings sep rest
  end.

(** [s.substring(0, n)]. *)
Definition substring0 (n : nat) (s : string) : string := String.substring 0 n s.

Definition nonempty (s : string) : bool := negb (String.eqb s "").

(** *** The element descriptor *)

(** The inner loop of [getXPath]: [index] after walking from [sibling]
    back over the previous siblings of an element with tag [tag]. *)
Fixpoint sibling_index (tag : string) (index : nat) (sibling : Element) {struct sibling}
    : nat :=
  let index' := if String.eqb (tagName sibling) tag then S index else index in
  match previousElementSibling sibling with
  | Some s => sibling_index tag index' s
  | None => index'
  end.

(** One step [/tag[index]] of the path. *)
Definition xpath_step (current : Element) : string :=
  "/" +:+ toLowerCase (tagName current) +:+ "["
  +:+ decimal (Z.of_nat match previousElementSibling current with
                        | Some s => sibling_index (tagName current) 1 s
                        | None => 1%nat
                        end)
  +:+ "]".

(** The outer loop of [getXPath]: [path] once [current] and its ancestors
    below [document.body] have been put in front of it. *)
Fixpoint xpath_from (current : Element) (path : string) {struct current} : string :=
  if is_body current then path
  else
    match parentElement current with
    | Some parent => xpath_from parent (xpath_step current +:+ path)
    | None => xpath_step current +:+ path
    end.

Definition getXPath (element : Element) : string :=
  if nonempty (el_id element) then
    "//*[@id=" +:+ String quote_char (el_id element) +:+ String quote_char "]"
  else if is_body element then "/html/body"
  else "/html/body" +:+ xpath_from element "".

(** The selector of one level: the tag and at most two classes. *)
Definition level_selector (current : Element) : string :=
  toLowerCase (tagName current)
  +:+ (if nonempty (className current)
       then join_strings ""
              (map (fun cl => "." +:+ cl) (take 2 (trim_split (className current))))
       else "").

(** The loop of [getCssSelector]: [path] after [current] and its ancestors
    below [document.body] have been put in front of it, as long as [path]
    has fewer than five entries; [room] is [5 - path.length]. *)
Fixpoint selector_path (room : nat) (current : Element) (path : list string)
    {struct room} : list string :=
  match room with
  | S room' =>
      if is_body current then path
      else
        match parentElement current with
        | Some parent => selector_path room' parent (level_selector current :: path)
        | None => level_selector current :: path
        end
  | O => path
  end.

Definition getCssSelector (element : Element) : string :=
  if nonempty (el_id element) then "#" +:+ el_id element
  else join_strings " > " (selector_path 5 element []).

(** [getRelevantAttributes]: the allow-listed attributes the element has,
    with their values, in the order of the list. *)
Definition relevantAttrs : list string :=
  ["href"; "src"; "alt"; "title"; "name"; "type"; "value"; "placeholder"].

Definition getAttribute (attr : string) (element : Element) : option string :=
  snd <$> find (fun kv => String.eqb (fst kv) attr) (attributes element).

Definition getRelevantAttributes (element : Element) : list (string * string) :=
  omap (fun attr => (fun v => (attr, v)) <$> getAttribute attr element) relevantAttrs.

Definition isElementVisible (element : Element) : bool :=
  negb (String.eqb (display (computedStyle element)) "none")
  && negb (String.eqb (visibility (computedStyle element)) "hidden")
  && negb (String.eqb (opacity (computedStyle element)) "0").

(** The object [getElementData] returns; [None] is [null]. *)
Record ElementData := {
  ed_tagName : string;
  ed_id : option string;
  ed_className : option string;
  ed_xpath : string;
  ed_selector : string;
  ed_text : option string;
  ed_attributes : list (string * string);
  ed_position : DOMRect;
  ed_visible : bool
}.

Definition or_null (s : string) : option string :=
  if nonempty s then Some s else None.

Definition getElementData (element : Element) : ElementData :=
  {| ed_tagName := tagName element;
     ed_id := or_null (el_id element);
     ed_className := or_null (className element);
     ed_xpath := getXPath element;
     ed_selector := getCssSelector element;
     ed_text :=
       match textContent element with
       | Some t => if nonempty t then Some (substring0 100 t) else None
       | None => None
       end;
     ed_attributes := getRelevantAttributes element;
     ed_position := boundingClientRect element;
     ed_visible := isElementVisible element |}.

(** *** [handleInput] and [logInteraction] *)

(** The [input] event: its target and its [inputType]. *)
Record InputEvent := {
  target : Element;
  inputType : option string
}.

(** The data object [handleInput] hands to [logInteraction]. *)
Record InputInteraction := {
  in_type : string;
  in_element : ElementData;
  in_valueLength : nat;
  in_inputType : option string;
  in_url : string
}.

(** The module-level variables of the content script that input handling
    touches. *)
Record ContentState := {
  isRecordingInteractions : bool;
  isContextValid : bool
}.

(** [stopInteractionRecording()], on the state. *)
Definition stopInteractionRecording (st : ContentState) : ContentState :=
  {| isRecordingInteractions := false; isContextValid := isContextValid st |}.

(** [logInteraction(data)], up to the return of
    [chrome.runtime.sendMessage]. [context_ok] is the answer of
    [checkContext()] and [sent] tells that [chrome.runtime.sendMessage]
    did not throw. The result is the new state and the message sent, if
    any. The callback handed to [sendMessage] runs later, as an event of
    its own: [logInteraction_callback]. *)
Definition logInteraction {A : Type} (context_ok sent : bool) (st : ContentState)
    (data : A) : ContentState * option A :=
  if context_ok then
    if sent then (st, Some data)
    else ({| isRecordingInteractions := false; isContextValid := false |}, None)
  else ({| isRecordingInteractions := false; isContextValid := false |}, None).

(** The callback [logInteraction] hands to [chrome.runtime.sendMessage],
    run once the message has been answered or has failed; [lastError]
    tells whether [chrome.runtime.lastError] is set by then. *)
Definition logInteraction_callback (lastError : bool) (st : ContentState)
    : ContentState :=
  if lastError then
    stopInteractionRecording
      {| isRecordingInteractions := isRecordingInteractions st; isContextValid := false |}
  else st.

(** [handleInput(event)]; [href] is [window.location.href]. *)
Definition handleInput (context_ok sent : bool) (href : string)
    (st : ContentState) (event : InputEvent)
    : ContentState * option InputInteraction :=
  if isRecordingInteractions st then
    logInteraction context_ok sent st
      {| in_type := "input";
         in_element := getElementData (target event);
         in_valueLength :=
           match el_value (target event) with
           | Some v => if nonempty v then String.length v else 0%nat
           | None => 0%nat
           end;
         in_inputType := inputType event;
         in_url := href |}
  else (st, None).

(** *** The record as logged by the service worker *)





(** The [logInteraction] case of the message handler in [background.js]:
    the stored log ([|| []] when absent) with
    [{ ...message.data, timestamp: Date.now() }] pushed onto it. *)
Definition storeInteraction (now : Z) (data : list (string * jsval))
    (stored : option (list InteractionLogEntry)) : list InteractionLogEntry :=
  default [] stored ++ [ {| i_timestamp := now; i_data := data |} ].


(** *** A sample page *)

Definition sample_form : Element :=
  {| tagName := "FORM"; el_id := ""; className := "login  wide dark";
     textContent := Some "Password"; attributes := [];
     el_value := None;
     boundingClientRect := {| rect_top := 0; rect_left := 0; rect_width := 300; rect_height := 80 |};
     computedStyle := {| display := "block"; visibility := "visible"; opacity := "1" |};
     is_body := false;
     previousElementSibling := None;
     parentElement := None |}.

Definition sample_input : Element :=
  {| tagName := "INPUT"; el_id := ""; className := "field";
     textContent := None;
     attributes := [("type", "password"); ("name", "pw"); ("data-x", "1")];
     el_value := None;
     boundingClientRect := {| rect_top := 10; rect_left := 10; rect_width := 200; rect_height := 20 |};
     computedStyle := {| display := "inline-block"; visibility := "visible"; opacity := "1" |};
     is_body := false;
     previousElementSibling := None;
     parentElement := Some sample_form |}.

Definition recording : ContentState :=
  {| isRecordingInteractions := true; isContextValid := true |}.

(** The sample input holding the text [text] that was typed into it. *)
Definition typed_input (text : string) : Element :=
  {| tagName := "INPUT"; el_id := ""; className := "field";
     textContent := None;
     attributes := [("type", "password"); ("name", "pw"); ("data-x", "1")];
     el_value := Some text;
     boundingClientRect := {| rect_top := 10; rect_left := 10; rect_width := 200; rect_height := 20 |};
     computedStyle := {| display := "inline-block"; visibility := "visible"; opacity := "1" |};
     is_body := false;
     previousElementSibling := None;
     parentElement := Some sample_form |}.




(** The document built by the sample export. *)
Definition exported_document : ExportData :=
  default empty_export
    (document (exportAllLogs env_empty_video two_requests_one_answered 1 "video")).


(** The statement proved by induction on the value. *)
Definition reads_back (v : jsval) : Prop :=
  forall stepback txt,
    is_spaces stepback -> SerializeJSONProperty stepback v = Some txt ->
    parses {| text := txt; image := json_image v; need := weight (json_image v) |}.

(** [array[i]]. *)
Definition array_get (array : jsval) (i : nat) : jsval :=
  match array with
  | JArr items => default JUndefined (items !! i)
  | _ => JUndefined
  end.

(** ** Further properties of the correlator: vocabulary *)

(** A request-sent event that [onDebuggerEvent] lets through: its tab is
    attached. *)
Definition accepted_request (attached : gset Z) (op : Op) : bool :=
  match op with
  | DebuggerEvent_op _ tab (Network_requestWillBeSent _) => bool_decide (tab ∈ attached)
  | _ => false
  end.

(** Every entry of the log is of type "request", the only type
    [handleNetworkRequest] writes. *)
Definition all_requests (l : list NetworkLogEntry) : Prop :=
  forall e, e ∈ l -> type e = "request".

(** Debugger events and arriving response bodies, as opposed to control
    messages. *)
Definition is_protocol_traffic (op : Op) : bool :=
  match op with
  | DebuggerEvent_op _ _ _ => true
  | ResponseBodyFetched _ _ _ _ => true
  | _ => false
  end.

(** A run that receives three requests on the attached tab 1, one on the
    unattached tab 2, and two later phases. *)
Definition traffic_sample : list Op :=
  [ DebuggerEvent_op 10 1 (Network_requestWillBeSent req_x);
    DebuggerEvent_op 11 2 (Network_requestWillBeSent req_x);
    DebuggerEvent_op 12 1 (Network_responseReceived (resp_x 200));
    DebuggerEvent_op 13 1 (Network_requestWillBeSent req_x);
    DebuggerEvent_op 14 1 (Network_loadingFinished finished_x);
    DebuggerEvent_op 15 1 (Network_requestWillBeSent req_x) ].


(** ** The timeline page ([generateTimelineTracks] and the page's script) *)

(** The [data-type] and [data-index] attributes of an [.event-pill]
    element. The template writes [data-index] as the decimal numeral of
    an array index, and [parseInt(pill.dataset.index)] reads that numeral
    back; the record holds the number. *)
Record EventPill := {
  data_type : string;
  data_index : Z
}.

(** The pills of [generateTimelineTracks(data, startTime, endTime)], in
    document order, which is the order of
    [document.querySelectorAll('.event-pill')]: one per network record
    with [data-index="${index}"], one per interaction with
    [data.networkLogs.length + index], one per snapshot with
    [(data.networkLogs?.length || 0) + (data.interactionLogs?.length || 0) + index].
    A track whose log is empty is left out and has no pill. *)
Definition generateTimelineTracks (data : ExportData) : list EventPill :=
  imap (fun index _ =>
          {| data_type := "network"; data_index := Z.of_nat index |})
       (e_networkLogs data)
  ++ imap (fun index _ =>
             {| data_type := "interaction";
                data_index := Z.of_nat (length (e_networkLogs data)) + Z.of_nat index |})
          (e_interactionLogs data)
  ++ imap (fun index _ =>
             {| data_type := "snapshot";
                data_index := Z.of_nat (length (e_networkLogs data))
                              + Z.of_nat (length (e_interactionLogs data))
                              + Z.of_nat index |})
          (e_elementSnapshots data).

(** The click listener that [setupEventListeners] puts on a pill:
    the event handed to [showEventDetails], if any.
    [if (eventIndex >= 0 && eventIndex < allEvents.length)
       showEventDetails(allEvents[eventIndex])]. *)
Definition pill_click (allEvents : list TimelineEvent) (pill : EventPill)
    : option TimelineEvent :=
  let eventIndex := data_index pill in
  if (0 <=? eventIndex) && (eventIndex <? Z.of_nat (length allEvents))
  then allEvents !! Z.to_nat eventIndex
  else None.

(** The loop of [updateCurrentEvent]:
    [for (let i = 0; i < allEvents.length; i++)
       if (allEvents[i].timestamp <= currentTimestamp) newEventIndex = i;
       else break;].
    [currentTimestamp] is the number [startTime + currentTime]; the play
    head [currentTime] advances by fractions of a millisecond, so it is a
    rational here. [events] is what is left of [allEvents] from index [i]
    on. *)
Fixpoint scan_events (currentTimestamp : QArith_base.Q) (events : list TimelineEvent)
    (i newEventIndex : Z) : Z :=
  match events with
  | [] => newEventIndex
  | event :: rest =>
      if QArith_base.Qle_bool (QArith_base.inject_Z (ev_timestamp event)) currentTimestamp
      then scan_events currentTimestamp rest (i + 1) i
      else newEventIndex
  end.

(** [updateCurrentEvent()], given [currentTimestamp]: the new value of
    [currentEventIndex] and the event handed to [showCurrentEvent], if
    any. *)
Definition updateCurrentEvent (currentTimestamp : QArith_base.Q)
    (allEvents : list TimelineEvent) (currentEventIndex : Z)
    : Z * option TimelineEvent :=
  let newEventIndex := scan_events currentTimestamp allEvents 0 (-1) in
  if negb (newEventIndex =? currentEventIndex) && (0 <=? newEventIndex)
  then (newEventIndex, allEvents !! Z.to_nat newEventIndex)
  else (currentEventIndex, None).

(** The events at or before the play head. *)
Definition at_or_before (currentTimestamp : QArith_base.Q) (event : TimelineEvent) : bool :=
  QArith_base.Qle_bool (QArith_base.inject_Z (ev_timestamp event)) currentTimestamp.

(** [formatTimestamp(ms)] of the page's script. [Math.floor(a / b)] on
    integers is [a / b], and [%] is the remainder with the sign of the
    dividend. *)
Definition formatTimestamp (ms : Z) : string :=
  let seconds := ms / 1000 in
  let minutes := seconds / 60 in
  let hours := minutes / 60 in
  if 0 <? hours then
    decimal hours +:+ "h " +:+ decimal (Z.rem minutes 60) +:+ "m "
      +:+ decimal (Z.rem seconds 60) +:+ "s"
  else if 0 <? minutes then
    decimal minutes +:+ "m " +:+ decimal (Z.rem seconds 60) +:+ "s"
  else decimal seconds +:+ "s".

(** [formatDuration(ms)] of the two generators. *)
Definition formatDuration (ms : Z) : string :=
  let seconds := ms / 1000 in
  let minutes := seconds / 60 in
  if 0 <? minutes then
    decimal minutes +:+ "m " +:+ decimal (Z.rem seconds 60) +:+ "s"
  else decimal seconds +:+ "s".

(** The number of records of the three logs at or before the play head. *)
Definition events_reached (currentTimestamp : QArith_base.Q) (data : ExportData) : nat :=
  length (filter (fun e => at_or_before currentTimestamp e = true) (pushAllEvents data)).

(** An operation that neither empties the log nor starts it afresh. *)
Definition keeps_log (op : Op) : bool :=
  match op with
  | ClearLogs => false
  | StartRecording true _ => false
  | _ => true
  end.

(** A response of a textual type for the request ["x"]. *)
Definition text_resp_x : ResponseReceivedParams :=
  {| rr_requestId := "x";
     rr_response := {| rp_status := 200; rp_statusText := "OK";
                       rp_headers := JObj []; rp_mimeType := Some "text/html" |} |}.

(** Two environments that answer alike wherever the video is not
    concerned: the stored logs, the JSON and HTML downloads, the clock
    readings for the document and the two file names and for the HTML
    generator. *)
Definition same_outside_video (env env' : ExportEnv) : Prop :=
  storage_get env' = storage_get env /\
  json_download_ok env' = json_download_ok env /\
  html_download_ok env' = html_download_ok env /\
  iso_now env' = iso_now env /\
  export_now env' = export_now env /\
  html_now1 env' = html_now1 env /\
  html_now2 env' = html_now2 env.

(** The environment of [env_empty_video] with a real recording in the
    blob store, which cannot be read. *)
Definition env_unreadable_video : ExportEnv :=
  {| storage_get := storage_get env_empty_video;
     getVideoBlob := Some (VideoBlob {| size := 20 * 1024 * 1024; blob_type := "video/webm" |});
     video_now := 1;
     video_read := None;
     json_download_ok := json_download_ok env_empty_video;
     html_download_ok := html_download_ok env_empty_video;
     iso_now := iso_now env_empty_video;
     export_now := export_now env_empty_video;
     html_read := None;
     html_now1 := html_now1 env_empty_video;
     html_now2 := html_now2 env_empty_video |}.

(** ** Content script ([content.js]): scrolling, changes and snapshots *)

Definition SCROLL_THROTTLE : Z := 100.

(** What the handlers read off [window]; the scroll offsets and the pixel
    ratio need not be whole numbers. *)
Record Window := {
  innerWidth : QArith_base.Q;
  innerHeight : QArith_base.Q;
  scrollX : QArith_base.Q;
  scrollY : QArith_base.Q;
  devicePixelRatio : QArith_base.Q;
  location_href : string
}.

(** The object [getViewportData()] returns. *)
Record ViewportData := {
  vp_width : QArith_base.Q;
  vp_height : QArith_base.Q;
  vp_scrollX : QArith_base.Q;
  vp_scrollY : QArith_base.Q;
  vp_devicePixelRatio : QArith_base.Q
}.

Definition getViewportData (window : Window) : ViewportData :=
  {| vp_width := innerWidth window;
     vp_height := innerHeight window;
     vp_scrollX := scrollX window;
     vp_scrollY := scrollY window;
     vp_devicePixelRatio := devicePixelRatio window |}.

(** [scrollTarget]: the string ['window'] or an element descriptor. *)
Inductive ScrollTarget :=
| WindowTarget
| ElementTarget (element : ElementData).

(** The data object [handleScroll] hands to [logInteraction]. *)
Record ScrollInteraction := {
  sc_type : string;
  sc_scrollPosition : QArith_base.Q * QArith_base.Q;
  sc_scrollTarget : ScrollTarget;
  sc_url : string;
  sc_viewport : ViewportData
}.

(** The module-level variables that scroll handling touches. *)
Record ScrollState := {
  sc_content : ContentState;
  lastScrollTime : Z
}.

(** [handleScroll(event)]. [scroll_target] is [event.target], [None] when
    it is [document]; [now] is the reading of [Date.now()]. *)
Definition handleScroll (context_ok sent : bool) (now : Z) (window : Window)
    (st : ScrollState) (scroll_target : option Element)
    : ScrollState * option ScrollInteraction :=
  if isRecordingInteractions (sc_content st) then
    if now - lastScrollTime st <? SCROLL_THROTTLE then (st, None)
    else
      let result :=
        logInteraction context_ok sent (sc_content st)
          {| sc_type := "scroll";
             sc_scrollPosition := (scrollX window, scrollY window);
             sc_scrollTarget :=
               match scroll_target with
               | None => WindowTarget
               | Some element => ElementTarget (getElementData element)
               end;
             sc_url := location_href window;
             sc_viewport := getViewportData window |} in
      ({| sc_content := fst result; lastScrollTime := now |}, snd result)
  else (st, None).

(** One scroll event as the handler meets it: its target, the clock
    reading, the window, and how the extension context answers. *)
Record ScrollOccurrence := {
  so_target : option Element;
  so_now : Z;
  so_window : Window;
  so_context_ok : bool;
  so_sent : bool
}.

(** The handler over a sequence of scroll events: the final state and the
    messages sent, in order. *)
Fixpoint handleScroll_all (st : ScrollState) (events : list ScrollOccurrence)
    : ScrollState * list ScrollInteraction :=
  match events with
  | [] => (st, [])
  | o :: rest =>
      let step := handleScroll (so_context_ok o) (so_sent o) (so_now o)
                    (so_window o) st (so_target o) in
      let later := handleScroll_all (fst step) rest in
      (fst later, option_list (snd step) ++ snd later)
  end.

(** The [change] event: its target with the [type] and [checked]
    properties of that target. *)
Record ChangeEvent := {
  ch_target : Element;
  ch_type : string;
  ch_checked : bool
}.

(** The [value] of a change record: a boolean or a number. *)
Inductive ChangeValue :=
| Checked (checked : bool)
| ValueLength (length_of_value : nat).

(** The data object [handleChange] hands to [logInteraction]. *)
Record ChangeInteraction := {
  c_type : string;
  c_element : ElementData;
  c_value : ChangeValue;
  c_url : string
}.

(** [handleChange(event)]. *)
Definition handleChange (context_ok sent : bool) (href : string)
    (st : ContentState) (event : ChangeEvent)
    : ContentState * option ChangeInteraction :=
  if isRecordingInteractions st then
    logInteraction context_ok sent st
      {| c_type := "change";
         c_element := getElementData (ch_target event);
         c_value :=
           if String.eqb (ch_type event) "checkbox" || String.eqb (ch_type event) "radio"
           then Checked (ch_checked event)
           else ValueLength
                  match el_value (ch_target event) with
                  | Some v => if nonempty v then String.length v else 0%nat
                  | None => 0%nat
                  end;
         c_url := href |}
  else (st, None).


(** *** The three handlers over a sequence of events *)

(** An input, change or scroll event as its handler meets it, with the
    answers of the extension context; or the run of the callback of a
    message sent earlier. *)
Inductive PageEvent :=
| InputOccurred (context_ok sent : bool) (href : string) (event : InputEvent)
| ChangeOccurred (context_ok sent : bool) (href : string) (event : ChangeEvent)
| ScrollOccurred (occurrence : ScrollOccurrence)
| MessageAnswered (lastError : bool).

(** The content of a [logInteraction] message. *)
Inductive InteractionMessageData :=
| InputData (data : InputInteraction)
| ChangeData (data : ChangeInteraction)
| ScrollData (data : ScrollInteraction).

(** Whether the extension context is found valid when the event is
    handled: [checkContext()] answers so, or, in the callback of a
    message, [chrome.runtime.lastError] is not set. *)
Definition context_valid_at (ev : PageEvent) : bool :=
  match ev with
  | InputOccurred context_ok _ _ _ => context_ok
  | ChangeOccurred context_ok _ _ _ => context_ok
  | ScrollOccurred o => so_context_ok o
  | MessageAnswered lastError => negb lastError
  end.

(** Whether the event is a scroll event that [handleScroll] drops for
    coming less than [SCROLL_THROTTLE] after the last one it let through. *)
Definition is_throttled (st : ScrollState) (ev : PageEvent) : bool :=
  match ev with
  | ScrollOccurred o => so_now o - lastScrollTime st <? SCROLL_THROTTLE
  | _ => false
  end.

Definition page_step (st : ScrollState) (ev : PageEvent)
    : ScrollState * option InteractionMessageData :=
  match ev with
  | InputOccurred context_ok sent href event =>
      let result := handleInput context_ok sent href (sc_content st) event in
      ({| sc_content := fst result; lastScrollTime := lastScrollTime st |},
       InputData <$> snd result)
  | ChangeOccurred context_ok sent href event =>
      let result := handleChange context_ok sent href (sc_content st) event in
      ({| sc_content := fst result; lastScrollTime := lastScrollTime st |},
       ChangeData <$> snd result)
  | ScrollOccurred o =>
      let result := handleScroll (so_context_ok o) (so_sent o) (so_now o)
                      (so_window o) st (so_target o) in
      (fst result, ScrollData <$> snd result)
  | MessageAnswered lastError =>
      ({| sc_content := logInteraction_callback lastError (sc_content st);
          lastScrollTime := lastScrollTime st |},
       None)
  end.

(** The messages sent over a sequence of events, in order, and the final
    state. *)
Fixpoint page_run (st : ScrollState) (events : list PageEvent)
    : ScrollState * list InteractionMessageData :=
  match events with
  | [] => (st, [])
  | ev :: rest =>
      let step := page_step st ev in
      let later := page_run (fst step) rest in
      (fst later, option_list (snd step) ++ snd later)
  end.

(** *** Sample events *)

Definition sample_window : Window :=
  {| innerWidth := QArith_base.inject_Z 1280;
     innerHeight := QArith_base.inject_Z 720;
     scrollX := QArith_base.inject_Z 0;
     scrollY := QArith_base.inject_Z 40;
     devicePixelRatio := QArith_base.inject_Z 2;
     location_href := "https://example.org/" |}.

Definition scroll_at (now : Z) : ScrollOccurrence :=
  {| so_target := None; so_now := now; so_window := sample_window;
     so_context_ok := true; so_sent := true |}.

Definition scrolling : ScrollState :=
  {| sc_content := recording; lastScrollTime := 0 |}.


(** ** The stored interaction log under several messages *)

(** A [logInteraction] message with the reading of [Date.now()] its
    handler makes. *)
Record InteractionMessage := {
  m_data : list (string * jsval);
  m_now : Z
}.

Definition stored_entry (m : InteractionMessage) : InteractionLogEntry :=
  {| i_timestamp := m_now m; i_data := m_data m |}.

(** The handler of a message awaits twice: the [get] and the [set] of
    [chrome.storage.local]. Between the two it runs without a break, from
    the result of the [get] to the call of [set]. [GetResolved k] is the
    storage serving the [get] of the handler of message [k];
    [SetApplied k] is the storage applying that handler's [set]. *)
Inductive StorageStep :=
| GetResolved (k : nat)
| SetApplied (k : nat).

(** The stored log, and the array [logs] each handler holds between its
    two awaits. *)
Record StorageState := {
  stored_interactionLogs : option (list InteractionLogEntry);
  held_logs : gmap nat (list InteractionLogEntry)
}.

Definition storage_step (messages : list InteractionMessage)
    (st : StorageState) (step : StorageStep) : StorageState :=
  match step with
  | GetResolved k =>
      match messages !! k with
      | Some m =>
          {| stored_interactionLogs := stored_interactionLogs st;
             held_logs :=
               <[k := storeInteraction (m_now m) (m_data m) (stored_interactionLogs st)]>
                 (held_logs st) |}
      | None => st
      end
  | SetApplied k =>
      match held_logs st !! k with
      | Some logs =>
          {| stored_interactionLogs := Some logs;
             held_logs := delete k (held_logs st) |}
      | None => st
      end
  end.

Definition storage_run (messages : list InteractionMessage)
    (steps : list StorageStep) (st : StorageState) : StorageState :=
  foldl (storage_step messages) st steps.

(** No handler is under way. *)
Definition at_rest (stored : option (list InteractionLogEntry)) : StorageState :=
  {| stored_interactionLogs := stored; held_logs := ∅ |}.

(** The first [n] handlers, each finishing before the next one starts. *)
Definition one_after_another (n : nat) : list StorageStep :=
  flat_map (fun k => [GetResolved k; SetApplied k]) (seq 0 n).

(** ** The offscreen document ([createOffscreenDocument]) *)

(** What [createOffscreenDocument] asks of the browser, and its waits. *)
Inductive OffscreenAction :=
| GetContexts
| CreateDocument
| SetTimeout (ms : Z)
| SendStartRecording.

(** How the browser answers during one call: the number of offscreen
    contexts found ([None] when [getContexts] rejects), whether
    [createDocument] resolves, and whether the [sendMessage] of a given
    attempt resolves. *)
Record OffscreenEnv := {
  existingContexts : option nat;
  createDocument_ok : bool;
  sendMessage_ok : nat -> bool
}.

Definition maxRetries : nat := 3.

(** The loop [for (let attempt = 1; attempt <= maxRetries; attempt++)]
    from [attempt] on; [remaining] is [maxRetries - attempt + 1]. The
    result is the actions taken and whether the function returned from
    inside the loop. *)
Fixpoint send_attempts (send_ok : nat -> bool) (attempt remaining : nat)
    : list OffscreenAction * bool :=
  match remaining with
  | O => ([], false)
  | S remaining' =>
      if send_ok attempt then ([SendStartRecording], true)
      else
        let later := send_attempts send_ok (S attempt) remaining' in
        (SendStartRecording
           :: (if (attempt <? maxRetries)%nat
               then [SetTimeout (500 * Z.of_nat attempt)] else [])
           ++ fst later,
         snd later)
  end.

(** [createOffscreenDocument(streamId, tabId)]: the actions taken, in
    order, and whether the promise resolved. *)
Definition createOffscreenDocument (env : OffscreenEnv) : list OffscreenAction * bool :=
  match existingContexts env with
  | None => ([GetContexts], false)
  | Some n =>
      if (0 <? n)%nat then
        let sends := send_attempts (sendMessage_ok env) 1 maxRetries in
        (GetContexts :: SetTimeout 1000 :: fst sends, snd sends)
      else if createDocument_ok env then
        let sends := send_attempts (sendMessage_ok env) 1 maxRetries in
        (GetContexts :: CreateDocument :: SetTimeout 1000 :: fst sends, snd sends)
      else ([GetContexts; CreateDocument], false)
  end.

(** The time spent in [setTimeout] waits. *)
Definition waited (actions : list OffscreenAction) : Z :=
  foldr (fun a total => match a with SetTimeout ms => ms + total | _ => total end)
        0 actions.

Definition is_send (a : OffscreenAction) : bool :=
  match a with
  | SendStartRecording => true
  | _ => false
  end.

(** Recordings were started on tab 1 and then on tab 2. *)
Definition two_tabs_session : Session :=
  run [StartRecording true 1; StartRecording true 2] initial_session.

(** The elements met by the inner loop of [getXPath]: [sibling] and the
    siblings before it, nearest first. *)
Fixpoint siblings_from (sibling : Element) {struct sibling} : list Element :=
  sibling :: match previousElementSibling sibling with
             | Some s => siblings_from s
             | None => []
             end.

(** The element siblings before [current], nearest first. *)
Definition previous_siblings (current : Element) : list Element :=
  match previousElementSibling current with
  | Some s => siblings_from s
  | None => []
  end.

(* ===================================================================== *)
(** * Properties                                                          *)
(* ===================================================================== *)

(** ** [findIndex] *)

Lemma findIndex_Some {A : Type} (p : A -> bool) (l : list A) (i : nat) :
  findIndex p l = Some i ->
  exists x, l !! i = Some x /\ p x = true /\
            Forall (fun y => p y = false) (take i l).
Proof.
  revert i. induction l as [|a l IH]; intros i H; simpl in H.
  - discriminate.
  - destruct (p a) eqn:Hpa.
    + injection H as <-. exists a. simpl. repeat split; auto.
    + destruct (findIndex p l) as [j|] eqn:Hj; simpl in H; [|discriminate].
      injection H as <-. destruct (IH j eq_refl) as (x & Hx & Hpx & Hall).
      exists x. simpl. repeat split; auto.
Qed.

Lemma findIndex_None {A : Type} (p : A -> bool) (l : list A) :
  findIndex p l = None -> Forall (fun y => p y = false) l.
Proof.
  induction l as [|a l IH]; simpl; intros H.
  - constructor.
  - destruct (p a) eqn:Hpa; [discriminate|].
    destruct (findIndex p l); simpl in H; [discriminate|].
    constructor; auto.
Qed.

Lemma alter_at_lookup {A : Type} (f : A -> A) (l : list A) (i : nat) (x : A) :
  l !! i = Some x -> alter f i l = <[i := f x]> l.
Proof.
  revert i. induction l as [|a l IH]; intros [|i] H; simpl in *;
    try discriminate.
  - injection H as ->. reflexivity.
  - f_equal. apply IH, H.
Qed.

Lemma is_request_for_id (rid : string) (e : NetworkLogEntry) :
  is_request_for rid e = true -> requestId e = rid.
Proof.
  unfold is_request_for. intros H.
  apply andb_true_iff in H as [H _]. apply String.eqb_eq, H.
Qed.

(** How each later-phase handler acts: on the first matching entry, or not
    at all. *)
Lemma handler_first_match (rid : string) (f : NetworkLogEntry -> NetworkLogEntry)
    (logs : list NetworkLogEntry) :
  let result :=
    match findIndex (is_request_for rid) logs with
    | Some i => alter f i logs
    | None => logs
    end in
  (exists i e,
      logs !! i = Some e /\ is_request_for rid e = true /\
      Forall (fun e' => is_request_for rid e' = false) (take i logs) /\
      result = <[i := f e]> logs)
  \/ (Forall (fun e' => is_request_for rid e' = false) logs /\ result = logs).
Proof.
  simpl. destruct (findIndex (is_request_for rid) logs) as [i|] eqn:Hi.
  - left. destruct (findIndex_Some _ _ _ Hi) as (e & He & Hp & Hall).
    exists i, e. repeat split; auto. apply alter_at_lookup, He.
  - right. split; auto. apply findIndex_None, Hi.
Qed.

Lemma elem_of_insert_inv {A : Type} (l : list A) (i : nat) (x y : A) :
  y ∈ <[i := x]> l -> y = x \/ y ∈ l.
Proof.
  intros H. apply list_elem_of_lookup in H as [j Hj].
  apply list_lookup_insert_Some in Hj as [(-> & -> & _)|(_ & Hj)].
  - left; reflexivity.
  - right. apply list_elem_of_lookup. eauto.
Qed.

(** ** Request correlator *)

(** C1 (as amended). A response-received event with request id [id] puts the
    [response] sub-record on the first (oldest) entry whose [requestId] is
    [id], whether or not that entry already carries a response, and leaves
    every other entry as it was; when no entry has that id the log is
    unchanged. So only an entry whose id a response event named gets a
    [response] field. *)
Theorem handleNetworkResponse_first_match
    (now : Z) (params : ResponseReceivedParams) (tab : Z)
    (logs : list NetworkLogEntry) :
  let rid := rr_requestId params in
  let r := {| status := rp_status (rr_response params);
              statusText := rp_statusText (rr_response params);
              r_headers := rp_headers (rr_response params);
              mimeType := rp_mimeType (rr_response params);
              r_timestamp := now;
              body := None; bodySize := None |} in
  (exists i e,
      logs !! i = Some e /\ requestId e = rid /\
      Forall (fun e' => is_request_for rid e' = false) (take i logs) /\
      handleNetworkResponse now params tab logs = <[i := set_response r e]> logs)
  \/ (Forall (fun e' => is_request_for rid e' = false) logs /\
      handleNetworkResponse now params tab logs = logs).
Proof.
  intros rid r. unfold handleNetworkResponse. fold rid. fold r.
  destruct (handler_first_match rid (set_response r) logs)
    as [(i & e & He & Hm & Hall & Hres)|[Hall Hres]].
  - left. exists i, e. repeat split; auto using is_request_for_id.
  - right. split; auto.
Qed.

(** C4, the claim as written fails: an entry has no sequence number, nor
    any other field that is not taken from the event, the tab or the
    clock. The same request id sent twice within one millisecond gives
    two entries that are equal in every field; nothing but their places in
    the log tells them apart. *)
Lemma repeated_request_entries_are_equal :
  handleNetworkRequest 10 req_x 1 (handleNetworkRequest 10 req_x 1 [])
  = [ {| type := "request"; timestamp := 10; requestId := "x";
         url := "https://example.org/a"; method := "GET"; headers := JObj [];
         postData := JUndefined; tabId := 1;
         response := None; loadingFinished := None; loadingFailed := None |};
      {| type := "request"; timestamp := 10; requestId := "x";
         url := "https://example.org/a"; method := "GET"; headers := JObj [];
         postData := JUndefined; tabId := 1;
         response := None; loadingFinished := None; loadingFailed := None |} ] /\
  handleNetworkRequest 10 req_x 1 (handleNetworkRequest 10 req_x 1 []) !! 0%nat
  = handleNetworkRequest 10 req_x 1 (handleNetworkRequest 10 req_x 1 []) !! 1%nat.
Proof. split; reflexivity. Qed.

(** C4 (as amended). A request-sent event appends one new entry at the end
    of the log, at the index one past the last, and every entry already in
    the log stays at its index unchanged, whether or not the request id is
    already in the log. The new entry is made of the event, the tab and
    the clock reading alone: it is the same whatever the log holds, and
    it carries no later phase. *)
Theorem handleNetworkRequest_appends
    (now : Z) (params : RequestWillBeSentParams) (tab : Z) :
  let entry :=
    {| type := "request"; timestamp := now; requestId := rs_requestId params;
       url := rq_url (rs_request params); method := rq_method (rs_request params);
       headers := rq_headers (rs_request params);
       postData := rq_postData (rs_request params); tabId := tab;
       response := None; loadingFinished := None; loadingFailed := None |} in
  forall logs : list NetworkLogEntry,
    handleNetworkRequest now params tab logs = logs ++ [entry] /\
    (forall i e, logs !! i = Some e ->
                 handleNetworkRequest now params tab logs !! i = Some e) /\
    logs !! length logs = None /\
    handleNetworkRequest now params tab logs !! length logs = Some entry /\
    length (handleNetworkRequest now params tab logs) = S (length logs).
Proof.
  intros entry logs. unfold handleNetworkRequest. fold entry.
  split; [reflexivity|]. repeat split.
  - intros i e He. rewrite lookup_app_l; [exact He|].
    eapply lookup_lt_Some, He.
  - apply lookup_ge_None. lia.
  - rewrite lookup_app_r by lia. replace (length logs - length logs)%nat with 0%nat by lia.
    reflexivity.
  - rewrite length_app. simpl. lia.
Qed.

(** C1, the claim as written fails: with two entries for ["x"], the first
    already answered, a further response event for ["x"] lands on the first
    entry again (replacing status 200 by 304) and the second entry, the one
    still without a response, stays without one. The specification's policy
    would have answered the second entry. *)
Lemma response_goes_to_first_entry_not_to_pending_one :
  (response <$> handleNetworkResponse 30 (resp_x 304) 1 two_requests_one_answered !! 1%nat)
    = Some None /\
  (status <$> (handleNetworkResponse 30 (resp_x 304) 1 two_requests_one_answered !! 0%nat
               ≫= response)) = Some 304 /\
  (status <$> (spec_onResponseReceived 30 (resp_x 304) two_requests_one_answered !! 1%nat
               ≫= response)) = Some 304 /\
  handleNetworkResponse 30 (resp_x 304) 1 two_requests_one_answered
    <> spec_onResponseReceived 30 (resp_x 304) two_requests_one_answered.
Proof.
  repeat split; try reflexivity. intros H. discriminate H.
Qed.

(** Scenario A as the script runs it: the id ["x"] is sent twice and one
    response arrives. Both entries stay in the log, at indices 0 and 1, and
    the response is on the first. *)
Example scenario_A_two_entries_one_response :
  map requestId two_requests_one_answered = ["x"; "x"] /\
  map timestamp two_requests_one_answered = [10; 20] /\
  map (fun e => status <$> response e) two_requests_one_answered = [Some 200; None].
Proof. repeat split. Qed.

(** A second loading-finished event for the same id replaces the first
    sub-record; the log keeps its single entry. *)
Example loadingFinished_twice_overwrites :
  map (fun e => f_timestamp <$> loadingFinished e)
      (handleNetworkLoadingFinished 40 finished_x 1
         (handleNetworkLoadingFinished 30 finished_x 1
            (handleNetworkRequest 10 req_x 1 [])))
  = [Some 40].
Proof. reflexivity. Qed.

(** ** Entries survive the later phases *)

Lemma entry_extends_refl (e : NetworkLogEntry) : entry_extends e e.
Proof. unfold entry_extends, same_request. tauto. Qed.

Lemma entries_preserved_refl (l : list NetworkLogEntry) : entries_preserved l l.
Proof. intros i e He. exists e. split; [exact He | apply entry_extends_refl]. Qed.

Lemma entries_preserved_trans (l1 l2 l3 : list NetworkLogEntry) :
  entries_preserved l1 l2 -> entries_preserved l2 l3 -> entries_preserved l1 l3.
Proof.
  intros H12 H23 i e He.
  destruct (H12 i e He) as (e2 & He2 & (Hs & Hr & Hf & Hx)).
  destruct (H23 i e2 He2) as (e3 & He3 & (Hs' & Hr' & Hf' & Hx')).
  exists e3. split; [exact He3|].
  unfold entry_extends, same_request in *.
  repeat split; try tauto; intuition congruence.
Qed.

Lemma entries_preserved_alter (f : NetworkLogEntry -> NetworkLogEntry)
    (i : nat) (l : list NetworkLogEntry) :
  (forall e, entry_extends e (f e)) -> entries_preserved l (alter f i l).
Proof.
  intros Hf j e He. destruct (decide (i = j)) as [->|Hne].
  - exists (f e). split; [|apply Hf].
    rewrite list_lookup_alter_eq, He. reflexivity.
  - exists e. split; [|apply entry_extends_refl].
    rewrite list_lookup_alter_ne by exact Hne. exact He.
Qed.

Lemma entries_preserved_app (l extra : list NetworkLogEntry) :
  entries_preserved l (l ++ extra).
Proof.
  intros i e He. exists e. split; [|apply entry_extends_refl].
  rewrite lookup_app_l; [exact He | eapply lookup_lt_Some, He].
Qed.

Lemma set_response_extends r e : entry_extends e (set_response r e).
Proof. unfold entry_extends, same_request; simpl. repeat split; eauto. Qed.

Lemma set_loadingFinished_extends f e : entry_extends e (set_loadingFinished f e).
Proof. unfold entry_extends, same_request; simpl. repeat split; eauto. Qed.

Lemma set_loadingFailed_extends x e : entry_extends e (set_loadingFailed x e).
Proof. unfold entry_extends, same_request; simpl. repeat split; eauto. Qed.

Lemma onDebuggerEvent_preserves now tab ev s :
  entries_preserved (networkLogs s) (networkLogs (onDebuggerEvent now tab ev s)).
Proof.
  unfold onDebuggerEvent. case_bool_decide; [|apply entries_preserved_refl].
  destruct ev as [p|p|p|p|]; simpl.
  - apply entries_preserved_app.
  - unfold handleNetworkResponse.
    destruct (findIndex _ _); [|apply entries_preserved_refl].
    apply entries_preserved_alter, set_response_extends.
  - unfold handleNetworkLoadingFinished.
    destruct (findIndex _ _); [|apply entries_preserved_refl].
    apply entries_preserved_alter, set_loadingFinished_extends.
  - unfold handleNetworkLoadingFailed.
    destruct (findIndex _ _); [|apply entries_preserved_refl].
    apply entries_preserved_alter, set_loadingFailed_extends.
  - apply entries_preserved_refl.
Qed.

Lemma set_body_extends b sz r e :
  response e = Some r -> entry_extends e (set_response (set_body b sz r) e).
Proof.
  intros Hr. unfold entry_extends, same_request; simpl.
  repeat split; eauto.
Qed.

Lemma storeResponseBody_preserves i p b sz (l : list NetworkLogEntry) :
  entries_preserved l (storeResponseBody i p b sz l).
Proof.
  unfold storeResponseBody.
  destruct (fetchesBody p); [|apply entries_preserved_refl].
  destruct (l !! i) as [e|] eqn:He; [|apply entries_preserved_refl].
  destruct (response e) as [r|] eqn:Hr; [|apply entries_preserved_refl].
  intros j e' He'. destruct (decide (i = j)) as [->|Hne].
  - rewrite He in He'. injection He' as <-.
    eexists. split; [apply list_lookup_insert_eq; eapply lookup_lt_Some, He|].
    apply set_body_extends, Hr.
  - exists e'. split; [|apply entry_extends_refl].
    rewrite list_lookup_insert_ne by exact Hne. exact He'.
Qed.

Lemma step_keeps_entries op s :
  keeps_log op = true ->
  entries_preserved (networkLogs s) (networkLogs (step op s)).
Proof.
  destruct op as [now tab ev|i p content sz|attached tab|detached tab|tab| | |];
    simpl; intros Hop.
  - apply onDebuggerEvent_preserves.
  - apply storeResponseBody_preserves.
  - destruct attached; [discriminate|]. apply entries_preserved_refl.
  - unfold stopRecording. case_bool_decide; [destruct detached|]; apply entries_preserved_refl.
  - unfold onDetach. case_bool_decide; apply entries_preserved_refl.
  - discriminate.
  - apply entries_preserved_refl.
  - apply entries_preserved_refl.
Qed.

Lemma run_keeps_entries ops : forall s,
  forallb keeps_log ops = true ->
  entries_preserved (networkLogs s) (networkLogs (run ops s)).
Proof.
  induction ops as [|op ops IH]; intros s Hops; simpl.
  - apply entries_preserved_refl.
  - simpl in Hops. apply andb_true_iff in Hops as [Hop Hops].
    eapply entries_preserved_trans; [apply step_keeps_entries, Hop|].
    apply IH, Hops.
Qed.

Lemma run_app ops1 ops2 s : run (ops1 ++ ops2) s = run ops2 (run ops1 s).
Proof. unfold run. apply foldl_app. Qed.

(** C3, the claim as written fails: starting a recording on a session that
    holds two entries empties the log. *)
Lemma startRecording_drops_entries :
  networkLogs recording_session <> [] /\
  networkLogs (step (StartRecording true 1) recording_session) = [] /\
  ~ entries_preserved (networkLogs recording_session)
      (networkLogs (step (StartRecording true 1) recording_session)).
Proof.
  split; [discriminate|]. split; [reflexivity|].
  intros H.
  destruct (H 0%nat) with (e := {| type := "request"; timestamp := 10; requestId := "x";
       url := "https://example.org/a"; method := "GET"; headers := JObj [];
       postData := JUndefined; tabId := 1;
       response := Some {| status := 200; statusText := "OK"; r_headers := JObj [];
                           mimeType := Some "image/png"; r_timestamp := 15;
                           body := None; bodySize := None |};
       loadingFinished := None; loadingFailed := None |})
    as (e' & He' & _).
  - reflexivity.
  - discriminate He'.
Qed.

(** A later-phase handler at one index: the entry there is as before, or
    it has the event's request id and is the rewritten one. *)
Lemma handler_at (rid : string) (f : NetworkLogEntry -> NetworkLogEntry)
    (logs : list NetworkLogEntry) (i : nat) (e : NetworkLogEntry) :
  logs !! i = Some e ->
  match findIndex (is_request_for rid) logs with
  | Some j => alter f j logs
  | None => logs
  end !! i = Some e
  \/ (requestId e = rid /\
      match findIndex (is_request_for rid) logs with
      | Some j => alter f j logs
      | None => logs
      end !! i = Some (f e)).
Proof.
  intros He.
  destruct (findIndex (is_request_for rid) logs) as [j|] eqn:Hj; [|left; exact He].
  destruct (findIndex_Some _ _ _ Hj) as (e0 & He0 & Hm & _).
  destruct (decide (j = i)) as [->|Hne].
  - right. rewrite He in He0. injection He0 as <-.
    split; [apply is_request_for_id, Hm|].
    rewrite list_lookup_alter_eq, He. reflexivity.
  - left. rewrite list_lookup_alter_ne by exact Hne. exact He.
Qed.

Lemma entry_as_before (op : Op) (i : nat) (e : NetworkLogEntry)
    (logs' : list NetworkLogEntry) :
  logs' !! i = Some e ->
  exists e',
    logs' !! i = Some e' /\
    same_request e e' /\
    kept_or_written (response e) (response e') (response_written op i e) /\
    kept_or_written (loadingFinished e) (loadingFinished e')
      (loadingFinished_written op e) /\
    kept_or_written (loadingFailed e) (loadingFailed e')
      (loadingFailed_written op e) /\
    (is_Some (response e) -> is_Some (response e')) /\
    (is_Some (loadingFinished e) -> is_Some (loadingFinished e')) /\
    (is_Some (loadingFailed e) -> is_Some (loadingFailed e')).
Proof.
  intros H. exists e. split; [exact H|].
  unfold same_request, kept_or_written. repeat split; auto.
Qed.

(** C3 (as amended). Every operation other than clear-all and a successful
    start of a recording keeps every entry of the log at its index, as the
    same request: the fields set at its creation are unchanged, and each
    sub-record is the one from before or the one this operation wrote,
    which only a later-phase event for the entry's request id, or the
    arrival of a response body at the entry's index, does. No sub-record
    that was set becomes unset. *)
Theorem entries_kept_unless_cleared_or_restarted (op : Op) (s : Session) :
  op <> ClearLogs ->
  (forall tab, op <> StartRecording true tab) ->
  forall (i : nat) (e : NetworkLogEntry),
    networkLogs s !! i = Some e ->
    exists e',
      networkLogs (step op s) !! i = Some e' /\
      same_request e e' /\
      kept_or_written (response e) (response e') (response_written op i e) /\
      kept_or_written (loadingFinished e) (loadingFinished e')
        (loadingFinished_written op e) /\
      kept_or_written (loadingFailed e) (loadingFailed e')
        (loadingFailed_written op e) /\
      (is_Some (response e) -> is_Some (response e')) /\
      (is_Some (loadingFinished e) -> is_Some (loadingFinished e')) /\
      (is_Some (loadingFailed e) -> is_Some (loadingFailed e')).
Proof.
  intros Hclear Hstart i e He.
  destruct op as [now tab ev|j p content sz|attached tab|detached tab|tab| | |].
  - cbn [step]. unfold onDebuggerEvent.
    case_bool_decide as Htab; [|apply entry_as_before, He].
    destruct ev as [p|p|p|p|]; cbn [with_logs networkLogs].
    + apply entry_as_before. unfold handleNetworkRequest.
      rewrite lookup_app_l; [exact He|]. eapply lookup_lt_Some, He.
    + unfold handleNetworkResponse.
      destruct (handler_at (rr_requestId p)
                  (set_response
                     {| status := rp_status (rr_response p);
                        statusText := rp_statusText (rr_response p);
                        r_headers := rp_headers (rr_response p);
                        mimeType := rp_mimeType (rr_response p);
                        r_timestamp := now; body := None; bodySize := None |})
                  (networkLogs s) i e He) as [H|[Hid H]];
        [apply entry_as_before, H|].
      eexists. split; [exact H|].
      unfold same_request, kept_or_written, response_written.
      rewrite Hid, String.eqb_refl. cbn.
      repeat split; eauto.
    + unfold handleNetworkLoadingFinished.
      destruct (handler_at (lf_requestId p)
                  (set_loadingFinished
                     {| f_timestamp := now;
                        encodedDataLength := lf_encodedDataLength p |})
                  (networkLogs s) i e He) as [H|[Hid H]];
        [apply entry_as_before, H|].
      eexists. split; [exact H|].
      unfold same_request, kept_or_written, loadingFinished_written.
      rewrite Hid, String.eqb_refl. cbn.
      repeat split; eauto.
    + unfold handleNetworkLoadingFailed.
      destruct (handler_at (lx_requestId p)
                  (set_loadingFailed
                     {| x_timestamp := now; errorText := lx_errorText p;
                        canceled := lx_canceled p |})
                  (networkLogs s) i e He) as [H|[Hid H]];
        [apply entry_as_before, H|].
      eexists. split; [exact H|].
      unfold same_request, kept_or_written, loadingFailed_written.
      rewrite Hid, String.eqb_refl. cbn.
      repeat split; eauto.
    + apply entry_as_before, He.
  - cbn [step with_logs networkLogs]. unfold storeResponseBody.
    destruct (fetchesBody p); [|apply entry_as_before, He].
    destruct (networkLogs s !! j) as [e0|] eqn:He0; [|apply entry_as_before, He].
    destruct (response e0) as [r|] eqn:Hr; [|apply entry_as_before, He].
    destruct (decide (j = i)) as [->|Hne].
    + rewrite He in He0. injection He0 as <-.
      eexists. split; [apply list_lookup_insert_eq; eapply lookup_lt_Some, He|].
      unfold same_request, kept_or_written, response_written.
      rewrite bool_decide_eq_true_2 by reflexivity. rewrite Hr. cbn.
      repeat split; eauto.
    + apply entry_as_before.
      rewrite list_lookup_insert_ne by exact Hne. exact He.
  - destruct attached; [exfalso; eapply Hstart; reflexivity|].
    apply entry_as_before, He.
  - apply entry_as_before. cbn [step]. unfold stopRecording.
    case_bool_decide; [destruct detached|]; exact He.
  - apply entry_as_before. cbn [step]. unfold onDetach. case_bool_decide; exact He.
  - congruence.
  - apply entry_as_before, He.
  - apply entry_as_before, He.
Qed.

Lemma entries_kept_witness :
  exists e',
    networkLogs (step (DebuggerEvent_op 30 1 (Network_loadingFinished finished_x))
                      recording_session) !! 0%nat = Some e' /\
    requestId e' = "x" /\
    (status <$> response e') = Some 200 /\
    loadingFinished e' = Some {| f_timestamp := 30; encodedDataLength := 512 |} /\
    loadingFailed e' = None.
Proof.
  destruct (entries_kept_unless_cleared_or_restarted
              (DebuggerEvent_op 30 1 (Network_loadingFinished finished_x))
              recording_session) with (i := 0%nat)
      (e := {| type := "request"; timestamp := 10; requestId := "x";
               url := "https://example.org/a"; method := "GET"; headers := JObj [];
               postData := JUndefined; tabId := 1;
               response := Some {| status := 200; statusText := "OK";
                                   r_headers := JObj [];
                                   mimeType := Some "image/png"; r_timestamp := 15;
                                   body := None; bodySize := None |};
               loadingFinished := None; loadingFailed := None |})
    as (e' & He' & _).
  - discriminate.
  - intros tab; discriminate.
  - reflexivity.
  - exists e'. split; [exact He'|].
    vm_compute in He'. injection He' as <-. repeat split.
Defined.

(** ** Terminal sub-records *)

Lemma finished_delivered_snoc rid done op :
  finished_delivered rid done -> finished_delivered rid (done ++ [op]).
Proof.
  intros (now & tab & p & Hin & Hid). exists now, tab, p.
  split; [|exact Hid]. apply elem_of_app. left; exact Hin.
Qed.

Lemma failed_delivered_snoc rid done op :
  failed_delivered rid done -> failed_delivered rid (done ++ [op]).
Proof.
  intros (now & tab & p & Hin & Hid). exists now, tab, p.
  split; [|exact Hid]. apply elem_of_app. left; exact Hin.
Qed.

Lemma terminals_accounted_snoc done op logs :
  terminals_accounted done logs -> terminals_accounted (done ++ [op]) logs.
Proof.
  intros H e He. destruct (H e He) as [Hf Hx].
  split; intros Hs; [apply finished_delivered_snoc | apply failed_delivered_snoc]; auto.
Qed.

Lemma terminals_accounted_nil done : terminals_accounted done [].
Proof. intros e He. apply elem_of_nil in He. destruct He. Qed.

(** A handler that rewrites the first entry matching [rid] with [f]. *)
Lemma terminals_accounted_handler done logs rid f :
  terminals_accounted done logs ->
  (forall e, e ∈ logs -> requestId e = rid ->
     (is_Some (loadingFinished (f e)) -> finished_delivered rid done) /\
     (is_Some (loadingFailed (f e)) -> failed_delivered rid done) /\
     requestId (f e) = rid) ->
  terminals_accounted done
    (match findIndex (is_request_for rid) logs with
     | Some i => alter f i logs
     | None => logs
     end).
Proof.
  intros Hacc Hf.
  destruct (handler_first_match rid f logs)
    as [(i & e & He & Hm & _ & Hres)|[_ Hres]]; simpl in Hres; rewrite Hres;
    [|exact Hacc].
  intros e' He'. apply elem_of_insert_inv in He' as [->|He']; [|apply Hacc, He'].
  assert (Hin : e ∈ logs) by (apply list_elem_of_lookup; eauto).
  destruct (Hf e Hin (is_request_for_id _ _ Hm)) as (H1 & H2 & H3).
  rewrite H3. split; assumption.
Qed.

Lemma step_terminals_accounted done op s :
  terminals_accounted done (networkLogs s) ->
  terminals_accounted (done ++ [op]) (networkLogs (step op s)).
Proof.
  intros Hacc. pose proof (terminals_accounted_snoc done op _ Hacc) as Hacc'.
  destruct op as [now tab ev|i p content sz|attached tab|detached tab|tab| | |]; simpl.
  - unfold onDebuggerEvent. case_bool_decide; [|exact Hacc'].
    destruct ev as [p|p|p|p|]; simpl.
    + unfold handleNetworkRequest. intros e He.
      apply elem_of_app in He as [He|He]; [apply Hacc', He|].
      apply list_elem_of_singleton in He as ->. simpl.
      split; intros [? ?]; discriminate.
    + apply terminals_accounted_handler; [exact Hacc'|].
      intros e He Hid. destruct (Hacc' e He) as [H1 H2]. rewrite Hid in *.
      simpl. auto.
    + apply terminals_accounted_handler; [exact Hacc'|].
      intros e He Hid. destruct (Hacc' e He) as [H1 H2]. rewrite Hid in *.
      simpl. repeat split; auto. intros _.
      exists now, tab, p. split; [|reflexivity].
      apply elem_of_app. right. apply list_elem_of_singleton. reflexivity.
    + apply terminals_accounted_handler; [exact Hacc'|].
      intros e He Hid. destruct (Hacc' e He) as [H1 H2]. rewrite Hid in *.
      simpl. repeat split; auto. intros _.
      exists now, tab, p. split; [|reflexivity].
      apply elem_of_app. right. apply list_elem_of_singleton. reflexivity.
    + exact Hacc'.
  - unfold storeResponseBody.
    destruct (fetchesBody p); [|exact Hacc'].
    destruct (networkLogs s !! i) as [e|] eqn:He; [|exact Hacc'].
    destruct (response e) as [r|] eqn:Hr; [|exact Hacc'].
    intros e' He'. apply elem_of_insert_inv in He' as [->|He']; [|apply Hacc', He'].
    apply (Hacc' e). apply list_elem_of_lookup. eauto.
  - destruct attached; simpl; [apply terminals_accounted_nil | exact Hacc'].
  - unfold stopRecording. case_bool_decide; [destruct detached|]; exact Hacc'.
  - unfold onDetach. case_bool_decide; exact Hacc'.
  - apply terminals_accounted_nil.
  - exact Hacc'.
  - exact Hacc'.
Qed.

Lemma run_terminals_accounted ops : forall done s,
  terminals_accounted done (networkLogs s) ->
  terminals_accounted (done ++ ops) (networkLogs (run ops s)).
Proof.
  induction ops as [|op ops IH]; intros done s Hacc; simpl.
  - rewrite app_nil_r. exact Hacc.
  - replace (done ++ op :: ops) with ((done ++ [op]) ++ ops)
      by (rewrite <- app_assoc; reflexivity).
    apply IH, step_terminals_accounted, Hacc.
Qed.

(** C2, the claim as written fails: a request that is reported finished and
    then reported failed ends up carrying both terminal sub-records. *)
Lemma finished_and_failed_both_set :
  exists e, networkLogs (run finished_then_failed initial_session) = [e] /\
            is_Some (loadingFinished e) /\ is_Some (loadingFailed e).
Proof.
  eexists. split; [reflexivity|]. split; eexists; reflexivity.
Qed.

Lemma findIndex_agree {A : Type} (p : A -> bool) (l l' : list A) (i : nat) :
  (forall j x, l !! j = Some x -> exists y, l' !! j = Some y /\ p y = p x) ->
  findIndex p l = Some i -> findIndex p l' = Some i.
Proof.
  revert l' i. induction l as [|a l IH]; intros l' i H Hi; [discriminate|].
  destruct (H 0%nat a eq_refl) as (y & Hy & Hpy).
  destruct l' as [|b l']; [discriminate|]. injection Hy as ->.
  cbn [findIndex] in *. rewrite Hpy. destruct (p a); [exact Hi|].
  destruct (findIndex p l) as [k|] eqn:Hk; [|discriminate].
  injection Hi as <-.
  rewrite (IH l' k); [reflexivity| |reflexivity].
  intros j x Hx. apply (H (S j) x Hx).
Qed.

(** The first entry for a request id stays the first one as long as the
    entries are kept. *)
Lemma first_match_kept (rid : string) (l l' : list NetworkLogEntry) (i : nat) :
  entries_preserved l l' ->
  findIndex (is_request_for rid) l = Some i ->
  findIndex (is_request_for rid) l' = Some i.
Proof.
  intros Hkept. apply findIndex_agree. intros j x Hx.
  destruct (Hkept j x Hx) as (y & Hy & (Ht & _ & Hid & _) & _).
  exists y. split; [exact Hy|]. unfold is_request_for. rewrite Ht, Hid. reflexivity.
Qed.

(** A later-phase handler at one index: the entry there is rewritten when
    the index is that of the first entry for the request id, and is as
    before otherwise. *)
Lemma handler_at_index (rid : string) (f : NetworkLogEntry -> NetworkLogEntry)
    (logs : list NetworkLogEntry) (i : nat) (e : NetworkLogEntry) :
  logs !! i = Some e ->
  match findIndex (is_request_for rid) logs with
  | Some j => alter f j logs
  | None => logs
  end !! i
  = Some (if decide (findIndex (is_request_for rid) logs = Some i) then f e else e).
Proof.
  intros He.
  destruct (findIndex (is_request_for rid) logs) as [j|] eqn:Hj.
  - destruct (decide (Some j = Some i)) as [[= ->]|Hne].
    + rewrite list_lookup_alter_eq, He. reflexivity.
    + rewrite list_lookup_alter_ne by congruence. exact He.
  - destruct (decide (None = Some i)) as [H|_]; [discriminate H|exact He].
Qed.

(** A later-phase event from an attached tab, for a request id whose first
    entry is at index [i], rewrites the entry at [i]. *)
Lemma terminal_event_lands (s : Session) (rid : string) (i : nat)
    (f : NetworkLogEntry -> NetworkLogEntry) :
  findIndex (is_request_for rid) (networkLogs s) = Some i ->
  exists e,
    networkLogs s !! i = Some e /\ requestId e = rid /\
    match findIndex (is_request_for rid) (networkLogs s) with
    | Some j => alter f j (networkLogs s)
    | None => networkLogs s
    end !! i = Some (f e).
Proof.
  intros Hi. rewrite Hi.
  destruct (findIndex_Some _ _ _ Hi) as (e & He & Hm & _).
  exists e. split; [exact He|]. split; [apply is_request_for_id, Hm|].
  rewrite list_lookup_alter_eq, He. reflexivity.
Qed.

(** C2 (as amended). Each terminal handler sets its own sub-record and
    leaves the other terminal sub-record of every entry as it is. So, from
    a log without terminal sub-records, a sequence of operations that
    never delivers both a loading-finished and a loading-failed event for
    one request id leaves every entry with at most one of
    [loadingFinished] / [loadingFailed]. And delivering both does give an
    entry that carries both: when the two events name the request id of
    an entry of the log and come from attached tabs, in either order, with
    the log neither cleared nor started afresh in between, the first entry
    with that id carries both sub-records afterwards. *)
Theorem at_most_one_terminal_unless_both_delivered :
  (forall now params tab logs i e,
     logs !! i = Some e ->
     exists e',
       handleNetworkLoadingFinished now params tab logs !! i = Some e' /\
       same_request e e' /\ response e' = response e /\
       loadingFailed e' = loadingFailed e /\
       (findIndex (is_request_for (lf_requestId params)) logs = Some i ->
        loadingFinished e'
        = Some {| f_timestamp := now;
                  encodedDataLength := lf_encodedDataLength params |}) /\
       (findIndex (is_request_for (lf_requestId params)) logs <> Some i ->
        loadingFinished e' = loadingFinished e)) /\
  (forall now params tab logs i e,
     logs !! i = Some e ->
     exists e',
       handleNetworkLoadingFailed now params tab logs !! i = Some e' /\
       same_request e e' /\ response e' = response e /\
       loadingFinished e' = loadingFinished e /\
       (findIndex (is_request_for (lx_requestId params)) logs = Some i ->
        loadingFailed e'
        = Some {| x_timestamp := now; errorText := lx_errorText params;
                  canceled := lx_canceled params |}) /\
       (findIndex (is_request_for (lx_requestId params)) logs <> Some i ->
        loadingFailed e' = loadingFailed e)) /\
  (forall (ops : list Op) (s : Session),
     (forall e, e ∈ networkLogs s ->
                loadingFinished e = None /\ loadingFailed e = None) ->
     (forall rid, ~ (finished_delivered rid ops /\ failed_delivered rid ops)) ->
     forall e, e ∈ networkLogs (run ops s) ->
               loadingFinished e = None \/ loadingFailed e = None) /\
  (forall (s : Session) (i : nat) (now1 tab1 now2 tab2 : Z)
          (finished : LoadingFinishedParams) (failed : LoadingFailedParams)
          (between : list Op),
     lf_requestId finished = lx_requestId failed ->
     findIndex (is_request_for (lf_requestId finished)) (networkLogs s) = Some i ->
     forallb keeps_log between = true ->
     tab1 ∈ attachedTabs s ->
     tab2 ∈ attachedTabs
              (run (DebuggerEvent_op now1 tab1 (Network_loadingFinished finished)
                      :: between) s) ->
     exists e,
       networkLogs
         (run (DebuggerEvent_op now1 tab1 (Network_loadingFinished finished)
                 :: between
                 ++ [DebuggerEvent_op now2 tab2 (Network_loadingFailed failed)]) s)
         !! i = Some e /\
       requestId e = lf_requestId finished /\
       is_Some (loadingFinished e) /\
       loadingFailed e = Some {| x_timestamp := now2;
                                 errorText := lx_errorText failed;
                                 canceled := lx_canceled failed |}) /\
  (forall (s : Session) (i : nat) (now1 tab1 now2 tab2 : Z)
          (finished : LoadingFinishedParams) (failed : LoadingFailedParams)
          (between : list Op),
     lf_requestId finished = lx_requestId failed ->
     findIndex (is_request_for (lx_requestId failed)) (networkLogs s) = Some i ->
     forallb keeps_log between = true ->
     tab1 ∈ attachedTabs s ->
     tab2 ∈ attachedTabs
              (run (DebuggerEvent_op now1 tab1 (Network_loadingFailed failed)
                      :: between) s) ->
     exists e,
       networkLogs
         (run (DebuggerEvent_op now1 tab1 (Network_loadingFailed failed)
                 :: between
                 ++ [DebuggerEvent_op now2 tab2 (Network_loadingFinished finished)]) s)
         !! i = Some e /\
       requestId e = lx_requestId failed /\
       is_Some (loadingFailed e) /\
       loadingFinished e = Some {| f_timestamp := now2;
                                   encodedDataLength := lf_encodedDataLength finished |}).
Proof.
  split; [|split; [|split; [|split]]].
  - intros now params tab logs i e He. unfold handleNetworkLoadingFinished.
    rewrite (handler_at_index _ _ _ _ _ He).
    destruct (decide (findIndex (is_request_for (lf_requestId params)) logs = Some i))
      as [Hi|Hi]; eexists; (split; [reflexivity|]);
      unfold same_request; cbn; repeat split; auto; intros H; contradiction.
  - intros now params tab logs i e He. unfold handleNetworkLoadingFailed.
    rewrite (handler_at_index _ _ _ _ _ He).
    destruct (decide (findIndex (is_request_for (lx_requestId params)) logs = Some i))
      as [Hi|Hi]; eexists; (split; [reflexivity|]);
      unfold same_request; cbn; repeat split; auto; intros H; contradiction.
  - intros ops s Hinit Hexcl e He.
    assert (Hacc : terminals_accounted [] (networkLogs s)).
    { intros e0 He0. destruct (Hinit e0 He0) as [-> ->].
      split; intros [? ?]; discriminate. }
    apply (run_terminals_accounted ops) in Hacc. simpl in Hacc.
    destruct (Hacc e He) as [Hf Hx].
    destruct (loadingFinished e) as [f|] eqn:Ef; [|left; reflexivity].
    destruct (loadingFailed e) as [x|] eqn:Ex; [|right; reflexivity].
    exfalso. apply (Hexcl (requestId e)). split; [apply Hf | apply Hx]; eauto.
  - intros s i now1 tab1 now2 tab2 finished failed between Hid Hi Hbetween Htab1 Htab2.
    change (run (?a :: ?l) s) with (run l (step a s)) in *.
    rewrite run_app.
    set (s1 := step (DebuggerEvent_op now1 tab1 (Network_loadingFinished finished)) s) in *.
    set (s2 := run between s1) in *.
    assert (H1 : exists e1, networkLogs s1 !! i = Some e1 /\
                            is_Some (loadingFinished e1)).
    { subst s1. cbn [step]. unfold onDebuggerEvent.
      rewrite bool_decide_eq_true_2 by exact Htab1. cbn [with_logs networkLogs].
      unfold handleNetworkLoadingFinished.
      destruct (terminal_event_lands s _ i
                  (set_loadingFinished
                     {| f_timestamp := now1;
                        encodedDataLength := lf_encodedDataLength finished |}) Hi)
        as (e & _ & _ & H).
      eexists. split; [exact H|]. cbn. eauto. }
    destruct H1 as (e1 & He1 & Hfin1).
    assert (Hkept1 : entries_preserved (networkLogs s) (networkLogs s1))
      by (apply step_keeps_entries; reflexivity).
    assert (Hkept2 : entries_preserved (networkLogs s1) (networkLogs s2))
      by (apply run_keeps_entries, Hbetween).
    destruct (Hkept2 i e1 He1) as (e2 & He2 & (_ & _ & Hfin2 & _)).
    assert (Hi2 : findIndex (is_request_for (lx_requestId failed)) (networkLogs s2)
                  = Some i).
    { rewrite <- Hid. eapply first_match_kept; [exact Hkept2|].
      eapply first_match_kept; [exact Hkept1|exact Hi]. }
    cbn [run foldl step]. unfold onDebuggerEvent.
    rewrite bool_decide_eq_true_2 by exact Htab2. cbn [with_logs networkLogs].
    unfold handleNetworkLoadingFailed.
    destruct (terminal_event_lands s2 _ i
                (set_loadingFailed
                   {| x_timestamp := now2; errorText := lx_errorText failed;
                      canceled := lx_canceled failed |}) Hi2)
      as (e & He & Hrid & H).
    eexists. split; [exact H|].
    rewrite He2 in He. injection He as <-.
    cbn. split; [congruence|]. split; [apply Hfin2, Hfin1 | reflexivity].
  - intros s i now1 tab1 now2 tab2 finished failed between Hid Hi Hbetween Htab1 Htab2.
    change (run (?a :: ?l) s) with (run l (step a s)) in *.
    rewrite run_app.
    set (s1 := step (DebuggerEvent_op now1 tab1 (Network_loadingFailed failed)) s) in *.
    set (s2 := run between s1) in *.
    assert (H1 : exists e1, networkLogs s1 !! i = Some e1 /\
                            is_Some (loadingFailed e1)).
    { subst s1. cbn [step]. unfold onDebuggerEvent.
      rewrite bool_decide_eq_true_2 by exact Htab1. cbn [with_logs networkLogs].
      unfold handleNetworkLoadingFailed.
      destruct (terminal_event_lands s _ i
                  (set_loadingFailed
                     {| x_timestamp := now1; errorText := lx_errorText failed;
                        canceled := lx_canceled failed |}) Hi)
        as (e & _ & _ & H).
      eexists. split; [exact H|]. cbn. eauto. }
    destruct H1 as (e1 & He1 & Hfail1).
    assert (Hkept1 : entries_preserved (networkLogs s) (networkLogs s1))
      by (apply step_keeps_entries; reflexivity).
    assert (Hkept2 : entries_preserved (networkLogs s1) (networkLogs s2))
      by (apply run_keeps_entries, Hbetween).
    destruct (Hkept2 i e1 He1) as (e2 & He2 & (_ & _ & _ & Hfail2)).
    assert (Hi2 : findIndex (is_request_for (lf_requestId finished)) (networkLogs s2)
                  = Some i).
    { rewrite Hid. eapply first_match_kept; [exact Hkept2|].
      eapply first_match_kept; [exact Hkept1|exact Hi]. }
    cbn [run foldl step]. unfold onDebuggerEvent.
    rewrite bool_decide_eq_true_2 by exact Htab2. cbn [with_logs networkLogs].
    unfold handleNetworkLoadingFinished.
    destruct (terminal_event_lands s2 _ i
                (set_loadingFinished
                   {| f_timestamp := now2;
                      encodedDataLength := lf_encodedDataLength finished |}) Hi2)
      as (e & He & Hrid & H).
    eexists. split; [exact H|].
    rewrite He2 in He. injection He as <-.
    cbn. split; [congruence|]. split; [apply Hfail2, Hfail1 | reflexivity].
Qed.

Lemma at_most_one_terminal_witness :
  Forall (fun e => loadingFinished e = None \/ loadingFailed e = None)
         (networkLogs (run sent_answered_finished initial_session)) /\
  exists e,
    networkLogs
      (run (DebuggerEvent_op 20 1 (Network_loadingFinished finished_x)
              :: [DebuggerEvent_op 25 1 (Network_responseReceived (resp_x 200))]
              ++ [DebuggerEvent_op 30 1 (Network_loadingFailed failed_x)])
           recording_session) !! 0%nat = Some e /\
    requestId e = "x" /\
    is_Some (loadingFinished e) /\
    loadingFailed e = Some {| x_timestamp := 30; errorText := "net::ERR_ABORTED";
                              canceled := Some true |}.
Proof.
  destruct at_most_one_terminal_unless_both_delivered as (_ & _ & Hone & Hboth & _).
  split.
  - apply Forall_forall.
    apply (Hone sent_answered_finished initial_session).
    + intros e He. simpl in He. apply elem_of_nil in He. destruct He.
    + intros rid [_ (now & tab & p & Hin & _)].
      unfold sent_answered_finished in Hin.
      repeat (apply elem_of_cons in Hin as [Hin|Hin]; [discriminate Hin|]).
      apply elem_of_nil in Hin. exact Hin.
  - apply (Hboth recording_session 0%nat 20 1 30 1 finished_x failed_x
             [DebuggerEvent_op 25 1 (Network_responseReceived (resp_x 200))]).
    + reflexivity.
    + reflexivity.
    + reflexivity.
    + change (1 ∈ ({[ 1 ]} : gset Z)). apply elem_of_singleton_2. reflexivity.
    + change (1 ∈ ({[ 1 ]} : gset Z)). apply elem_of_singleton_2. reflexivity.
Defined.

(** When the log is cleared between the two terminal events, the second
    one meets a new entry, which then carries that one alone. *)
Example cleared_between_terminal_events :
  map (fun e => (bool_decide (is_Some (loadingFinished e)),
                 bool_decide (is_Some (loadingFailed e))))
      (networkLogs
         (run [ StartRecording true 1;
                DebuggerEvent_op 10 1 (Network_requestWillBeSent req_x);
                DebuggerEvent_op 20 1 (Network_loadingFinished finished_x);
                ClearLogs;
                DebuggerEvent_op 30 1 (Network_requestWillBeSent req_x);
                DebuggerEvent_op 40 1 (Network_loadingFailed failed_x) ]
              initial_session))
  = [(false, true)].
Proof. reflexivity. Qed.

(** ** Event aggregator *)

Section Sorting.
Context {A : Type} (key : A -> Z).

Local Abbreviation by_key := (fun a b : A => key a - key b).
Local Abbreviation le_key := (fun a b : A => key a <= key b).

Lemma insert_by_Permutation (x : A) (l : list A) :
  insert_by by_key x l ≡ₚ x :: l.
Proof.
  induction l as [|y l IH]; simpl; [reflexivity|].
  destruct (key x - key y <=? 0); [reflexivity|].
  rewrite IH. apply Permutation_swap.
Qed.

Lemma Array_sort_Permutation (l : list A) : Array_sort by_key l ≡ₚ l.
Proof.
  induction l as [|x l IH]; simpl; [reflexivity|].
  rewrite insert_by_Permutation. rewrite IH. reflexivity.
Qed.

Lemma insert_by_sorted (x : A) (l : list A) :
  StronglySorted le_key l -> StronglySorted le_key (insert_by by_key x l).
Proof.
  induction 1 as [|y l Hs IH Hall]; simpl.
  - repeat constructor.
  - destruct (Z.leb_spec (key x - key y) 0) as [Hle|Hgt]; simpl in *.
    + constructor; [constructor; assumption|].
      constructor; [lia|].
      eapply Forall_impl; [exact Hall|]. simpl. intros z Hz. lia.
    + constructor; [exact IH|].
      eapply Permutation_Forall; [symmetry; apply insert_by_Permutation|].
      constructor; [lia | exact Hall].
Qed.

Lemma Array_sort_sorted (l : list A) : StronglySorted le_key (Array_sort by_key l).
Proof.
  induction l as [|x l IH]; simpl; [constructor|].
  apply insert_by_sorted, IH.
Qed.

(** Inserting an element does not disturb the order among the elements
    of any one key. *)
Lemma insert_by_stable (t : Z) (x : A) (l : list A) :
  filter (fun e => key e = t) (insert_by by_key x l)
  = filter (fun e => key e = t) (x :: l).
Proof.
  induction l as [|y l IH]; simpl; [reflexivity|].
  destruct (Z.leb_spec (key x - key y) 0) as [Hle|Hgt]; [reflexivity|].
  rewrite !filter_cons in *.
  destruct (decide (key y = t)) as [Hy|Hy];
    destruct (decide (key x = t)) as [Hx|Hx]; try lia;
    rewrite IH; reflexivity.
Qed.

Lemma Array_sort_stable (t : Z) (l : list A) :
  filter (fun e => key e = t) (Array_sort by_key l)
  = filter (fun e => key e = t) l.
Proof.
  induction l as [|x l IH]; simpl; [reflexivity|].
  rewrite insert_by_stable. rewrite !filter_cons. rewrite IH. reflexivity.
Qed.

Lemma StronglySorted_lookup (l : list A) :
  StronglySorted le_key l ->
  forall i j a b, (i <= j)%nat -> l !! i = Some a -> l !! j = Some b ->
                  key a <= key b.
Proof.
  induction 1 as [|y l Hs IH Hall]; intros i j a b Hij Ha Hb.
  - discriminate.
  - destruct i as [|i], j as [|j]; simpl in *.
    + assert (a = b) by congruence. subst. lia.
    + injection Ha as <-. rewrite Forall_forall in Hall.
      apply Hall. apply list_elem_of_lookup. eauto.
    + lia.
    + eapply IH; [|exact Ha|exact Hb]. lia.
Qed.
End Sorting.

Lemma allEvents_Permutation (data : ExportData) :
  allEvents data ≡ₚ pushAllEvents data.
Proof. apply (Array_sort_Permutation ev_timestamp). Qed.

Lemma allEvents_nil (data : ExportData) :
  allEvents data = [] <-> pushAllEvents data = [].
Proof.
  split; intros H.
  - apply Permutation_nil. rewrite <- H. apply allEvents_Permutation.
  - apply Permutation_nil. rewrite <- H. symmetry. apply allEvents_Permutation.
Qed.

(** C5. For any three logs, each in any order, the sorted [allEvents] is
    non-decreasing in [timestamp]; it holds exactly the records of the
    concatenation of the network log, then the interaction log, then the
    snapshots, each record under its type and its own timestamp; and the
    sort is stable: the records of any one timestamp appear in the order
    they have in that concatenation, network records first, then
    interactions, then snapshots, each group in the order of its log. *)
Theorem allEvents_sorted_and_stable (data : ExportData) :
  let network :=
    map (fun log => {| ev_type := "network"; ev_timestamp := timestamp log;
                       ev_data := NetworkData log |}) (e_networkLogs data) in
  let interaction :=
    map (fun log => {| ev_type := "interaction"; ev_timestamp := i_timestamp log;
                       ev_data := InteractionData log |}) (e_interactionLogs data) in
  let snapshot :=
    map (fun snapshot => {| ev_type := "snapshot"; ev_timestamp := s_timestamp snapshot;
                            ev_data := SnapshotData snapshot |})
        (e_elementSnapshots data) in
  (forall i j a b, (i <= j)%nat ->
     allEvents data !! i = Some a -> allEvents data !! j = Some b ->
     ev_timestamp a <= ev_timestamp b) /\
  allEvents data ≡ₚ network ++ interaction ++ snapshot /\
  (forall t, filter (fun e => ev_timestamp e = t) (allEvents data)
             = filter (fun e => ev_timestamp e = t) network
               ++ filter (fun e => ev_timestamp e = t) interaction
               ++ filter (fun e => ev_timestamp e = t) snapshot).
Proof.
  intros network interaction snapshot.
  split; [|split].
  - apply (StronglySorted_lookup ev_timestamp).
    apply (Array_sort_sorted ev_timestamp).
  - apply allEvents_Permutation.
  - intros t. rewrite <- !filter_app. apply (Array_sort_stable ev_timestamp).
Qed.

(** Three records of one timestamp, one from each log, and an earlier
    snapshot: the snapshot comes first, the three keep the order network,
    interaction, snapshot. *)
Example equal_timestamps_keep_log_order :
  map (fun e => (ev_type e, ev_timestamp e))
      (allEvents
         {| exportDate := "2024-01-01T00:00:00.000Z"; e_tabId := 1; mode := "logs";
            e_networkLogs := handleNetworkRequest 20 req_x 1 [];
            e_interactionLogs := [ {| i_timestamp := 20; i_data := [] |} ];
            e_elementSnapshots :=
              [ {| s_timestamp := 20; s_url := "https://example.org/";
                   s_elements := []; s_viewport := JNull |};
                {| s_timestamp := 5; s_url := "https://example.org/";
                   s_elements := []; s_viewport := JNull |} ];
            videoData := NoVideoData;
            summary := {| totalNetworkRequests := 1; totalInteractions := 1;
                          totalElementSnapshots := 2 |} |})
  = [("snapshot", 5); ("network", 20); ("interaction", 20); ("snapshot", 20)].
Proof. reflexivity. Qed.

(** Scenario C: the interaction at 500 comes first and the timeline starts
    there. *)
Example scenario_C_timeline :
  map ev_type (allEvents scenario_C) = ["interaction"; "network"] /\
  startTime (timelineBounds 7000 7001 (allEvents scenario_C)) = 500 /\
  map (relativeTime 500) (allEvents scenario_C) = [0; 500].
Proof. repeat split. Qed.

(** C6, the claim as written fails on an empty input: the two bounds are
    two readings of the clock, and when the clock ticks between them the
    duration is not 0. *)
Lemma empty_timeline_duration_can_be_nonzero :
  allEvents empty_export = [] /\
  startTime (timelineBounds 1000 1001 (allEvents empty_export)) = 1000 /\
  endTime (timelineBounds 1000 1001 (allEvents empty_export)) = 1001 /\
  duration (timelineBounds 1000 1001 (allEvents empty_export)) <> 0.
Proof. repeat split. discriminate. Qed.

(** C6 (as amended). [duration] is [endTime - startTime]. On a non-empty
    merged set [startTime] is the least and [endTime] the greatest
    timestamp, so [endTime >= startTime] and every relative time lies in
    [0, duration]. On an empty one [startTime] and [endTime] are the two
    successive clock readings, and [duration], their difference, is 0 when
    the readings agree. *)
Theorem timelineBounds_min_max (now1 now2 : Z) (data : ExportData) :
  let b := timelineBounds now1 now2 (allEvents data) in
  duration b = endTime b - startTime b /\
  (pushAllEvents data <> [] ->
     (exists e, e ∈ pushAllEvents data /\ startTime b = ev_timestamp e) /\
     (exists e, e ∈ pushAllEvents data /\ endTime b = ev_timestamp e) /\
     (forall e, e ∈ pushAllEvents data ->
        startTime b <= ev_timestamp e <= endTime b) /\
     startTime b <= endTime b /\
     (forall e, e ∈ pushAllEvents data ->
        0 <= relativeTime (startTime b) e <= duration b)) /\
  (pushAllEvents data = [] ->
     startTime b = now1 /\ endTime b = now2 /\ duration b = now2 - now1 /\
     (now1 = now2 -> duration b = 0)).
Proof.
  intros b. split; [reflexivity|]. split.
  - intros Hne.
    pose proof (allEvents_Permutation data) as Hperm.
    pose proof (StronglySorted_lookup ev_timestamp _
                  (Array_sort_sorted ev_timestamp (pushAllEvents data))) as Hsorted.
    fold (allEvents data) in Hsorted.
    assert (Hlen : (0 < length (allEvents data))%nat).
    { rewrite (Permutation_length Hperm).
      destruct (pushAllEvents data); [congruence | simpl; lia]. }
    destruct (lookup_lt_is_Some_2 (allEvents data) 0 Hlen) as [first Hfirst].
    destruct (lookup_lt_is_Some_2 (allEvents data) (length (allEvents data) - 1))
      as [last Hlast]; [lia|].
    assert (Hs : startTime b = ev_timestamp first)
      by (subst b; unfold timelineBounds; simpl; rewrite Hfirst; reflexivity).
    assert (He : endTime b = ev_timestamp last)
      by (subst b; unfold timelineBounds; simpl; rewrite Hlast; reflexivity).
    assert (Hd : duration b = endTime b - startTime b) by reflexivity.
    assert (Hbounds : forall e, e ∈ pushAllEvents data ->
              startTime b <= ev_timestamp e <= endTime b).
    { intros e Hin. rewrite <- Hperm in Hin.
      apply list_elem_of_lookup in Hin as [k Hk].
      pose proof (lookup_lt_Some _ _ _ Hk) as Hklt.
      rewrite Hs, He. split.
      - apply (Hsorted 0%nat k); auto. lia.
      - apply (Hsorted k (length (allEvents data) - 1)%nat); auto. lia. }
    assert (Hfin : first ∈ pushAllEvents data).
    { rewrite <- Hperm. apply list_elem_of_lookup. eauto. }
    assert (Hlin : last ∈ pushAllEvents data).
    { rewrite <- Hperm. apply list_elem_of_lookup. eauto. }
    repeat split.
    + exists first. auto.
    + exists last. auto.
    + apply Hbounds; assumption.
    + apply Hbounds; assumption.
    + destruct (Hbounds first Hfin). lia.
    + unfold relativeTime. destruct (Hbounds e H). lia.
    + unfold relativeTime. destruct (Hbounds e H). lia.
  - intros Hnil. apply allEvents_nil in Hnil. subst b. rewrite Hnil.
    simpl. repeat split. intros ->. lia.
Qed.

Lemma timelineBounds_witness :
  let b := timelineBounds 7000 7001 (allEvents scenario_C) in
  startTime b = 500 /\ endTime b = 1000 /\ duration b = 500 /\
  (forall e, e ∈ pushAllEvents scenario_C ->
     0 <= relativeTime (startTime b) e <= duration b).
Proof.
  destruct (timelineBounds_min_max 7000 7001 scenario_C) as (_ & Hne & _).
  destruct Hne as (_ & _ & _ & _ & Hrel); [discriminate|].
  repeat split; apply Hrel; assumption.
Defined.



(** ** JSON text *)

Lemma jsval_nested_ind (P : jsval -> Prop) :
  P JUndefined -> P JNull -> (forall b, P (JBool b)) -> (forall n, P (JNum n)) ->
  (forall s, P (JStr s)) ->
  (forall items, Forall P items -> P (JArr items)) ->
  (forall props, Forall (fun kv => P (snd kv)) props -> P (JObj props)) ->
  forall v, P v.
Proof.
  intros Hu Hn Hb Hz Hs Harr Hobj. fix IH 1.
  intros [ | | b | n | s | items | props];
    [exact Hu | exact Hn | apply Hb | apply Hz | apply Hs | | ].
  - apply Harr. induction items as [|x items IHl]; constructor; [apply IH | exact IHl].
  - apply Hobj. induction props as [|[k x] props IHl]; constructor; [apply IH | exact IHl].
Qed.

(** *** White space *)

Lemma is_spaces_gap (l : list ascii) : is_spaces l -> is_spaces (l ++ gap).
Proof. intros H. apply Forall_app. split; [exact H|]. repeat constructor. Qed.

Lemma ws_run_line (l : list ascii) : is_spaces l -> ws_run (newline :: l).
Proof.
  intros H. constructor; [reflexivity|].
  eapply Forall_impl; [exact H|]. intros c ->. reflexivity.
Qed.

Lemma skip_ws_run (l : list ascii) (c : ascii) (r : list ascii) :
  ws_run l -> is_ws c = false -> skip_ws (l ++ c :: r) = c :: r.
Proof.
  induction 1 as [|w l Hw _ IH]; intros Hc; simpl.
  - rewrite Hc. reflexivity.
  - rewrite Hw. apply IH, Hc.
Qed.

Lemma expect_hit (l : list ascii) (c : ascii) (r : list ascii) :
  ws_run l -> is_ws c = false -> expect c (l ++ c :: r) = Some r.
Proof.
  intros Hl Hc. unfold expect. rewrite skip_ws_run by assumption.
  rewrite bool_decide_eq_true_2 by reflexivity. reflexivity.
Qed.

Lemma expect_miss (l : list ascii) (c c' : ascii) (r : list ascii) :
  ws_run l -> is_ws c' = false -> c' <> c -> expect c (l ++ c' :: r) = None.
Proof.
  intros Hl Hc Hne. unfold expect. rewrite skip_ws_run by assumption.
  rewrite bool_decide_eq_false_2 by exact Hne. reflexivity.
Qed.

Lemma expect_hit_line (l : list ascii) (c : ascii) (r : list ascii) :
  is_spaces l -> is_ws c = false -> expect c (newline :: l ++ c :: r) = Some r.
Proof. intros Hl Hc. apply (expect_hit (newline :: l)); auto using ws_run_line. Qed.

Lemma expect_miss_line (l : list ascii) (c c' : ascii) (r : list ascii) :
  is_spaces l -> is_ws c' = false -> c' <> c ->
  expect c (newline :: l ++ c' :: r) = None.
Proof. intros Hl Hc Hne. apply (expect_miss (newline :: l)); auto using ws_run_line. Qed.

Lemma expect_here (c : ascii) (r : list ascii) :
  is_ws c = false -> expect c (c :: r) = Some r.
Proof. intros Hc. apply (expect_hit []); [constructor | exact Hc]. Qed.

Lemma value_start_facts (c : ascii) :
  value_start c = true ->
  is_ws c = false /\ c <> "]"%char /\ c <> "}"%char /\ c <> ","%char.
Proof.
  destruct c as [[] [] [] [] [] [] [] []]; intros H;
    try discriminate H; repeat split; discriminate.
Qed.

(** *** String literals *)

Lemma parse_string_body_escape (fuel : nat) (c : ascii) (s : list ascii) :
  parse_string_body (S fuel) (escape_char c ++ s)
  = match parse_string_body fuel s with
    | Some (cs, r) => Some (c :: cs, r)
    | None => None
    end.
Proof.
  destruct c as [[] [] [] [] [] [] [] []]; reflexivity.
Qed.

Lemma escape_char_length (c : ascii) : (1 <= length (escape_char c))%nat.
Proof.
  destruct c as [[] [] [] [] [] [] [] []]; simpl; lia.
Qed.

Lemma flat_map_escape_length (cs : list ascii) :
  (length cs <= length (flat_map escape_char cs))%nat.
Proof.
  induction cs as [|c cs IH]; simpl; [lia|].
  rewrite length_app. pose proof (escape_char_length c). lia.
Qed.

Lemma parse_string_body_quoted (cs : list ascii) : forall fuel rest,
  (length cs < fuel)%nat ->
  parse_string_body fuel (flat_map escape_char cs ++ quote_char :: rest)
  = Some (cs, rest).
Proof.
  induction cs as [|c cs IH]; intros fuel rest Hfuel;
    (destruct fuel as [|fuel]; [simpl in Hfuel; lia|]).
  - reflexivity.
  - simpl flat_map. rewrite <- app_assoc. rewrite parse_string_body_escape.
    rewrite IH; [reflexivity | simpl in Hfuel; lia].
Qed.

Lemma parse_string_quoted (k : string) (rest : list ascii) :
  parse_string (QuoteJSONString k ++ rest) = Some (k, rest).
Proof.
  unfold QuoteJSONString, parse_string.
  rewrite <- app_comm_cons, <- app_assoc.
  change ([quote_char] ++ rest) with (quote_char :: rest).
  rewrite bool_decide_eq_true_2 by reflexivity.
  rewrite parse_string_body_quoted.
  - rewrite string_of_list_ascii_of_string. reflexivity.
  - rewrite length_app.
    pose proof (flat_map_escape_length (to_chars k)). simpl. lia.
Qed.

(** *** Numerals *)

Lemma uint_chars_digits (d : Decimal.uint) : Forall (fun c => is_digit c = true) (uint_chars d).
Proof. induction d; simpl; constructor; auto. Qed.

Lemma N_digits_digits (m : N) : Forall (fun c => is_digit c = true) (N_digits m).
Proof. apply uint_chars_digits. Qed.

Lemma read_digits_app (l rest : list ascii) :
  Forall (fun c => is_digit c = true) l ->
  match rest with [] => True | c :: _ => is_digit c = false end ->
  read_digits (l ++ rest) = (l, rest).
Proof.
  intros Hl Hrest. induction Hl as [|c l Hc _ IH]; simpl.
  - destruct rest as [|c r]; [reflexivity|]. simpl. rewrite Hrest. reflexivity.
  - rewrite Hc, IH. reflexivity.
Qed.

Lemma digits_value_app (acc : N) (l1 l2 : list ascii) :
  digits_value acc (l1 ++ l2) = digits_value (digits_value acc l1) l2.
Proof. revert acc. induction l1 as [|c l1 IH]; intros acc; simpl; [reflexivity|apply IH]. Qed.

Lemma digits_value_zeros (j : nat) (l : list ascii) :
  digits_value 0 (replicate j "0"%char ++ l) = digits_value 0 l.
Proof. induction j as [|j IH]; simpl; [reflexivity|exact IH]. Qed.

Lemma digits_value_acc (acc : N) (l : list ascii) :
  digits_value acc l = (acc * 10 ^ N.of_nat (length l) + digits_value 0 l)%N.
Proof.
  revert acc. induction l as [|c l IH]; intros acc.
  - simpl. lia.
  - cbn [digits_value length]. rewrite IH. rewrite (IH (10 * 0 + _)%N).
    rewrite Nat2N.inj_succ, N.pow_succ_r'. lia.
Qed.

Lemma digits_value_cons (acc : N) (c : ascii) (l : list ascii) :
  digits_value acc (c :: l) = digits_value (10 * acc + (N_of_ascii c - 48))%N l.
Proof. reflexivity. Qed.

(** The value of the digits [Pos.to_uint] writes. *)
Lemma digits_value_of_uint_acc (d : Decimal.uint) (acc : positive) :
  digits_value (Npos acc) (uint_chars d) = Npos (Pos.of_uint_acc d acc).
Proof.
  revert acc. induction d; intros acc; cbn [uint_chars Pos.of_uint_acc];
    [reflexivity|..];
    rewrite digits_value_cons, <- IHd; f_equal;
    match goal with |- context [(N_of_ascii ?c - 48)%N] =>
      let v := eval vm_compute in (N_of_ascii c - 48)%N in
      change (N_of_ascii c - 48)%N with v
    end; lia.
Qed.

Lemma digits_value_of_uint (d : Decimal.uint) :
  digits_value 0 (uint_chars d) = Pos.of_uint d.
Proof.
  induction d; cbn [uint_chars Pos.of_uint]; [reflexivity|..];
    rewrite digits_value_cons;
    match goal with |- context [(10 * 0 + (N_of_ascii ?c - 48))%N] =>
      let v := eval vm_compute in (10 * 0 + (N_of_ascii c - 48))%N in
      change (10 * 0 + (N_of_ascii c - 48))%N with v
    end;
    [exact IHd | apply digits_value_of_uint_acc..].
Qed.

Lemma digits_value_N_digits (m : N) : digits_value 0 (N_digits m) = m.
Proof.
  unfold N_digits. rewrite digits_value_of_uint.
  change (Pos.of_uint (N.to_uint m)) with (N.of_uint (N.to_uint m)).
  apply DecimalN.Unsigned.of_to.
Qed.

Lemma digits_value_zeros_end (acc : N) (j : nat) :
  digits_value acc (replicate j "0"%char) = (acc * 10 ^ N.of_nat j)%N.
Proof.
  revert acc. induction j as [|j IH]; intros acc.
  - simpl. lia.
  - cbn [replicate]. rewrite digits_value_cons, IH.
    change (N_of_ascii "0" - 48)%N with 0%N.
    rewrite Nat2N.inj_succ, N.pow_succ_r'. lia.
Qed.

Lemma without_trailing_zeros_spec (l : list ascii) :
  exists j, l = without_trailing_zeros l ++ replicate j "0"%char.
Proof.
  induction l as [|c r [j IH]]; [exists 0%nat; reflexivity|].
  cbn [without_trailing_zeros].
  destruct (without_trailing_zeros r) as [|c' r'] eqn:Hr.
  - simpl in IH. destruct (Ascii.eqb_spec c "0"%char) as [->|Hc].
    + exists (S j). simpl. rewrite <- IH. reflexivity.
    + exists j. simpl. rewrite <- IH. reflexivity.
  - exists j. rewrite IH at 1. reflexivity.
Qed.

Lemma without_trailing_zeros_head (c : ascii) (r : list ascii) :
  Ascii.eqb c "0" = false ->
  exists more, without_trailing_zeros (c :: r) = c :: more.
Proof.
  intros Hc. cbn [without_trailing_zeros].
  destruct (without_trailing_zeros r); [rewrite Hc|]; eauto.
Qed.

Lemma Forall_app_l {A} (P : A -> Prop) (l1 l2 : list A) :
  Forall P (l1 ++ l2) -> Forall P l1.
Proof. intros H. apply Forall_app in H. tauto. Qed.

(** The digits of a positive number: at least one, the first not [0]. *)
Lemma N_digits_pos (p : positive) :
  exists c more, N_digits (Npos p) = c :: more /\ Ascii.eqb c "0" = false.
Proof.
  unfold N_digits. cbn [N.to_uint].
  pose proof (DecimalPos.Unsigned.to_uint_nonnil p) as Hnil.
  assert (Hz : forall d', Pos.to_uint p <> Decimal.D0 d').
  { intros d' H.
    pose proof (DecimalPos.Unsigned.to_of (Pos.to_uint p)) as Hn.
    rewrite DecimalPos.Unsigned.of_to in Hn. simpl in Hn.
    rewrite H in Hn. rewrite unorm_D0 in Hn. unfold Decimal.unorm in Hn.
    destruct (Decimal.nzhead d') eqn:Hd;
      try (symmetry in Hn; revert Hn; rewrite <- Hd; apply nzhead_nonzero).
    apply (DecimalPos.Unsigned.to_uint_nonzero p). rewrite H, <- Hn. reflexivity. }
  destruct (Pos.to_uint p) as [|d|d|d|d|d|d|d|d|d|d];
    [congruence | exfalso; eapply Hz; reflexivity | ..];
    cbn [uint_chars]; eexists _, _; split; reflexivity.
Qed.

Lemma delimited_tail (rest : list ascii) :
  delimited rest = true ->
  tail_ok rest /\ starts_fraction_or_exponent rest = false.
Proof.
  destruct rest as [|c r]; [intros _; split; [exact I | reflexivity]|].
  unfold delimited. intros H. apply andb_true_iff in H as [Hd Hf].
  apply negb_true_iff in Hd, Hf. split; [exact Hd | exact Hf].
Qed.

Lemma read_exponent_text (exponent : option Z) (rest : list ascii) :
  delimited rest = true ->
  read_exponent (exponent_text exponent ++ rest) = Some (default 0 exponent, rest).
Proof.
  intros Hrest. destruct (delimited_tail rest Hrest) as [Htail Hfe].
  destruct exponent as [x|]; cbn [exponent_text default].
  - unfold exponent_part, read_exponent. rewrite <- !app_comm_cons.
    rewrite bool_decide_eq_true_2 by (left; reflexivity).
    destruct (Z.ltb_spec x 0) as [Hneg|Hpos];
      rewrite (read_digits_app _ rest (N_digits_digits _) Htail);
      rewrite digits_value_N_digits;
      (destruct (N_digits (Z.abs_N x)) as [|c more] eqn:Hd;
       [exfalso; revert Hd; unfold N_digits;
        destruct (Z.abs_N x); simpl; [discriminate|];
        intros Hd; apply (f_equal (@length ascii)) in Hd;
        pose proof (N_digits_pos p) as (c & m & Hc & _); unfold N_digits in Hc;
        simpl in Hc; rewrite Hc in Hd; discriminate Hd|]);
      unfold id; do 2 f_equal; lia.
  - simpl. destruct rest as [|c r]; [reflexivity|].
    unfold read_exponent. simpl in Hfe.
    rewrite bool_decide_eq_false_2; [reflexivity|].
    apply bool_decide_eq_false in Hfe. tauto.
Qed.

Lemma exponent_text_tail (exponent : option Z) (rest : list ascii) :
  delimited rest = true ->
  tail_ok (exponent_text exponent ++ rest) /\
  match exponent_text exponent ++ rest with
  | c :: _ => c <> "."%char
  | [] => True
  end.
Proof.
  intros Hrest. destruct (delimited_tail rest Hrest) as [Htail Hfe].
  destruct exponent as [x|]; cbn [exponent_text].
  - split; [reflexivity | discriminate].
  - simpl. split; [exact Htail|].
    destruct rest as [|c r]; [exact I|]. simpl in Hfe.
    apply bool_decide_eq_false in Hfe. tauto.
Qed.

Lemma read_fraction_text (fraction tail : list ascii) :
  Forall (fun c => is_digit c = true) fraction ->
  tail_ok tail ->
  match tail with c :: _ => c <> "."%char | [] => True end ->
  read_fraction (fraction_text fraction ++ tail) = Some (fraction, tail).
Proof.
  intros Hf Htail Hdot. destruct fraction as [|c more].
  - simpl. destruct tail as [|c r]; [reflexivity|].
    unfold read_fraction.
    destruct c as [[] [] [] [] [] [] [] []]; try reflexivity. congruence.
  - cbn [fraction_text]. rewrite <- app_comm_cons.
    unfold read_fraction. rewrite (read_digits_app _ tail Hf Htail). reflexivity.
Qed.

Lemma fraction_text_tail (fraction tail : list ascii) :
  tail_ok tail -> tail_ok (fraction_text fraction ++ tail).
Proof. intros Htail. destruct fraction; [exact Htail | reflexivity]. Qed.

Lemma parse_number_digit (c : ascii) (r : list ascii) :
  is_digit c = true -> parse_number (c :: r) = parse_unsigned false (c :: r).
Proof.
  destruct c as [[] [] [] [] [] [] [] []]; intros H; try reflexivity; discriminate H.
Qed.

(** A numeral is read as the number it writes. *)
Lemma parse_numeral (negative : bool) (c : ascii) (more fraction : list ascii)
    (exponent : option Z) (rest : list ascii) :
  Forall (fun c => is_digit c = true) (c :: more) ->
  (Ascii.eqb c "0" = true -> more = []) ->
  Forall (fun c => is_digit c = true) fraction ->
  delimited rest = true ->
  parse_number (numeral_text negative (c :: more) fraction exponent ++ rest)
  = Some (make_Number negative (digits_value 0 ((c :: more) ++ fraction))
            (default 0 exponent - Z.of_nat (length fraction)),
          rest).
Proof.
  intros Hint Hzero Hfrac Hrest.
  destruct (exponent_text_tail exponent rest Hrest) as [Het Hdot].
  assert (Hbody :
    parse_unsigned negative
      ((c :: more) ++ fraction_text fraction ++ exponent_text exponent ++ rest)
    = Some (make_Number negative (digits_value 0 ((c :: more) ++ fraction))
              (default 0 exponent - Z.of_nat (length fraction)), rest)).
  { unfold parse_unsigned.
    rewrite (read_digits_app (c :: more) _ Hint (fraction_text_tail _ _ Het)).
    replace (Ascii.eqb c "0" && negb (bool_decide (more = []))) with false.
    2:{ destruct (Ascii.eqb c "0") eqn:Hc; [|reflexivity].
        rewrite (Hzero eq_refl). reflexivity. }
    rewrite (read_fraction_text fraction _ Hfrac Het Hdot).
    rewrite (read_exponent_text exponent rest Hrest). reflexivity. }
  unfold numeral_text. rewrite <- !app_assoc.
  destruct negative.
  - change (["-"%char] ++ ?x) with ("-"%char :: x).
    change (parse_number ("-"%char :: ?x)) with (parse_unsigned true x).
    exact Hbody.
  - change ([] ++ ?x) with x. rewrite <- app_comm_cons.
    rewrite parse_number_digit by (apply Forall_cons in Hint; tauto).
    rewrite app_comm_cons. exact Hbody.
Qed.

Lemma digit_value_range (r : NonzeroDigit) : (1 <= digit_value r <= 9)%N.
Proof. destruct r; simpl; lia. Qed.

Lemma nonzero_digit_value (r : NonzeroDigit) : nonzero_digit (digit_value r) = r.
Proof. destruct r; reflexivity. Qed.

Lemma make_Number_Fraction (negative : bool) (q : N) (r : NonzeroDigit) (e : positive) :
  make_Number negative (10 * q + digit_value r) (- Z.pos e) = Fraction negative q r e.
Proof.
  pose proof (digit_value_range r) as Hr.
  assert (Hmod : ((10 * q + digit_value r) mod 10 = digit_value r)%N).
  { rewrite N.add_comm, N.mul_comm, N.Div0.mod_add. apply N.mod_small. lia. }
  assert (Hdiv : ((10 * q + digit_value r) / 10 = q)%N).
  { rewrite N.add_comm, N.mul_comm, N.div_add by lia.
    rewrite N.div_small by lia. lia. }
  unfold make_Number.
  replace ((10 * q + digit_value r =? 0)%N) with false
    by (symmetry; apply N.eqb_neq; lia).
  replace (0 <=? - Z.pos e) with false by (symmetry; apply Z.leb_gt; lia).
  replace (Z.to_nat (- - Z.pos e)) with (S (Pos.to_nat e - 1)) by lia.
  cbn [reduce].
  replace (- Z.pos e <? 0) with true by (symmetry; apply Z.ltb_lt; lia).
  rewrite Hmod.
  replace ((digit_value r =? 0)%N) with false by (symmetry; apply N.eqb_neq; lia).
  cbn [andb].
  replace (- Z.pos e =? 0) with false by (symmetry; apply Z.eqb_neq; lia).
  rewrite Hmod, Hdiv, nonzero_digit_value. reflexivity.
Qed.

Lemma make_Number_Whole (negative : bool) (m : N) (j : Z) :
  m <> 0%N -> 0 <= j ->
  make_Number negative m j
  = Whole ((if negative then - Z.of_N m else Z.of_N m) * 10 ^ j).
Proof.
  intros Hm Hj. unfold make_Number.
  replace ((m =? 0)%N) with false by (symmetry; apply N.eqb_neq; exact Hm).
  replace (0 <=? j) with true by (symmetry; apply Z.leb_le; exact Hj).
  reflexivity.
Qed.

Lemma scientific_numeral (negative : bool) (c : ascii) (more : list ascii) (x : Z) :
  (if negative then ["-"%char] else []) ++ scientific (c :: more) x
  = numeral_text negative [c] more (Some x).
Proof.
  unfold numeral_text, scientific. f_equal.
  destruct more; reflexivity.
Qed.

(** Reading what [Number::toString] wrote gives the number back. *)
Lemma parse_number_toString (x : Number) (rest : list ascii) :
  delimited rest = true ->
  parse_number (Number_toString x ++ rest) = Some (x, rest).
Proof.
  intros Hrest. destruct x as [n|negative q r e]; unfold Number_toString; cbv zeta.
  - (* an integer *)
    pose proof (N_digits_digits (Z.abs_N n)) as Hdig.
    pose proof (digits_value_N_digits (Z.abs_N n)) as Hval.
    destruct (Z.abs_N n) as [|p] eqn:Habs.
    + (* zero *)
      assert (n = 0) by lia. subst n.
      change (parse_number (numeral_text false ["0"%char] [] None ++ rest)
              = Some (Whole 0, rest)).
      rewrite parse_numeral; auto.
    + destruct (N_digits_pos p) as (c & more & Hc & Hnz). rewrite Hc in *.
      assert (Hsign : (if n <? 0 then - Z.pos p else Z.pos p) = n).
      { destruct (Z.ltb_spec n 0); lia. }
      destruct (Nat.leb_spec (length (c :: more)) 21) as [Hshort|Hlong]; cbv iota.
      * replace ((if n <? 0 then ["-"%char] else []) ++ c :: more)
          with (numeral_text (n <? 0) (c :: more) [] None)
          by (unfold numeral_text; cbn [fraction_text exponent_text];
              rewrite !app_nil_r; reflexivity).
        rewrite parse_numeral; auto; [|congruence].
        rewrite app_nil_r, Hval. cbn [default length].
        rewrite make_Number_Whole by lia.
        change (Z.of_N (N.pos p)) with (Z.pos p). rewrite Hsign.
        change (0 - Z.of_nat 0) with 0. rewrite Z.pow_0_r, Z.mul_1_r. reflexivity.
      * destruct (without_trailing_zeros_spec (c :: more)) as [j Hj].
        destruct (without_trailing_zeros_head c more Hnz) as [smore Hs].
        rewrite Hs in *.
        rewrite scientific_numeral.
        assert (Hall : Forall (fun c => is_digit c = true) (c :: smore))
          by (rewrite Hj in Hdig; eapply Forall_app_l, Hdig).
        apply Forall_cons in Hall as [Hcd Hsd].
        rewrite parse_numeral;
          [|repeat constructor; exact Hcd | reflexivity | exact Hsd | exact Hrest].
        assert (Hlen : length (c :: more) = (length (c :: smore) + j)%nat)
          by (rewrite Hj at 1; rewrite length_app, length_replicate; reflexivity).
        assert (Hv : Npos p = (digits_value 0 (c :: smore) * 10 ^ N.of_nat j)%N).
        { rewrite <- Hval. rewrite Hj at 1.
          rewrite digits_value_app, digits_value_zeros_end. reflexivity. }
        change ([c] ++ smore) with (c :: smore).
        cbn [default]. unfold id.
        replace (Z.of_nat (length (c :: more)) - 1 - Z.of_nat (length smore))
          with (Z.of_nat j) by (rewrite Hlen; cbn [length]; lia).
        assert (Hm : digits_value 0 (c :: smore) <> 0%N)
          by (intros H0; rewrite H0 in Hv; discriminate Hv).
        rewrite make_Number_Whole by (assumption || lia).
        do 2 f_equal. f_equal.
        assert (Hz : Z.pos p = Z.of_N (digits_value 0 (c :: smore)) * 10 ^ Z.of_nat j).
        { change (Z.pos p) with (Z.of_N (Npos p)). rewrite Hv.
          rewrite N2Z.inj_mul, N2Z.inj_pow, nat_N_Z. reflexivity. }
        transitivity (if n <? 0 then - Z.pos p else Z.pos p); [|exact Hsign].
        destruct (n <? 0); rewrite Hz; ring.
  - (* a number with a fraction *)
    pose proof (digit_value_range r) as Hr.
    pose proof (N_digits_digits (10 * q + digit_value r)) as Hdig.
    pose proof (digits_value_N_digits (10 * q + digit_value r)) as Hval.
    destruct (10 * q + digit_value r)%N as [|p] eqn:Hm; [lia|].
    destruct (N_digits_pos p) as (c & more & Hc & Hnz). rewrite Hc in *.
    cbv zeta.
    set (n := Z.of_nat (length (c :: more)) - Z.pos e).
    destruct ((0 <? n) && (n <=? 21)) eqn:Hplain.
    + (* digits, point, digits *)
      apply andb_true_iff in Hplain as [Hn0 Hn21].
      apply Z.ltb_lt in Hn0.
      assert (Hk : (Z.to_nat n < length (c :: more))%nat) by (subst n; lia).
      destruct (drop (Z.to_nat n) (c :: more)) as [|f fs] eqn:Hdrop.
      { apply (f_equal (@length ascii)) in Hdrop. rewrite length_drop in Hdrop.
        simpl in Hdrop. simpl in Hk. lia. }
      destruct (take (Z.to_nat n) (c :: more)) as [|c' more'] eqn:Htake.
      { apply (f_equal (@length ascii)) in Htake. rewrite length_take in Htake.
        simpl in Htake. simpl in Hk. lia. }
      assert (Hsplit : (c' :: more') ++ f :: fs = c :: more)
        by (rewrite <- Htake, <- Hdrop; apply take_drop).
      assert (c' = c) by (injection Hsplit; auto). subst c'.
      change ((if negative then ["-"%char] else []) ++ (c :: more') ++ "."%char :: f :: fs)
        with ((if negative then ["-"%char] else [])
              ++ (c :: more') ++ fraction_text (f :: fs)).
      replace ((if negative then ["-"%char] else [])
               ++ (c :: more') ++ fraction_text (f :: fs))
        with (numeral_text negative (c :: more') (f :: fs) None)
        by (unfold numeral_text; rewrite app_nil_r; reflexivity).
      rewrite <- Hsplit in Hdig. apply Forall_app in Hdig as [Hd1 Hd2].
      rewrite parse_numeral; auto; [|congruence].
      rewrite Hsplit, Hval, <- Hm. cbn [default].
      replace (0 - Z.of_nat (length (f :: fs))) with (- Z.pos e).
      2:{ rewrite <- Hdrop, length_drop. subst n. lia. }
      rewrite make_Number_Fraction. reflexivity.
    + destruct ((-6 <? n) && (n <=? 0)) eqn:Hsmall.
      * (* zero, point, zeros, digits *)
        apply andb_true_iff in Hsmall as [_ Hn0]. apply Z.leb_le in Hn0.
        replace ((if negative then ["-"%char] else [])
                 ++ "0"%char :: "."%char
                    :: replicate (Z.to_nat (- n)) "0"%char ++ c :: more)
          with (numeral_text negative ["0"%char]
                  (replicate (Z.to_nat (- n)) "0"%char ++ c :: more) None).
        2:{ unfold numeral_text. rewrite app_nil_r. f_equal.
            destruct (Z.to_nat (- n)); reflexivity. }
        rewrite parse_numeral;
          [|repeat constructor | reflexivity
           |apply Forall_app; split;
            [apply Forall_replicate; reflexivity | exact Hdig]
           |exact Hrest].
        change (["0"%char] ++ ?l) with (replicate 1 "0"%char ++ l).
        rewrite digits_value_zeros, digits_value_zeros, Hval, <- Hm.
        cbn [default].
        replace (0 - Z.of_nat (length (replicate (Z.to_nat (- n)) "0"%char ++ c :: more)))
          with (- Z.pos e).
        2:{ rewrite length_app, length_replicate. subst n. lia. }
        rewrite make_Number_Fraction. reflexivity.
      * (* exponent notation *)
        rewrite scientific_numeral.
        apply Forall_cons in Hdig as [Hcd Hmd].
        rewrite parse_numeral;
          [|repeat constructor; exact Hcd | reflexivity | exact Hmd | exact Hrest].
        change ([c] ++ more) with (c :: more). rewrite Hval, <- Hm.
        cbn [default]. unfold id.
        replace (n - 1 - Z.of_nat (length more)) with (- Z.pos e)
          by (subst n; cbn [length]; lia).
        rewrite make_Number_Fraction. reflexivity.
Qed.

(** What [Number::toString] writes begins with a minus sign or a digit. *)
Lemma Number_toString_head (x : Number) :
  exists c t, Number_toString x = c :: t /\ value_start c = true /\
              (c = "-"%char \/ is_Some (digit_of c)).
Proof.
  assert (Hdigit : forall c, is_digit c = true ->
            value_start c = true /\ (c = "-"%char \/ is_Some (digit_of c))).
  { intros c Hc. split; [|right; apply bool_decide_eq_true in Hc; exact Hc].
    destruct c as [[] [] [] [] [] [] [] []]; try reflexivity; discriminate Hc. }
  assert (Hfirst : forall m, exists c t, N_digits m = c :: t /\ is_digit c = true).
  { intros m. pose proof (N_digits_digits m) as Hd.
    destruct m as [|p]; [eexists _, _; split; reflexivity|].
    destruct (N_digits_pos p) as (c & t & Hc & _). rewrite Hc in Hd.
    apply Forall_cons in Hd as [Hd _]. eauto. }
  assert (Hsigned : forall (negative : bool) (body : list ascii),
            (exists c t, body = c :: t /\ is_digit c = true) ->
            exists c t, (if negative then ["-"%char] else []) ++ body = c :: t /\
                        value_start c = true /\
                        (c = "-"%char \/ is_Some (digit_of c))).
  { intros negative body (c & t & -> & Hc). destruct negative.
    - eexists _, _. split; [reflexivity|]. split; [reflexivity | left; reflexivity].
    - eexists _, _. split; [reflexivity|]. apply Hdigit, Hc. }
  assert (Hsci : forall c more y, is_digit c = true ->
            exists c' t, scientific (c :: more) y = c' :: t /\ is_digit c' = true).
  { intros c more y Hc. destruct more; eexists _, _; split; try reflexivity; exact Hc. }
  destruct x as [n|negative q r e]; unfold Number_toString; cbv zeta;
    apply Hsigned.
  - destruct (Z.abs_N n) as [|p]; [eexists _, _; split; reflexivity|].
    pose proof (N_digits_digits (Npos p)) as Hd.
    destruct (N_digits_pos p) as (c & more & Hc & Hnz). rewrite Hc in *.
    apply Forall_cons in Hd as [Hd _].
    destruct (length (c :: more) <=? 21)%nat; [eauto|].
    destruct (without_trailing_zeros_head c more Hnz) as [smore ->].
    apply Hsci, Hd.
  - pose proof (digit_value_range r) as Hr.
    destruct (10 * q + digit_value r)%N as [|p] eqn:Hm; [lia|].
    pose proof (N_digits_digits (Npos p)) as Hd.
    destruct (N_digits_pos p) as (c & more & Hc & Hnz). rewrite Hc in *.
    apply Forall_cons in Hd as [Hd _].
    set (n := Z.of_nat (length (c :: more)) - Z.pos e).
    destruct ((0 <? n) && (n <=? 21)) eqn:Hplain.
    + apply andb_true_iff in Hplain as [Hn0 _]. apply Z.ltb_lt in Hn0.
      destruct (Z.to_nat n) as [|k] eqn:Hk; [lia|].
      eexists _, _. split; [reflexivity | exact Hd].
    + destruct ((-6 <? n) && (n <=? 0)).
      * eexists _, _. split; reflexivity.
      * apply Hsci, Hd.
Qed.

(** *** Values *)

Lemma skip_ws_app_run (l s : list ascii) : ws_run l -> skip_ws (l ++ s) = skip_ws s.
Proof. induction 1 as [|w l Hw _ IH]; simpl; [reflexivity|]. rewrite Hw. exact IH. Qed.

Lemma parse_value_skip (fuel : nat) (l s : list ascii) :
  ws_run l -> parse_value fuel (l ++ s) = parse_value fuel s.
Proof.
  intros Hl. destruct fuel as [|fuel]; [reflexivity|].
  simpl. rewrite (skip_ws_app_run l s Hl). reflexivity.
Qed.

Lemma parse_value_numeral (fuel : nat) (c : ascii) (t : list ascii) :
  c = "-"%char \/ is_Some (digit_of c) ->
  parse_value (S fuel) (c :: t)
  = match parse_number (c :: t) with
    | Some (n, r') => Some (JNum n, r')
    | None => None
    end.
Proof.
  destruct c as [[] [] [] [] [] [] [] []]; intros [H|[D H]];
    try discriminate H; reflexivity.
Qed.

Lemma join_cons2 (sep p q : list ascii) (l : list (list ascii)) :
  join sep (p :: q :: l) = p ++ sep ++ join sep (q :: l).
Proof. reflexivity. Qed.

Lemma parse_elements_S (fuel : nat) (s : list ascii) :
  parse_elements (S fuel) s
  = match parse_value fuel s with
    | Some (v, r) =>
        match expect ","%char r with
        | Some r' =>
            match parse_elements fuel r' with
            | Some (vs, r'') => Some (v :: vs, r'')
            | None => None
            end
        | None =>
            match expect "]"%char r with
            | Some r' => Some ([v], r')
            | None => None
            end
        end
    | None => None
    end.
Proof. reflexivity. Qed.

Lemma parse_members_S (fuel : nat) (s : list ascii) :
  parse_members (S fuel) s
  = match parse_string (skip_ws s) with
    | Some (k, r) =>
        match expect ":"%char r with
        | Some r1 =>
            match parse_value fuel r1 with
            | Some (v, r2) =>
                match expect ","%char r2 with
                | Some r3 =>
                    match parse_members fuel r3 with
                    | Some (kvs, r4) => Some ((k, v) :: kvs, r4)
                    | None => None
                    end
                | None =>
                    match expect "}"%char r2 with
                    | Some r3 => Some ([(k, v)], r3)
                    | None => None
                    end
                end
            | None => None
            end
        | None => None
        end
    | None => None
    end.
Proof. reflexivity. Qed.

Lemma parse_elements_lines (indent stepback rest : list ascii) (its : list printed) :
  forall fuel lead,
    its <> [] -> Forall parses its ->
    is_spaces indent -> is_spaces stepback -> ws_run lead ->
    (sum_list_with (fun p => S (need p)) its <= fuel)%nat ->
    parse_elements fuel
      (lead ++ join (","%char :: newline :: indent) (map text its)
            ++ newline :: stepback ++ "]"%char :: rest)
    = Some (map image its, rest).
Proof.
  induction its as [|p its IH]; intros fuel lead Hne Hall Hind Hstep Hlead Hfuel;
    [congruence|].
  apply Forall_cons in Hall as [(_ & _ & Hp) Hall].
  destruct fuel as [|fuel]; [simpl in Hfuel; lia|].
  rewrite parse_elements_S.
  destruct its as [|q its].
  - change (join _ (map text [p])) with (text p).
    rewrite parse_value_skip by exact Hlead.
    rewrite Hp; [|simpl in Hfuel; lia|reflexivity].
    rewrite (expect_miss_line stepback ","%char "]"%char rest);
      [|exact Hstep|reflexivity|discriminate].
    rewrite (expect_hit_line stepback "]"%char rest);
      [|exact Hstep|reflexivity].
    reflexivity.
  - change (map text (p :: q :: its)) with (text p :: text q :: map text its).
    rewrite join_cons2. rewrite <- !app_assoc.
    rewrite parse_value_skip by exact Hlead.
    rewrite Hp; [|simpl in Hfuel; lia|reflexivity].
    rewrite <- !app_comm_cons.
    rewrite expect_here by reflexivity.
    specialize (IH fuel (newline :: indent)).
    change (map text (q :: its)) with (text q :: map text its) in IH.
    rewrite <- !app_comm_cons in IH.
    rewrite IH; [reflexivity|discriminate|exact Hall|exact Hind|exact Hstep
                 |apply ws_run_line, Hind|simpl in Hfuel |- *; lia].
Qed.

Lemma parse_value_skip1 (fuel : nat) (c : ascii) (s : list ascii) :
  is_ws c = true -> parse_value fuel (c :: s) = parse_value fuel s.
Proof. intros Hc. apply (parse_value_skip fuel [c]). repeat constructor. exact Hc. Qed.

Lemma skip_ws_quoted (k : string) (s : list ascii) :
  skip_ws (QuoteJSONString k ++ s) = QuoteJSONString k ++ s.
Proof. reflexivity. Qed.

Lemma parse_members_lines (indent stepback rest : list ascii)
    (ms : list (string * printed)) :
  forall fuel lead,
    ms <> [] -> Forall (fun m => parses (snd m)) ms ->
    is_spaces indent -> is_spaces stepback -> ws_run lead ->
    (sum_list_with (fun m => S (need (snd m))) ms <= fuel)%nat ->
    parse_members fuel
      (lead ++ join (","%char :: newline :: indent) (map member_text ms)
            ++ newline :: stepback ++ "}"%char :: rest)
    = Some (map (fun m => (fst m, image (snd m))) ms, rest).
Proof.
  induction ms as [|[k p] ms IH]; intros fuel lead Hne Hall Hind Hstep Hlead Hfuel;
    [congruence|].
  apply Forall_cons in Hall as [(_ & _ & Hp) Hall]. simpl in Hp.
  destruct fuel as [|fuel]; [simpl in Hfuel; lia|].
  rewrite parse_members_S. rewrite (skip_ws_app_run lead _ Hlead).
  destruct ms as [|q ms].
  - change (join _ (map member_text [(k, p)])) with (member_text (k, p)).
    unfold member_text at 1. simpl fst. simpl snd.
    rewrite <- !app_assoc. rewrite skip_ws_quoted, parse_string_quoted.
    rewrite <- !app_comm_cons. rewrite expect_here by reflexivity.
    rewrite parse_value_skip1 by reflexivity.
    rewrite Hp; [|simpl in Hfuel; lia|reflexivity].
    rewrite (expect_miss_line stepback ","%char "}"%char rest);
      [|exact Hstep|reflexivity|discriminate].
    rewrite (expect_hit_line stepback "}"%char rest);
      [|exact Hstep|reflexivity].
    reflexivity.
  - change (map member_text ((k, p) :: q :: ms))
      with (member_text (k, p) :: member_text q :: map member_text ms).
    rewrite join_cons2. unfold member_text at 1. simpl fst. simpl snd.
    rewrite <- !app_assoc. rewrite skip_ws_quoted, parse_string_quoted.
    rewrite <- !app_comm_cons. rewrite expect_here by reflexivity.
    rewrite parse_value_skip1 by reflexivity.
    rewrite Hp; [|simpl in Hfuel; lia|reflexivity].
    rewrite expect_here by reflexivity.
    specialize (IH fuel (newline :: indent)).
    change (map member_text (q :: ms)) with (member_text q :: map member_text ms) in IH.
    rewrite <- !app_comm_cons in IH.
    rewrite IH; [reflexivity|discriminate|exact Hall|exact Hind|exact Hstep
                 |apply ws_run_line, Hind|simpl in Hfuel |- *; lia].
Qed.

Lemma join_length {A : Type} (sep : list ascii) (f : A -> list ascii)
    (n : A -> nat) (l : list A) :
  (1 <= length sep)%nat ->
  Forall (fun a => (n a <= length (f a))%nat) l ->
  (sum_list_with (fun a => S (n a)) l <= length (join sep (map f l)) + 1)%nat.
Proof.
  intros Hsep. induction 1 as [|a l Ha Hl IH]; [simpl; lia|].
  destruct l as [|b l].
  - simpl. lia.
  - change (map f (a :: b :: l)) with (f a :: f b :: map f l).
    rewrite join_cons2, !length_app.
    change (map f (b :: l)) with (f b :: map f l) in IH.
    simpl sum_list_with in IH |- *. lia.
Qed.

Lemma join_head (sep : list ascii) (c : ascii) (t : list ascii)
    (parts : list (list ascii)) :
  exists t', join sep ((c :: t) :: parts) = c :: t'.
Proof. destruct parts; simpl; eauto. Qed.

Lemma lines_length (stepback indent : list ascii) (partial : list (list ascii)) :
  length (lines stepback indent partial)
  = (2 + length indent + length (join (","%char :: newline :: indent) partial)
     + length stepback)%nat.
Proof. unfold lines. simpl. rewrite !length_app. simpl. lia. Qed.

Lemma parse_value_array (fuel : nat) (r : list ascii) :
  parse_value (S fuel) ("["%char :: r)
  = match expect "]"%char r with
    | Some r' => Some (JArr [], r')
    | None =>
        match parse_elements fuel r with
        | Some (items, r') => Some (JArr items, r')
        | None => None
        end
    end.
Proof. reflexivity. Qed.

Lemma parse_value_object (fuel : nat) (r : list ascii) :
  parse_value (S fuel) ("{"%char :: r)
  = match expect "}"%char r with
    | Some r' => Some (JObj [], r')
    | None =>
        match parse_members fuel r with
        | Some (props, r') => Some (JObj props, r')
        | None => None
        end
    end.
Proof. reflexivity. Qed.

Lemma bracketed_shape (open close : ascii) (stepback indent rest : list ascii)
    (partial : list (list ascii)) :
  (open :: lines stepback indent partial ++ [close]) ++ rest
  = open :: (newline :: indent)
         ++ join (","%char :: newline :: indent) partial
         ++ newline :: stepback ++ close :: rest.
Proof.
  unfold lines. simpl.
  repeat (rewrite <- ?app_assoc, <- ?app_comm_cons; f_equal).
Qed.

Lemma expect_miss_lines (close c : ascii) (t indent rest : list ascii)
    (parts : list (list ascii)) :
  is_spaces indent -> is_ws c = false -> c <> close ->
  expect close ((newline :: indent)
                ++ join (","%char :: newline :: indent) ((c :: t) :: parts) ++ rest)
  = None.
Proof.
  intros Hind Hws Hne.
  destruct (join_head (","%char :: newline :: indent) c t parts) as [t' ->].
  apply (expect_miss (newline :: indent) close c (t' ++ rest));
    auto using ws_run_line.
Qed.

Lemma parses_null :
  parses {| text := to_chars "null"; image := JNull; need := 1 |}.
Proof.
  split; [eexists _, _; split; reflexivity|]. split; [compute; lia|].
  intros [|fuel] rest Hfuel _; [simpl in Hfuel; lia | reflexivity].
Qed.

Lemma Serialize_defined (stepback : list ascii) (v : jsval) :
  v <> JUndefined -> exists t, SerializeJSONProperty stepback v = Some t.
Proof. destruct v as [| |[]| | | |]; simpl; eauto. congruence. Qed.

Lemma Serialize_None (stepback : list ascii) (v : jsval) :
  SerializeJSONProperty stepback v = None -> v = JUndefined.
Proof. destruct v as [| |[]| | | |]; simpl; congruence. Qed.

Lemma print_element_parses (indent : list ascii) (x : jsval) :
  is_spaces indent -> reads_back x -> parses (print_element indent x).
Proof.
  intros Hind Hx. unfold print_element.
  assert (x = JUndefined \/ x <> JUndefined) as [->|Hdef]
    by (destruct x; auto; right; discriminate);
    [apply parses_null|].
  destruct (Serialize_defined indent x Hdef) as [t Ht]. rewrite Ht. simpl.
  replace (match x with JUndefined => JNull | _ => json_image x end)
    with (json_image x) by (destruct x; congruence).
  apply (Hx indent t); assumption.
Qed.

Lemma omap_cons_eq {A B : Type} (f : A -> option B) (a : A) (l : list A) :
  omap f (a :: l) = match f a with
                    | Some b => b :: omap f l
                    | None => omap f l
                    end.
Proof. reflexivity. Qed.

Lemma print_members_cons (indent : list ascii) (k : string) (x : jsval)
    (props : list (string * jsval)) :
  print_members indent ((k, x) :: props)
  = match SerializeJSONProperty indent x with
    | Some strP =>
        (k, {| text := strP; image := json_image x; need := weight (json_image x) |})
          :: print_members indent props
    | None => print_members indent props
    end.
Proof.
  unfold print_members. rewrite omap_cons_eq. simpl fst. simpl snd.
  destruct (SerializeJSONProperty indent x); reflexivity.
Qed.

Lemma print_members_text (indent : list ascii) (props : list (string * jsval)) :
  map member_text (print_members indent props)
  = omap (fun kv =>
            match SerializeJSONProperty indent (snd kv) with
            | Some strP =>
                Some (QuoteJSONString (fst kv) ++ ":"%char :: " "%char :: strP)
            | None => None
            end) props.
Proof.
  induction props as [|[k x] props IH]; [reflexivity|].
  rewrite print_members_cons, omap_cons_eq. simpl fst. simpl snd.
  destruct (SerializeJSONProperty indent x); [|exact IH].
  rewrite <- IH. reflexivity.
Qed.

Lemma print_members_image (indent : list ascii) (props : list (string * jsval)) :
  map (fun m => (fst m, image (snd m))) (print_members indent props)
  = omap (fun kv => match snd kv with
                    | JUndefined => None
                    | _ => Some (fst kv, json_image (snd kv))
                    end) props.
Proof.
  induction props as [|[k x] props IH]; [reflexivity|].
  rewrite print_members_cons, omap_cons_eq. simpl fst. simpl snd.
  destruct (SerializeJSONProperty indent x) eqn:Hx.
  - rewrite <- IH. destruct x; try reflexivity. discriminate Hx.
  - apply Serialize_None in Hx as ->. exact IH.
Qed.

Lemma print_members_parses (indent : list ascii) (props : list (string * jsval)) :
  is_spaces indent -> Forall (fun kv => reads_back (snd kv)) props ->
  Forall (fun m => parses (snd m)) (print_members indent props).
Proof.
  intros Hind. induction 1 as [|[k x] props Hx _ IH]; [constructor|].
  rewrite print_members_cons.
  destruct (SerializeJSONProperty indent x) as [t|] eqn:Ht; [|exact IH].
  constructor; [|exact IH]. simpl. apply (Hx indent t); assumption.
Qed.

Lemma sum_list_with_map {A B : Type} (f : B -> nat) (g : A -> B) (l : list A) :
  sum_list_with f (map g l) = sum_list_with (fun a => f (g a)) l.
Proof. induction l as [|a l IH]; simpl; [reflexivity | rewrite IH; reflexivity]. Qed.

Lemma Serialize_array (stepback : list ascii) (items : list jsval) :
  SerializeJSONProperty stepback (JArr items)
  = Some (match map (print_element (stepback ++ gap)) items with
          | [] => to_chars "[]"
          | its => "["%char :: lines stepback (stepback ++ gap) (map text its)
                     ++ ["]"%char]
          end).
Proof.
  simpl. f_equal. destruct items as [|x items]; [reflexivity|].
  simpl. rewrite map_map. reflexivity.
Qed.

Lemma Serialize_object (stepback : list ascii) (props : list (string * jsval)) :
  SerializeJSONProperty stepback (JObj props)
  = Some (match print_members (stepback ++ gap) props with
          | [] => to_chars "{}"
          | ms => "{"%char :: lines stepback (stepback ++ gap) (map member_text ms)
                    ++ ["}"%char]
          end).
Proof.
  transitivity
    (Some (match map member_text (print_members (stepback ++ gap) props) with
           | [] => to_chars "{}"
           | _ => "{"%char
                    :: lines stepback (stepback ++ gap)
                         (map member_text (print_members (stepback ++ gap) props))
                    ++ ["}"%char]
           end)).
  - rewrite print_members_text. reflexivity.
  - destruct (print_members (stepback ++ gap) props); reflexivity.
Qed.

Lemma reads_back_array (items : list jsval) :
  Forall reads_back items -> reads_back (JArr items).
Proof.
  intros Hitems stepback txt Hstep Htxt.
  pose proof (is_spaces_gap stepback Hstep) as Hind.
  set (indent := stepback ++ gap) in *.
  set (its := map (print_element indent) items).
  assert (Hparses : Forall parses its).
  { apply Forall_map. eapply Forall_impl; [exact Hitems|].
    intros x Hx. apply print_element_parses; assumption. }
  assert (Himg : json_image (JArr items) = JArr (map image its)).
  { simpl. f_equal. unfold its. rewrite map_map. reflexivity. }
  assert (Hneed : weight (json_image (JArr items))
                  = S (sum_list_with (fun p => S (need p)) its)).
  { rewrite Himg. simpl. f_equal. rewrite sum_list_with_map.
    unfold its. rewrite !sum_list_with_map. reflexivity. }
  rewrite Serialize_array in Htxt. fold indent in Htxt. fold its in Htxt.
  rewrite Hneed, Himg. clear Himg Hneed.
  destruct its as [|p its'] eqn:Hits.
  - apply (inj Some) in Htxt. subst txt.
    split; [eexists _, _; split; reflexivity|]. split; [compute; lia|].
    intros [|fuel] rest Hfuel _; [simpl in Hfuel; lia | reflexivity].
  - apply (inj Some) in Htxt. subst txt.
    pose proof (Forall_inv Hparses) as ((c & t & Hc & Hstart) & _ & _).
    destruct (value_start_facts c Hstart) as (Hws & Hclose & _).
    split; [eexists _, _; split; reflexivity|]. split.
    + pose proof (join_length (","%char :: newline :: indent) text need (p :: its'))
        as Hlen.
      assert (Forall (fun a => (need a <= length (text a))%nat) (p :: its')) as Hb
        by (eapply Forall_impl; [exact Hparses|]; intros a (_ & Ha & _); exact Ha).
      specialize (Hlen ltac:(simpl; lia) Hb).
      cbn [text need].
      change (length ("["%char :: ?l)) with (S (length l)).
      rewrite length_app, lines_length.
      change (length ["]"%char]) with 1%nat. lia.
    + intros [|fuel] rest Hfuel Hrest; [simpl in Hfuel; lia|].
      cbn [text need image] in Hfuel |- *.
      rewrite bracketed_shape, parse_value_array.
      change (map text (p :: its')) with (text p :: map text its').
      rewrite Hc.
      rewrite expect_miss_lines by assumption.
      rewrite <- Hc.
      change (text p :: map text its') with (map text (p :: its')).
      rewrite parse_elements_lines;
        [reflexivity|discriminate|exact Hparses|exact Hind|exact Hstep
        |apply ws_run_line, Hind|simpl in Hfuel |- *; lia].
Qed.

Lemma expect_miss_members (k : string) (p : printed) (indent rest : list ascii)
    (ms : list (string * printed)) :
  is_spaces indent ->
  expect "}"%char ((newline :: indent)
                   ++ join (","%char :: newline :: indent)
                        (map member_text ((k, p) :: ms)) ++ rest)
  = None.
Proof.
  intros Hind.
  change (map member_text ((k, p) :: ms))
    with ((quote_char :: (flat_map escape_char (to_chars k) ++ [quote_char])
             ++ ":"%char :: " "%char :: text p) :: map member_text ms).
  apply expect_miss_lines; [exact Hind | reflexivity | discriminate].
Qed.

Lemma member_text_length (m : string * printed) :
  (length (text (snd m)) <= length (member_text m))%nat.
Proof. unfold member_text. rewrite length_app. simpl. lia. Qed.

Lemma print_members_need (indent : list ascii) (props : list (string * jsval)) :
  sum_list_with (fun m => S (weight (image (snd m)))) (print_members indent props)
  = sum_list_with (fun m => S (need (snd m))) (print_members indent props).
Proof.
  induction props as [|[k x] props IH]; [reflexivity|].
  rewrite print_members_cons.
  destruct (SerializeJSONProperty indent x); [|exact IH].
  simpl. rewrite IH. reflexivity.
Qed.

Lemma reads_back_object (props : list (string * jsval)) :
  Forall (fun kv => reads_back (snd kv)) props -> reads_back (JObj props).
Proof.
  intros Hprops stepback txt Hstep Htxt.
  pose proof (is_spaces_gap stepback Hstep) as Hind.
  set (indent := stepback ++ gap) in *.
  pose proof (print_members_parses indent props Hind Hprops) as Hparses.
  assert (Himg : json_image (JObj props)
                 = JObj (map (fun m => (fst m, image (snd m)))
                             (print_members indent props))).
  { rewrite print_members_image. reflexivity. }
  assert (Hneed : weight (json_image (JObj props))
                  = S (sum_list_with (fun m => S (need (snd m)))
                                     (print_members indent props))).
  { rewrite Himg. simpl. f_equal. rewrite sum_list_with_map.
    apply print_members_need. }
  rewrite Serialize_object in Htxt. fold indent in Htxt.
  rewrite Hneed, Himg. clear Himg Hneed.
  destruct (print_members indent props) as [|[k p] ms].
  - apply (inj Some) in Htxt. subst txt.
    split; [eexists _, _; split; reflexivity|]. split; [compute; lia|].
    intros [|fuel] rest Hfuel _; [simpl in Hfuel; lia | reflexivity].
  - apply (inj Some) in Htxt. subst txt.
    split; [eexists _, _; split; reflexivity|]. split.
    + pose proof (join_length (","%char :: newline :: indent) member_text
                    (fun m => need (snd m)) ((k, p) :: ms)) as Hlen.
      assert (Forall (fun m => (need (snd m) <= length (member_text m))%nat)
                     ((k, p) :: ms)) as Hb.
      { eapply Forall_impl; [exact Hparses|]. intros m (_ & Hm & _).
        pose proof (member_text_length m). lia. }
      specialize (Hlen ltac:(simpl; lia) Hb).
      cbn [text need].
      change (length ("{"%char :: ?l)) with (S (length l)).
      rewrite length_app, lines_length.
      change (length ["}"%char]) with 1%nat. lia.
    + intros [|fuel] rest Hfuel Hrest; [simpl in Hfuel; lia|].
      cbn [text need image] in Hfuel |- *.
      rewrite bracketed_shape, parse_value_object.
      rewrite expect_miss_members by assumption.
      rewrite parse_members_lines;
        [reflexivity|discriminate|exact Hparses|exact Hind|exact Hstep
        |apply ws_run_line, Hind|simpl in Hfuel |- *; lia].
Qed.

Lemma reads_back_all (v : jsval) : reads_back v.
Proof.
  induction v using jsval_nested_ind.
  - intros stepback txt _ H. discriminate H.
  - intros stepback txt _ H. apply (inj Some) in H. subst txt. apply parses_null.
  - intros stepback txt _ H. destruct b; apply (inj Some) in H; subst txt;
      (split; [eexists _, _; split; reflexivity|]; split; [compute; lia|]);
      intros [|fuel] rest Hfuel _; (simpl in Hfuel; lia) || reflexivity.
  - intros stepback txt _ H. apply (inj Some) in H. subst txt.
    destruct (Number_toString_head n) as (c & t & Hc & Hstart & Hkind).
    split; [eexists _, _; split; eassumption|]. split.
    + cbn [text need]. rewrite Hc. simpl. lia.
    + intros [|fuel] rest Hfuel Hrest; [simpl in Hfuel; lia|].
      cbn [text image].
      destruct (value_start_facts c Hstart) as (Hws & _).
      pose proof (parse_number_toString n rest Hrest) as Hnum.
      rewrite Hc in Hnum |- *. rewrite <- app_comm_cons in Hnum |- *.
      rewrite parse_value_numeral by exact Hkind. rewrite Hnum. reflexivity.
  - intros stepback txt _ H. apply (inj Some) in H. subst txt.
    split; [eexists _, _; split; reflexivity|]. split.
    + cbn [text need]. unfold QuoteJSONString. simpl. lia.
    + intros [|fuel] rest Hfuel Hrest; [simpl in Hfuel; lia|].
      cbn [text image].
      pose proof (parse_string_quoted s rest) as Hstr.
      unfold QuoteJSONString in Hstr |- *. rewrite <- app_comm_cons in Hstr |- *.
      change (parse_value (S fuel) (quote_char :: ?r))
        with (match parse_string (quote_char :: r) with
              | Some (str, r') => Some (JStr str, r')
              | None => None
              end).
      rewrite Hstr. reflexivity.
  - apply reads_back_array. assumption.
  - apply reads_back_object. assumption.
Qed.

Lemma length_of_chars (l : list ascii) : String.length (of_chars l) = length l.
Proof. induction l as [|c l IH]; simpl; [reflexivity | rewrite IH; reflexivity]. Qed.

(** Parsing the text that [JSON.stringify] wrote gives back the value, up
    to the [undefined] entries that JSON cannot hold; in particular the
    parser does not run out of fuel on it. *)
Lemma JSON_parse_stringify (v : jsval) (s : string) :
  JSON_stringify v = Some s -> JSON_parse s = Some (json_image v).
Proof.
  unfold JSON_stringify. destruct (SerializeJSONProperty [] v) as [txt|] eqn:Htxt;
    [|discriminate].
  intros H. apply (inj Some) in H. subst s.
  destruct (reads_back_all v [] txt) as (_ & Hlen & Hparse);
    [constructor | exact Htxt |].
  cbn [text image need] in Hlen, Hparse.
  unfold JSON_parse. rewrite list_ascii_of_string_of_list_ascii, length_of_chars.
  specialize (Hparse (S (length txt)) [] ltac:(lia) eq_refl).
  rewrite app_nil_r in Hparse. rewrite Hparse. reflexivity.
Qed.

(** ** Export renderer *)



Lemma retrieveVideo_unusable (env : ExportEnv) (retrieved : RetrievedVideo) :
  not_a_usable_blob retrieved -> retrieveVideo env retrieved = (None, None, []).
Proof.
  destruct retrieved as [|blob|v]; simpl; intros H; try reflexivity.
  rewrite H. reflexivity.
Qed.

(** C10. In a video-mode export, when the value the blob store hands back
    is not a [Blob] or is an empty [Blob], the document carries
    [videoData: { hasVideo: false }], no video download is asked for, and
    the export goes on: the JSON download is asked for first and, once it
    resolves, the HTML timeline, which shows the placeholder. *)
Theorem export_proceeds_without_usable_video
    (env : ExportEnv) (logs : list NetworkLogEntry) (tab : Z)
    (stored : option (list InteractionLogEntry) * option (list ElementSnapshot))
    (retrieved : RetrievedVideo) :
  storage_get env = Some stored ->
  getVideoBlob env = Some retrieved ->
  not_a_usable_blob retrieved ->
  exists data,
    document (exportAllLogs env logs tab "video") = Some data /\
    videoData data = NoVideoData /\
    VideoData_to_js (videoData data) = JObj [("hasVideo", JBool false)] /\
    Forall (fun d => is_video_download d = false)
           (downloads (exportAllLogs env logs tab "video")) /\
    downloads (exportAllLogs env logs tab "video")
    = {| d_url := JsonDataUrl (renderJSON data);
         d_filename := "capture_all_logs_" +:+ decimal (export_now env) +:+ ".json" |}
      :: (if json_download_ok env
          then [ {| d_url := VideoHtmlDataUrl
                              (generateVideoTimelineHTML (html_read env)
                                 (html_now1 env) (html_now2 env) data None None);
                    d_filename := "capture_all_timeline_"
                                  +:+ decimal (export_now env) +:+ ".html" |} ]
          else []) /\
    videoContainer (generateVideoTimelineHTML (html_read env) (html_now1 env)
                      (html_now2 env) data None None)
    = no_video_placeholder None.
Proof.
  intros Hstore Hget Hbad. unfold exportAllLogs.
  rewrite Hstore. destruct stored as [il es]. simpl String.eqb. cbv iota.
  rewrite Hget, (retrieveVideo_unusable env retrieved Hbad).
  eexists. destruct (json_download_ok env); simpl;
    (split; [reflexivity|]); repeat split; repeat constructor.
Qed.

Lemma export_proceeds_witness :
  exists data,
    document (exportAllLogs env_empty_video two_requests_one_answered 1 "video") = Some data /\
    videoData data = NoVideoData /\
    VideoData_to_js (videoData data) = JObj [("hasVideo", JBool false)] /\
    Forall (fun d => is_video_download d = false)
           (downloads (exportAllLogs env_empty_video two_requests_one_answered 1 "video")) /\
    downloads (exportAllLogs env_empty_video two_requests_one_answered 1 "video")
    = {| d_url := JsonDataUrl (renderJSON data);
         d_filename := "capture_all_logs_" +:+ decimal (export_now env_empty_video) +:+ ".json" |}
      :: (if json_download_ok env_empty_video
          then [ {| d_url := VideoHtmlDataUrl
                              (generateVideoTimelineHTML (html_read env_empty_video)
                                 (html_now1 env_empty_video) (html_now2 env_empty_video) data None None);
                    d_filename := "capture_all_timeline_"
                                  +:+ decimal (export_now env_empty_video) +:+ ".html" |} ]
          else []) /\
    videoContainer (generateVideoTimelineHTML (html_read env_empty_video) (html_now1 env_empty_video)
                      (html_now2 env_empty_video) data None None)
    = no_video_placeholder None.
Proof.
  apply (export_proceeds_without_usable_video env_empty_video
           two_requests_one_answered 1
           (Some [ {| i_timestamp := 500; i_data := [("type", JStr "click")] |} ], None)
           (VideoBlob empty_video)).
  - reflexivity.
  - reflexivity.
  - reflexivity.
Defined.

(** The summary of every document [exportAllLogs] builds counts the three
    arrays of that document. *)
Lemma exported_summary (env : ExportEnv) (logs : list NetworkLogEntry) (tab : Z)
    (export_mode : string) (data : ExportData) :
  document (exportAllLogs env logs tab export_mode) = Some data ->
  totalNetworkRequests (summary data) = length (e_networkLogs data) /\
  totalInteractions (summary data) = length (e_interactionLogs data) /\
  totalElementSnapshots (summary data) = length (e_elementSnapshots data).
Proof.
  unfold exportAllLogs.
  destruct (storage_get env) as [[il es]|]; [|discriminate].
  destruct (if String.eqb export_mode "video" then _ else _) as [[[vb vf] vd]|];
    [|discriminate].
  destruct (json_download_ok env); simpl; intros H; injection H as <-;
    simpl; auto.
Qed.

Lemma json_image_array_length (items : list jsval) :
  array_length (json_image (JArr items)) = Some (length items).
Proof. simpl. rewrite length_map. reflexivity. Qed.

Lemma parsed_document_props (data : ExportData) :
  get_prop "summary" (json_image (ExportData_to_js data))
    = Summary_to_js (summary data) /\
  get_prop "networkLogs" (json_image (ExportData_to_js data))
    = json_image (JArr (map NetworkLogEntry_to_js (e_networkLogs data))) /\
  get_prop "interactionLogs" (json_image (ExportData_to_js data))
    = json_image (JArr (map InteractionLogEntry_to_js (e_interactionLogs data))) /\
  get_prop "elementSnapshots" (json_image (ExportData_to_js data))
    = json_image (JArr (map ElementSnapshot_to_js (e_elementSnapshots data))).
Proof.
  unfold ExportData_to_js.
  destruct (videoData data) as [|name sz]; [|destruct name];
    repeat split; reflexivity.
Qed.

Lemma parsed_document_props_in (arrival : nat -> list LaterPhase) (data : ExportData) :
  get_prop "summary" (json_image (ExportData_to_js_in arrival data))
    = Summary_to_js (summary data) /\
  get_prop "networkLogs" (json_image (ExportData_to_js_in arrival data))
    = json_image (JArr (imap (fun i e => NetworkLogEntry_to_js_in (arrival i) e)
                             (e_networkLogs data))) /\
  get_prop "interactionLogs" (json_image (ExportData_to_js_in arrival data))
    = json_image (JArr (map InteractionLogEntry_to_js (e_interactionLogs data))) /\
  get_prop "elementSnapshots" (json_image (ExportData_to_js_in arrival data))
    = json_image (JArr (map ElementSnapshot_to_js (e_elementSnapshots data))).
Proof.
  unfold ExportData_to_js_in.
  destruct (videoData data) as [|name sz]; [|destruct name];
    repeat split; reflexivity.
Qed.

(** The text [exportAllLogs] downloads is the one of the usual order of
    arrival. *)
Lemma renderJSON_usual_order (data : ExportData) :
  renderJSON data = renderJSON_in (fun _ => later_phases) data.
Proof.
  unfold renderJSON, renderJSON_in, ExportData_to_js, ExportData_to_js_in.
  change (imap (fun (_ : nat) e => NetworkLogEntry_to_js_in later_phases e)
               (e_networkLogs data))
    with (imap (const NetworkLogEntry_to_js) (e_networkLogs data)).
  rewrite imap_const. reflexivity.
Qed.

(** C8. For every document [exportAllLogs] builds, whatever numbers its
    logged data holds and in whatever order the phases of each request
    arrived, parsing its JSON text succeeds, and in the parsed value the
    three counts of [summary] are those of the document and equal the
    lengths of the parsed [networkLogs], [interactionLogs] and
    [elementSnapshots] arrays. *)
Theorem export_json_round_trip (env : ExportEnv) (logs : list NetworkLogEntry)
    (tab : Z) (export_mode : string) (data : ExportData)
    (arrival : nat -> list LaterPhase) :
  document (exportAllLogs env logs tab export_mode) = Some data ->
  exists parsed n_network n_interactions n_snapshots,
    JSON_parse (renderJSON_in arrival data) = Some parsed /\
    get_prop "totalNetworkRequests" (get_prop "summary" parsed)
      = JNum (Z.of_nat n_network) /\
    get_prop "totalInteractions" (get_prop "summary" parsed)
      = JNum (Z.of_nat n_interactions) /\
    get_prop "totalElementSnapshots" (get_prop "summary" parsed)
      = JNum (Z.of_nat n_snapshots) /\
    array_length (get_prop "networkLogs" parsed) = Some n_network /\
    array_length (get_prop "interactionLogs" parsed) = Some n_interactions /\
    array_length (get_prop "elementSnapshots" parsed) = Some n_snapshots /\
    n_network = totalNetworkRequests (summary data) /\
    n_interactions = totalInteractions (summary data) /\
    n_snapshots = totalElementSnapshots (summary data).
Proof.
  intros Hdoc. destruct (exported_summary _ _ _ _ _ Hdoc) as (Hn & Hi & Hs).
  assert (Htext : JSON_stringify (ExportData_to_js_in arrival data)
                  = Some (renderJSON_in arrival data))
    by reflexivity.
  apply JSON_parse_stringify in Htext.
  destruct (parsed_document_props_in arrival data) as (Psum & Pnet & Pint & Psnap).
  exists (json_image (ExportData_to_js_in arrival data)),
    (totalNetworkRequests (summary data)), (totalInteractions (summary data)),
    (totalElementSnapshots (summary data)).
  split; [exact Htext|].
  rewrite Psum, Pnet, Pint, Psnap, !json_image_array_length, !length_map, length_imap.
  repeat split; try reflexivity; congruence.
Qed.

Lemma export_json_round_trip_witness :
  exists parsed n_network n_interactions n_snapshots,
    JSON_parse (renderJSON_in (fun _ => [LoadingFailedPhase; ResponsePhase; LoadingFinishedPhase])
                  exported_document) = Some parsed /\
    get_prop "totalNetworkRequests" (get_prop "summary" parsed)
      = JNum (Z.of_nat n_network) /\
    get_prop "totalInteractions" (get_prop "summary" parsed)
      = JNum (Z.of_nat n_interactions) /\
    get_prop "totalElementSnapshots" (get_prop "summary" parsed)
      = JNum (Z.of_nat n_snapshots) /\
    array_length (get_prop "networkLogs" parsed) = Some n_network /\
    array_length (get_prop "interactionLogs" parsed) = Some n_interactions /\
    array_length (get_prop "elementSnapshots" parsed) = Some n_snapshots /\
    n_network = totalNetworkRequests (summary exported_document) /\
    n_interactions = totalInteractions (summary exported_document) /\
    n_snapshots = totalElementSnapshots (summary exported_document).
Proof.
  apply (export_json_round_trip env_empty_video two_requests_one_answered 1 "video"
           exported_document
           (fun _ => [LoadingFailedPhase; ResponsePhase; LoadingFinishedPhase])).
  reflexivity.
Defined.

(** The sample export, read back: two requests, one interaction, no
    snapshot, no video. *)
Example exported_document_read_back :
  (fun parsed => (get_prop "summary" parsed, get_prop "videoData" parsed,
                  array_length (get_prop "networkLogs" parsed)))
    <$> JSON_parse (renderJSON exported_document)
  = Some (JObj [("totalNetworkRequests", JNum 2); ("totalInteractions", JNum 1);
                ("totalElementSnapshots", JNum 0)],
          JObj [("hasVideo", JBool false)],
          Some 2%nat).
Proof. vm_compute. reflexivity. Qed.

(** Numbers with a fraction or an exponent are read as the numbers they
    denote, and a number is written as [Number::toString] writes it and
    read back as itself. *)
Example fractions_read_back :
  JSON_parse "[10.5, -1e-7, 1E21, 100e-2, 1.50, 0]"
  = Some (JArr [JNum (Fraction false 10 Dg5 1); JNum (Fraction true 0 Dg1 7);
                JNum (10 ^ 21); JNum 1; JNum (Fraction false 1 Dg5 1); JNum 0]) /\
  Number_toString (Fraction false 3333333333333333 Dg6 15)
  = to_chars "33.333333333333336" /\
  Number_toString (10 ^ 21) = to_chars "1e+21" /\
  Number_toString (Fraction true 0 Dg1 7) = to_chars "-1e-7" /\
  (JSON_stringify (JArr [JNum (Fraction false 10 Dg5 1); JNum (Fraction true 0 Dg1 7);
                         JNum (10 ^ 21)])
   ≫= JSON_parse)
  = Some (JArr [JNum (Fraction false 10 Dg5 1); JNum (Fraction true 0 Dg1 7);
                JNum (10 ^ 21)]).
Proof. vm_compute. repeat split. Qed.

(** ** Content script *)

Lemma valueLength_is_length (v : option string) :
  match v with
  | Some text => if nonempty text then String.length text else 0%nat
  | None => 0%nat
  end = String.length (default "" v).
Proof. destruct v as [[|c text]|]; reflexivity. Qed.




(* ===================================================================== *)
(** * Further properties                                                  *)
(* ===================================================================== *)

(** ** The correlator over whole runs *)

Lemma all_requests_handler rid f l :
  (forall e, type (f e) = type e) -> all_requests l ->
  all_requests (match findIndex (is_request_for rid) l with
                | Some i => alter f i l
                | None => l
                end).
Proof.
  intros Hf Hl.
  destruct (handler_first_match rid f l)
    as [(i & e & He & _ & _ & Hres)|[_ Hres]]; simpl in Hres; rewrite Hres;
    [|exact Hl].
  intros e' He'. apply elem_of_insert_inv in He' as [->|He']; [|apply Hl, He'].
  rewrite Hf. apply Hl. apply list_elem_of_lookup. eauto.
Qed.

Lemma step_all_requests op s :
  all_requests (networkLogs s) -> all_requests (networkLogs (step op s)).
Proof.
  intros Hs.
  assert (Hnil : all_requests []) by (intros e He; apply elem_of_nil in He; destruct He).
  destruct op as [now tab ev|i p content sz|attached tab|detached tab|tab| | |]; simpl.
  - unfold onDebuggerEvent. case_bool_decide; [|exact Hs].
    destruct ev as [p|p|p|p|]; simpl.
    + unfold handleNetworkRequest. intros e He.
      apply elem_of_app in He as [He|He]; [apply Hs, He|].
      apply list_elem_of_singleton in He as ->. reflexivity.
    + apply all_requests_handler; auto.
    + apply all_requests_handler; auto.
    + apply all_requests_handler; auto.
    + exact Hs.
  - unfold storeResponseBody.
    destruct (fetchesBody p); [|exact Hs].
    destruct (networkLogs s !! i) as [e|] eqn:He; [|exact Hs].
    destruct (response e) as [r|] eqn:Hr; [|exact Hs].
    intros e' He'. apply elem_of_insert_inv in He' as [->|He']; [|apply Hs, He'].
    simpl. apply Hs. apply list_elem_of_lookup. eauto.
  - destruct attached; simpl; [exact Hnil | exact Hs].
  - unfold stopRecording. case_bool_decide; [destruct detached|]; exact Hs.
  - unfold onDetach. case_bool_decide; exact Hs.
  - exact Hnil.
  - exact Hs.
  - exact Hs.
Qed.

Lemma run_all_requests ops : forall s,
  all_requests (networkLogs s) -> all_requests (networkLogs (run ops s)).
Proof.
  induction ops as [|op ops IH]; intros s Hs; simpl; [exact Hs|].
  apply IH, step_all_requests, Hs.
Qed.

Lemma findIndex_None_iff {A : Type} (p : A -> bool) (l : list A) :
  findIndex p l = None <-> forall x, x ∈ l -> p x = false.
Proof.
  split.
  - intros H x Hx. apply findIndex_None in H. rewrite Forall_forall in H. auto.
  - induction l as [|a l IH]; intros H; simpl; [reflexivity|].
    rewrite (H a) by (left). rewrite IH; [reflexivity|].
    intros x Hx. apply H. right. exact Hx.
Qed.

(** X1. Whatever the service worker has been through since it was loaded,
    every entry of the log has [type] ["request"]; so the later-phase
    lookup goes by the request id alone: it fails exactly when no entry
    has the id. *)
Theorem lookup_goes_by_request_id (ops : list Op) (rid : string) :
  (forall e, e ∈ networkLogs (run ops initial_session) -> type e = "request") /\
  (findIndex (is_request_for rid) (networkLogs (run ops initial_session)) = None
   <-> forall e, e ∈ networkLogs (run ops initial_session) -> requestId e <> rid).
Proof.
  assert (Hall : all_requests (networkLogs (run ops initial_session))).
  { apply run_all_requests. intros e He. simpl in He.
    apply elem_of_nil in He. destruct He. }
  split; [exact Hall|].
  rewrite findIndex_None_iff. split; intros H e He.
  - specialize (H e He). unfold is_request_for in H.
    rewrite (Hall e He) in H. simpl in H. rewrite andb_true_r in H.
    apply String.eqb_neq, H.
  - unfold is_request_for. apply andb_false_iff. left.
    apply String.eqb_neq, H, He.
Qed.

Lemma findIndex_alter {A : Type} (p : A -> bool) (f : A -> A) (i : nat) (l : list A) :
  (forall x, p (f x) = p x) -> findIndex p (alter f i l) = findIndex p l.
Proof.
  intros Hf. revert i. induction l as [|a l IH]; intros [|i]; try reflexivity.
  - change (alter f 0%nat (a :: l)) with (f a :: l). simpl. rewrite Hf. reflexivity.
  - change (alter f (S i) (a :: l)) with (a :: alter f i l). simpl.
    rewrite IH. reflexivity.
Qed.

(** Two handlers of the shape "rewrite the first entry with this id", whose
    rewrites keep the id and the type and do not interfere, can run in
    either order. *)
Lemma handlers_commute (rid1 rid2 : string) (f g : NetworkLogEntry -> NetworkLogEntry)
    (l : list NetworkLogEntry) :
  (forall rid e, is_request_for rid (f e) = is_request_for rid e) ->
  (forall rid e, is_request_for rid (g e) = is_request_for rid e) ->
  (forall e, f (g e) = g (f e)) ->
  let F l := match findIndex (is_request_for rid1) l with
             | Some i => alter f i l
             | None => l
             end in
  let G l := match findIndex (is_request_for rid2) l with
             | Some i => alter g i l
             | None => l
             end in
  F (G l) = G (F l).
Proof.
  intros Hf Hg Hfg F G. unfold F, G.
  destruct (findIndex (is_request_for rid2) l) as [j|] eqn:Hj;
    destruct (findIndex (is_request_for rid1) l) as [i|] eqn:Hi;
    rewrite ?findIndex_alter, ?Hi, ?Hj by auto; try reflexivity.
  destruct (decide (i = j)) as [->|Hne].
  - rewrite !list_alter_alter_eq. apply list_alter_ext; [|reflexivity].
    intros x _. simpl. apply Hfg.
  - apply list_alter_alter_ne, Hne.
Qed.

(** X2. The three later-phase handlers commute pairwise, whatever the
    request ids: the log after a response event and a terminal event, or
    after a loading-finished and a loading-failed event, does not depend
    on which of the two was handled first. *)
Theorem later_phases_commute
    (n1 n2 n3 : Z) (pr : ResponseReceivedParams) (pf : LoadingFinishedParams)
    (px : LoadingFailedParams) (t1 t2 t3 : Z) (l : list NetworkLogEntry) :
  handleNetworkResponse n1 pr t1 (handleNetworkLoadingFinished n2 pf t2 l)
  = handleNetworkLoadingFinished n2 pf t2 (handleNetworkResponse n1 pr t1 l)
  /\
  handleNetworkResponse n1 pr t1 (handleNetworkLoadingFailed n3 px t3 l)
  = handleNetworkLoadingFailed n3 px t3 (handleNetworkResponse n1 pr t1 l)
  /\
  handleNetworkLoadingFinished n2 pf t2 (handleNetworkLoadingFailed n3 px t3 l)
  = handleNetworkLoadingFailed n3 px t3 (handleNetworkLoadingFinished n2 pf t2 l).
Proof.
  unfold handleNetworkResponse, handleNetworkLoadingFinished, handleNetworkLoadingFailed.
  repeat split; apply handlers_commute; intros; reflexivity.
Qed.

Lemma handler_twice (rid : string) (f g : NetworkLogEntry -> NetworkLogEntry)
    (l : list NetworkLogEntry) :
  (forall e, is_request_for rid (g e) = is_request_for rid e) ->
  (forall e, f (g e) = f e) ->
  match findIndex (is_request_for rid)
          (match findIndex (is_request_for rid) l with
           | Some i => alter g i l
           | None => l
           end) with
  | Some i => alter f i (match findIndex (is_request_for rid) l with
                         | Some i => alter g i l
                         | None => l
                         end)
  | None => match findIndex (is_request_for rid) l with
            | Some i => alter g i l
            | None => l
            end
  end
  = match findIndex (is_request_for rid) l with
    | Some i => alter f i l
    | None => l
    end.
Proof.
  intros Hg Hfg.
  destruct (findIndex (is_request_for rid) l) as [i|] eqn:Hi.
  - rewrite findIndex_alter, Hi by exact Hg.
    rewrite list_alter_alter_eq. apply list_alter_ext; [|reflexivity].
    intros x _. simpl. apply Hfg.
  - rewrite Hi. reflexivity.
Qed.

(** X3. A second event of one kind for the same request id replaces what
    the first one stored: the log is the one the second event alone would
    have produced, with as many entries as before. This holds for
    loading-finished, loading-failed and response events. *)
Theorem repeated_event_overwrites
    (n1 n2 : Z) (t1 t2 : Z) (l : list NetworkLogEntry)
    (pf1 pf2 : LoadingFinishedParams) (px1 px2 : LoadingFailedParams)
    (pr1 pr2 : ResponseReceivedParams) :
  lf_requestId pf1 = lf_requestId pf2 ->
  lx_requestId px1 = lx_requestId px2 ->
  rr_requestId pr1 = rr_requestId pr2 ->
  handleNetworkLoadingFinished n2 pf2 t2 (handleNetworkLoadingFinished n1 pf1 t1 l)
  = handleNetworkLoadingFinished n2 pf2 t2 l
  /\
  handleNetworkLoadingFailed n2 px2 t2 (handleNetworkLoadingFailed n1 px1 t1 l)
  = handleNetworkLoadingFailed n2 px2 t2 l
  /\
  handleNetworkResponse n2 pr2 t2 (handleNetworkResponse n1 pr1 t1 l)
  = handleNetworkResponse n2 pr2 t2 l
  /\
  length (handleNetworkLoadingFinished n2 pf2 t2 (handleNetworkLoadingFinished n1 pf1 t1 l))
  = length l.
Proof.
  intros Hf Hx Hr.
  unfold handleNetworkResponse, handleNetworkLoadingFinished, handleNetworkLoadingFailed.
  rewrite Hf, Hx, Hr.
  split; [apply handler_twice; intros; reflexivity|].
  split; [apply handler_twice; intros; reflexivity|].
  split; [apply handler_twice; intros; reflexivity|].
  rewrite handler_twice by (intros; reflexivity).
  destruct (findIndex _ l); [apply length_alter | reflexivity].
Qed.

Lemma repeated_event_overwrites_witness :
  handleNetworkLoadingFinished 40 finished_x 1
    (handleNetworkLoadingFinished 30 finished_x 1 two_requests_one_answered)
  = handleNetworkLoadingFinished 40 finished_x 1 two_requests_one_answered.
Proof.
  apply (repeated_event_overwrites 30 40 1 1 two_requests_one_answered
           finished_x finished_x failed_x failed_x (resp_x 200) (resp_x 304));
    reflexivity.
Defined.

Lemma handler_unknown_id rid f (l : list NetworkLogEntry) :
  (forall e, e ∈ l -> requestId e <> rid) ->
  match findIndex (is_request_for rid) l with
  | Some i => alter f i l
  | None => l
  end = l.
Proof.
  intros H. replace (findIndex (is_request_for rid) l) with (@None nat); [reflexivity|].
  symmetry. apply findIndex_None_iff. intros e He.
  unfold is_request_for. apply andb_false_iff. left. apply String.eqb_neq, H, He.
Qed.

(** X4. An event of a later phase whose request id no entry carries is
    dropped: the log stays as it is. Nothing is kept for later either:
    when the request-sent event for that id comes afterwards, its entry
    starts without a response. *)
Theorem events_for_unknown_id_are_dropped
    (rid : string) (l : list NetworkLogEntry) (n n' tab : Z)
    (pr : ResponseReceivedParams) (pf : LoadingFinishedParams)
    (px : LoadingFailedParams) (rs : RequestWillBeSentParams) :
  (forall e, e ∈ l -> requestId e <> rid) ->
  rr_requestId pr = rid -> lf_requestId pf = rid -> lx_requestId px = rid ->
  rs_requestId rs = rid ->
  handleNetworkResponse n pr tab l = l /\
  handleNetworkLoadingFinished n pf tab l = l /\
  handleNetworkLoadingFailed n px tab l = l /\
  exists entry,
    handleNetworkRequest n' rs tab (handleNetworkResponse n pr tab l) = l ++ [entry] /\
    requestId entry = rid /\ response entry = None /\
    loadingFinished entry = None /\ loadingFailed entry = None.
Proof.
  intros Hl Hr Hf Hx Hs.
  assert (H1 : handleNetworkResponse n pr tab l = l)
    by (unfold handleNetworkResponse; rewrite Hr; apply handler_unknown_id, Hl).
  split; [exact H1|].
  split; [unfold handleNetworkLoadingFinished; rewrite Hf; apply handler_unknown_id, Hl|].
  split; [unfold handleNetworkLoadingFailed; rewrite Hx; apply handler_unknown_id, Hl|].
  rewrite H1. unfold handleNetworkRequest. eexists. split; [reflexivity|].
  simpl. auto.
Qed.

Lemma events_for_unknown_id_witness :
  handleNetworkResponse 5 (resp_x 200) 1 [] = [] /\
  handleNetworkLoadingFinished 5 finished_x 1 [] = [] /\
  handleNetworkLoadingFailed 5 failed_x 1 [] = [] /\
  exists entry,
    handleNetworkRequest 10 req_x 1 (handleNetworkResponse 5 (resp_x 200) 1 []) = [] ++ [entry] /\
    requestId entry = "x" /\ response entry = None /\
    loadingFinished entry = None /\ loadingFailed entry = None.
Proof.
  apply (events_for_unknown_id_are_dropped "x" [] 5 10 1 (resp_x 200) finished_x
           failed_x req_x); try reflexivity.
  intros e He. apply elem_of_nil in He. destruct He.
Defined.

Lemma later_phase_length rid f (l : list NetworkLogEntry) :
  length (match findIndex (is_request_for rid) l with
          | Some i => alter f i l
          | None => l
          end) = length l.
Proof. destruct (findIndex _ l); [apply length_alter | reflexivity]. Qed.

Lemma storeResponseBody_length i p b sz (l : list NetworkLogEntry) :
  length (storeResponseBody i p b sz l) = length l.
Proof.
  unfold storeResponseBody.
  destruct (fetchesBody p); [|reflexivity].
  destruct (l !! i) as [e|]; [|reflexivity].
  destruct (response e); [apply length_insert | reflexivity].
Qed.

Lemma step_protocol_traffic op s :
  is_protocol_traffic op = true ->
  attachedTabs (step op s) = attachedTabs s /\
  isRecording (step op s) = isRecording s /\
  length (networkLogs (step op s))
  = (length (networkLogs s)
     + if accepted_request (attachedTabs s) op then 1 else 0)%nat.
Proof.
  destruct op as [now tab ev|i p content sz|attached tab|detached tab|tab| | |];
    try discriminate; intros _; simpl.
  - unfold onDebuggerEvent.
    destruct ev as [p|p|p|p|]; case_bool_decide; simpl;
      repeat split; rewrite ?Nat.add_0_r; auto;
      try apply later_phase_length.
    unfold handleNetworkRequest. rewrite length_app. reflexivity.
  - repeat split. rewrite storeResponseBody_length. lia.
Qed.

(** X5. As long as only debugger events and response bodies arrive, the
    set of attached tabs and the recording flag stay as they are, and the
    log grows by exactly one entry for each request-sent event of an
    attached tab: later phases, events of other tabs and bodies add
    nothing. The count reported by [getStatus] follows. *)
Theorem log_grows_by_accepted_requests (ops : list Op) (s : Session) :
  forallb is_protocol_traffic ops = true ->
  attachedTabs (run ops s) = attachedTabs s /\
  isRecording (run ops s) = isRecording s /\
  snd (getStatus (run ops s))
  = (length (networkLogs s)
     + sum_list_with (fun op => if accepted_request (attachedTabs s) op then 1 else 0)
                     ops)%nat.
Proof.
  revert s. induction ops as [|op ops IH]; intros s Hops; simpl.
  - repeat split. lia.
  - simpl in Hops. apply andb_true_iff in Hops as [Hop Hops].
    destruct (step_protocol_traffic op s Hop) as (Ha & Hr & Hlen).
    destruct (IH (step op s) Hops) as (Ha' & Hr' & Hlen').
    unfold getStatus in *. simpl in *.
    rewrite Ha in Ha', Hlen'. rewrite Hr in Hr'. rewrite Hlen in Hlen'.
    repeat split; [exact Ha' | exact Hr' | rewrite Hlen'; lia].
Qed.

Lemma log_grows_witness :
  forallb is_protocol_traffic traffic_sample = true /\
  snd (getStatus (run traffic_sample recording_session)) = (2 + 3)%nat.
Proof.
  split; [reflexivity|].
  exact (proj2 (proj2 (log_grows_by_accepted_requests traffic_sample
                         recording_session eq_refl))).
Defined.

Lemma onDebuggerEvent_not_attached now tab ev s :
  tab ∉ attachedTabs s -> onDebuggerEvent now tab ev s = s.
Proof.
  intros H. unfold onDebuggerEvent. rewrite bool_decide_eq_false_2; [reflexivity | exact H].
Qed.

Lemma stopRecording_not_attached detached tab s :
  tab ∉ attachedTabs (stopRecording detached tab s).
Proof.
  unfold stopRecording. case_bool_decide as Hin; [destruct detached|]; simpl;
    [apply not_elem_of_difference; right; apply elem_of_singleton; reflexivity ..
    | exact Hin].
Qed.

Lemma onDetach_not_attached tab s : tab ∉ attachedTabs (onDetach tab s).
Proof.
  unfold onDetach. case_bool_decide as Hin; simpl; [|exact Hin].
  apply not_elem_of_difference; right; apply elem_of_singleton; reflexivity.
Qed.

(** X6. Once a tab has been stopped, or its debugger has detached, its
    debugger events no longer reach the log: each is ignored, whether the
    detach call succeeded or not, until a recording is started again. *)
Theorem events_ignored_after_stop
    (detached : bool) (tab : Z) (s : Session) (now : Z) (ev : DebuggerEvent) :
  onDebuggerEvent now tab ev (stopRecording detached tab s)
  = stopRecording detached tab s
  /\
  onDebuggerEvent now tab ev (onDetach tab s) = onDetach tab s.
Proof.
  split; apply onDebuggerEvent_not_attached.
  - apply stopRecording_not_attached.
  - apply onDetach_not_attached.
Qed.

(** ** The timeline page *)

Lemma generateTimelineTracks_imap data :
  generateTimelineTracks data
  = imap (fun i ev => {| data_type := ev_type ev; data_index := Z.of_nat i |})
         (pushAllEvents data).
Proof.
  unfold generateTimelineTracks, pushAllEvents.
  rewrite !imap_app, !imap_fmap, !length_fmap.
  apply (f_equal2 (@app _)); [|apply (f_equal2 (@app _))];
    apply imap_ext; intros i x _; simpl; f_equal; lia.
Qed.

Lemma pill_lookup data i pill :
  generateTimelineTracks data !! i = Some pill ->
  exists own, pushAllEvents data !! i = Some own /\
              data_type pill = ev_type own /\ data_index pill = Z.of_nat i.
Proof.
  rewrite generateTimelineTracks_imap, list_lookup_imap.
  destruct (pushAllEvents data !! i) as [own|]; simpl; [|discriminate].
  intros [= <-]. exists own. auto.
Qed.

Lemma allEvents_length data : length (allEvents data) = length (pushAllEvents data).
Proof. apply Permutation_length, allEvents_Permutation. Qed.

Lemma pill_click_at data i pill :
  generateTimelineTracks data !! i = Some pill ->
  pill_click (allEvents data) pill = allEvents data !! i /\
  is_Some (allEvents data !! i).
Proof.
  intros Hp. destruct (pill_lookup data i pill Hp) as (own & Hown & _ & Hi).
  assert (Hlt : (i < length (allEvents data))%nat)
    by (rewrite allEvents_length; eapply lookup_lt_Some, Hown).
  split; [|apply lookup_lt_is_Some_2, Hlt].
  unfold pill_click. rewrite Hi.
  replace (0 <=? Z.of_nat i) with true by (symmetry; apply Z.leb_le; lia).
  replace (Z.of_nat i <? Z.of_nat (length (allEvents data))) with true
    by (symmetry; apply Z.ltb_lt; lia).
  simpl. rewrite Nat2Z.id. reflexivity.
Qed.

Section SortedInput.
Context {A : Type} (key : A -> Z).

Lemma Array_sort_sorted_id (l : list A) :
  StronglySorted (fun a b => key a <= key b) l ->
  Array_sort (fun a b => key a - key b) l = l.
Proof.
  induction 1 as [|x l Hs IH Hall]; [reflexivity|].
  change (Array_sort (fun a b => key a - key b) (x :: l))
    with (insert_by (fun a b => key a - key b) x
            (Array_sort (fun a b => key a - key b) l)).
  rewrite IH. destruct l as [|y l]; [reflexivity|].
  simpl. apply Forall_cons in Hall as [Hxy _].
  replace (key x - key y <=? 0) with true by (symmetry; apply Z.leb_le; lia).
  reflexivity.
Qed.
End SortedInput.

(** X7. Every pill of the timeline page comes from one record of the
    network-then-interaction-then-snapshot concatenation, whose type it
    carries, and a click on it always shows an event: the one standing at
    the pill's position in the time-sorted [allEvents]. *)
Theorem pill_click_shows_event_at_pill_position
    (data : ExportData) (i : nat) (pill : EventPill) :
  generateTimelineTracks data !! i = Some pill ->
  (exists own, pushAllEvents data !! i = Some own /\ data_type pill = ev_type own) /\
  (exists shown, pill_click (allEvents data) pill = Some shown /\
                 allEvents data !! i = Some shown).
Proof.
  intros Hp. split.
  - destruct (pill_lookup data i pill Hp) as (own & Hown & Ht & _). eauto.
  - destruct (pill_click_at data i pill Hp) as (Hc & [shown Hs]).
    exists shown. rewrite Hc. auto.
Qed.

Lemma pill_click_witness :
  (exists own, pushAllEvents scenario_C !! 0%nat = Some own /\ "network" = ev_type own) /\
  (exists shown,
      pill_click (allEvents scenario_C)
                 {| data_type := "network"; data_index := 0 |} = Some shown /\
      allEvents scenario_C !! 0%nat = Some shown).
Proof.
  apply (pill_click_shows_event_at_pill_position scenario_C 0
           {| data_type := "network"; data_index := 0 |}).
  reflexivity.
Defined.

(** X8. The pills show their own records exactly when the three logs,
    one after the other, are already in time order. As soon as a record
    of a later log is older than one of an earlier log, some pill shows
    another record than the one it was made from. *)
Theorem pills_show_own_records_iff_logs_in_time_order (data : ExportData) :
  (forall i pill, generateTimelineTracks data !! i = Some pill ->
                  pill_click (allEvents data) pill = pushAllEvents data !! i)
  <->
  StronglySorted (fun a b => ev_timestamp a <= ev_timestamp b) (pushAllEvents data).
Proof.
  split.
  - intros H.
    assert (Heq : allEvents data = pushAllEvents data).
    { apply list_eq. intros i.
      destruct (decide (i < length (pushAllEvents data))%nat) as [Hlt|Hge].
      - assert (Hp : is_Some (generateTimelineTracks data !! i)).
        { apply lookup_lt_is_Some_2.
          rewrite generateTimelineTracks_imap, length_imap. exact Hlt. }
        destruct Hp as [pill Hp].
        rewrite <- (H i pill Hp). symmetry. apply pill_click_at, Hp.
      - rewrite !lookup_ge_None_2; [reflexivity | lia | rewrite allEvents_length; lia]. }
    rewrite <- Heq. apply (Array_sort_sorted ev_timestamp).
  - intros Hs i pill Hp.
    destruct (pill_click_at data i pill Hp) as [-> _].
    unfold allEvents. rewrite (Array_sort_sorted_id ev_timestamp); [reflexivity | exact Hs].
Qed.

(** *** The play head *)

Lemma at_or_before_mono cur a b :
  ev_timestamp a <= ev_timestamp b ->
  at_or_before cur b = true -> at_or_before cur a = true.
Proof.
  unfold at_or_before. rewrite !QArith_base.Qle_bool_iff. intros Hab Hb.
  eapply QArith_base.Qle_trans; [|exact Hb].
  rewrite <- QArith_base.Zle_Qle. exact Hab.
Qed.

Lemma filter_after_play_head cur x (l : list TimelineEvent) :
  at_or_before cur x = false ->
  Forall (fun e => ev_timestamp x <= ev_timestamp e) l ->
  filter (fun e => at_or_before cur e = true) l = [].
Proof.
  intros Hx. induction 1 as [|e l He _ IH]; [reflexivity|].
  rewrite filter_cons.
  destruct (decide (at_or_before cur e = true)) as [Hp|_]; [|exact IH].
  rewrite (at_or_before_mono cur x e He Hp) in Hx. discriminate.
Qed.

Lemma sorted_reached_prefix cur (l : list TimelineEvent) :
  StronglySorted (fun a b => ev_timestamp a <= ev_timestamp b) l ->
  forall j e, l !! j = Some e ->
    (at_or_before cur e = true
     <-> (j < length (filter (fun e => at_or_before cur e = true) l))%nat).
Proof.
  induction 1 as [|x l Hs IH Hall]; intros j e Hj; [discriminate|].
  rewrite filter_cons.
  destruct (decide (at_or_before cur x = true)) as [Hx|Hx].
  - destruct j as [|j]; simpl in *.
    + injection Hj as <-. split; [lia | auto].
    + rewrite (IH j e Hj). lia.
  - apply not_true_is_false in Hx.
    rewrite (filter_after_play_head cur x l Hx Hall). simpl.
    split; [|lia]. intros He. exfalso.
    destruct j as [|j]; simpl in Hj.
    + injection Hj as <-. congruence.
    + rewrite Forall_forall in Hall.
      assert (Hxe : ev_timestamp x <= ev_timestamp e)
        by (apply Hall; eapply list_elem_of_lookup_2; exact Hj).
      rewrite (at_or_before_mono cur x e Hxe He) in Hx. discriminate.
Qed.

Lemma scan_events_sorted cur (l : list TimelineEvent) :
  StronglySorted (fun a b => ev_timestamp a <= ev_timestamp b) l ->
  forall i k,
    scan_events cur l i k
    = match length (filter (fun e => at_or_before cur e = true) l) with
      | O => k
      | S n => i + Z.of_nat n
      end.
Proof.
  induction 1 as [|x l Hs IH Hall]; intros i k; [reflexivity|].
  rewrite filter_cons.
  change (scan_events cur (x :: l) i k)
    with (if at_or_before cur x then scan_events cur l (i + 1) i else k).
  destruct (decide (at_or_before cur x = true)) as [Hx|Hx].
  - rewrite Hx, IH. simpl length.
    destruct (length (filter _ l)); lia.
  - apply not_true_is_false in Hx. rewrite Hx.
    rewrite (filter_after_play_head cur x l Hx Hall). reflexivity.
Qed.

Lemma events_reached_allEvents cur data :
  length (filter (fun e => at_or_before cur e = true) (allEvents data))
  = events_reached cur data.
Proof.
  unfold events_reached. apply Permutation_length.
  apply filter_Permutation, allEvents_Permutation.
Qed.

(** X9. During playback the events at or before the play head are
    exactly the first [events_reached] elements of [allEvents], and
    [updateCurrentEvent] shows the last of them: the latest event the
    play head has reached. It shows nothing, and leaves
    [currentEventIndex] as it is, when no event has been reached yet or
    when that event is already the current one. *)
Theorem play_head_shows_latest_event_reached
    (data : ExportData) (currentTimestamp : QArith_base.Q) (currentEventIndex : Z) :
  (forall j e, allEvents data !! j = Some e ->
     (at_or_before currentTimestamp e = true
      <-> (j < events_reached currentTimestamp data)%nat)) /\
  updateCurrentEvent currentTimestamp (allEvents data) currentEventIndex
  = if bool_decide (events_reached currentTimestamp data = 0%nat \/
                    Z.of_nat (events_reached currentTimestamp data) - 1 = currentEventIndex)
    then (currentEventIndex, None)
    else (Z.of_nat (events_reached currentTimestamp data) - 1,
          allEvents data !! (events_reached currentTimestamp data - 1)%nat).
Proof.
  pose proof (Array_sort_sorted ev_timestamp (pushAllEvents data)) as Hs.
  fold (allEvents data) in Hs.
  split.
  - intros j e Hj. rewrite <- events_reached_allEvents.
    apply sorted_reached_prefix; assumption.
  - unfold updateCurrentEvent.
    rewrite (scan_events_sorted _ _ Hs), events_reached_allEvents.
    destruct (events_reached currentTimestamp data) as [|n].
    + rewrite bool_decide_eq_true_2 by (left; reflexivity).
      rewrite andb_false_r. reflexivity.
    + replace (0 + Z.of_nat n) with (Z.of_nat n) by lia.
      replace (Z.of_nat (S n) - 1) with (Z.of_nat n) by lia.
      replace (S n - 1)%nat with n by lia.
      replace (0 <=? Z.of_nat n) with true by (symmetry; apply Z.leb_le; lia).
      rewrite andb_true_r.
      destruct (Z.eqb_spec (Z.of_nat n) currentEventIndex) as [He|He]; simpl.
      * rewrite bool_decide_eq_true_2 by (right; exact He). reflexivity.
      * rewrite bool_decide_eq_false_2 by (intros [?|?]; [discriminate | contradiction]).
        rewrite Nat2Z.id. reflexivity.
Qed.

(** *** Durations *)

Lemma rem_small a : 0 <= a -> Z.rem a 60 = a mod 60.
Proof. intros Ha. apply Z.rem_mod_nonneg; lia. Qed.

(** X10. [formatTimestamp] writes the whole seconds of a non-negative
    offset as hours, minutes below 60 and seconds below 60 that add up to
    it, leaving out the leading fields that are zero; below one hour
    [formatDuration] writes the same text. *)
Theorem formatTimestamp_fields (ms : Z) :
  0 <= ms ->
  exists h m s,
    0 <= h /\ 0 <= m < 60 /\ 0 <= s < 60 /\
    h * 3600 + m * 60 + s = ms / 1000 /\
    formatTimestamp ms
    = (if 0 <? h then
         decimal h +:+ "h " +:+ decimal m +:+ "m " +:+ decimal s +:+ "s"
       else if 0 <? m then decimal m +:+ "m " +:+ decimal s +:+ "s"
       else decimal s +:+ "s") /\
    (ms < 3600000 -> formatDuration ms = formatTimestamp ms).
Proof.
  intros Hms.
  assert (Hsec : 0 <= ms / 1000) by (apply Z.div_pos; lia).
  assert (Hmin : 0 <= ms / 1000 / 60) by (apply Z.div_pos; lia).
  assert (Hh : 0 <= ms / 1000 / 60 / 60) by (apply Z.div_pos; lia).
  exists (ms / 1000 / 60 / 60), ((ms / 1000 / 60) mod 60), ((ms / 1000) mod 60).
  pose proof (Z.mod_pos_bound (ms / 1000 / 60) 60 ltac:(lia)) as Hm60.
  pose proof (Z.mod_pos_bound (ms / 1000) 60 ltac:(lia)) as Hs60.
  pose proof (Z.div_mod (ms / 1000) 60 ltac:(lia)) as E1.
  pose proof (Z.div_mod (ms / 1000 / 60) 60 ltac:(lia)) as E2.
  split; [exact Hh|]. split; [exact Hm60|]. split; [exact Hs60|].
  split; [lia|].
  unfold formatTimestamp, formatDuration.
  rewrite !rem_small by assumption.
  destruct (Z.ltb_spec 0 (ms / 1000 / 60 / 60)) as [Hpos|Hzero].
  - split; [reflexivity|]. intros Hlt. exfalso.
    assert (ms / 1000 < 3600) by (apply Z.div_lt_upper_bound; lia).
    assert (ms / 1000 / 60 < 60) by (apply Z.div_lt_upper_bound; lia).
    assert (ms / 1000 / 60 / 60 < 1) by (apply Z.div_lt_upper_bound; lia).
    lia.
  - assert (Hh0 : ms / 1000 / 60 / 60 = 0) by lia.
    assert (Hmlt : ms / 1000 / 60 < 60) by lia.
    assert (Em : (ms / 1000 / 60) mod 60 = ms / 1000 / 60) by (apply Z.mod_small; lia).
    rewrite Em.
    destruct (Z.ltb_spec 0 (ms / 1000 / 60)) as [Hmpos|Hmzero].
    + split; reflexivity.
    + assert (Es : (ms / 1000) mod 60 = ms / 1000) by (apply Z.mod_small; lia).
      rewrite Es. split; reflexivity.
Qed.

Lemma formatTimestamp_fields_witness :
  exists h m s,
    0 <= h /\ 0 <= m < 60 /\ 0 <= s < 60 /\
    h * 3600 + m * 60 + s = 3725000 / 1000 /\
    formatTimestamp 3725000
    = (if 0 <? h then
         decimal h +:+ "h " +:+ decimal m +:+ "m " +:+ decimal s +:+ "s"
       else if 0 <? m then decimal m +:+ "m " +:+ decimal s +:+ "s"
       else decimal s +:+ "s") /\
    (3725000 < 3600000 -> formatDuration 3725000 = formatTimestamp 3725000).
Proof. apply (formatTimestamp_fields 3725000). lia. Defined.

(** ** Response bodies *)

(** X11. The body of a response reaches the entry of its own request.
    When a response of a textual type is logged at index [i], and the
    body arrives after any operations that neither clear the log nor
    start a new recording, the entry at [i] is still that request, and
    it now carries the body and its size. *)
Theorem response_body_reaches_its_request
    (s : Session) (now tab : Z) (p : ResponseReceivedParams) (i : nat)
    (ops : list Op) (content : jsval) (sz : Z) :
  tab ∈ attachedTabs s ->
  findIndex (is_request_for (rr_requestId p)) (networkLogs s) = Some i ->
  fetchesBody p = true ->
  forallb keeps_log ops = true ->
  exists e r,
    networkLogs
      (run (DebuggerEvent_op now tab (Network_responseReceived p)
              :: ops ++ [ResponseBodyFetched i p content sz]) s) !! i = Some e /\
    requestId e = rr_requestId p /\
    response e = Some r /\ body r = Some content /\ bodySize r = Some sz.
Proof.
  intros Htab Hi Hfetch Hops.
  change (run (?a :: ?l) s) with (run l (step a s)).
  rewrite run_app.
  set (s1 := step (DebuggerEvent_op now tab (Network_responseReceived p)) s).
  destruct (findIndex_Some _ _ _ Hi) as (e0 & He0 & Hp0 & _).
  assert (H1 : exists e1, networkLogs s1 !! i = Some e1 /\
                          requestId e1 = rr_requestId p /\ is_Some (response e1)).
  { subst s1. simpl. unfold onDebuggerEvent.
    rewrite bool_decide_eq_true_2 by exact Htab. simpl.
    unfold handleNetworkResponse. rewrite Hi.
    eexists. split; [rewrite list_lookup_alter_eq, He0; reflexivity|].
    simpl. split; [apply is_request_for_id, Hp0 | eauto]. }
  destruct H1 as (e1 & He1 & Hid1 & Hr1).
  destruct (run_keeps_entries ops s1 Hops i e1 He1)
    as (e2 & He2 & (Hsame & Hresp & _)).
  destruct (Hresp Hr1) as [r2 Hr2].
  simpl. unfold storeResponseBody. rewrite Hfetch, He2, Hr2.
  eexists. eexists.
  split; [apply list_lookup_insert_eq; eapply lookup_lt_Some, He2|].
  simpl. repeat split.
  destruct Hsame as (_ & _ & Hid & _). congruence.
Qed.

Lemma response_body_witness :
  exists e r,
    networkLogs
      (run (DebuggerEvent_op 30 1 (Network_responseReceived text_resp_x)
              :: [DebuggerEvent_op 31 1 (Network_requestWillBeSent req_x)]
                 ++ [ResponseBodyFetched 0 text_resp_x (JStr "<p>") 3])
           recording_session) !! 0%nat = Some e /\
    requestId e = rr_requestId text_resp_x /\
    response e = Some r /\ body r = Some (JStr "<p>") /\ bodySize r = Some 3.
Proof.
  apply (response_body_reaches_its_request recording_session 30 1 text_resp_x 0
           [DebuggerEvent_op 31 1 (Network_requestWillBeSent req_x)] (JStr "<p>") 3).
  - change (1 ∈ ({[ 1 ]} : gset Z)). apply elem_of_singleton_2. reflexivity.
  - reflexivity.
  - reflexivity.
  - reflexivity.
Defined.

(** ** Export runs *)

(** X12. An export resolves exactly when the stored logs can be read,
    the blob store answers (in video mode), and the JSON and the HTML
    download both resolve. A video that cannot be read or downloaded
    never fails the export. When it resolves, the downloads asked for
    are at most one video file, then the JSON file, then the HTML page,
    the last two named after the same clock reading. *)
Theorem export_resolves_exactly_when
    (env : ExportEnv) (logs : list NetworkLogEntry) (tab : Z) (export_mode : string) :
  (resolved (exportAllLogs env logs tab export_mode) = true
   <-> is_Some (storage_get env) /\
       (export_mode = "video" -> is_Some (getVideoBlob env)) /\
       json_download_ok env = true /\ html_download_ok env = true) /\
  (resolved (exportAllLogs env logs tab export_mode) = true ->
   exists video_part json html,
     downloads (exportAllLogs env logs tab export_mode) = video_part ++ [json; html] /\
     (length video_part <= 1)%nat /\
     Forall (fun d => is_video_download d = true) video_part /\
     d_filename json = "capture_all_logs_" +:+ decimal (export_now env) +:+ ".json" /\
     d_filename html = "capture_all_timeline_" +:+ decimal (export_now env) +:+ ".html").
Proof.
  unfold exportAllLogs.
  destruct (storage_get env) as [[il es]|]; simpl.
  2:{ split; [|discriminate]. split; [discriminate|]. intros ([? ?] & _). discriminate. }
  destruct (String.eqb_spec export_mode "video") as [Hm|Hm].
  - destruct (getVideoBlob env) as [retrieved|]; simpl.
    2:{ split; [|discriminate]. split; [discriminate|].
        intros (_ & Hv & _). destruct (Hv Hm). discriminate. }
    destruct (retrieveVideo env retrieved) as [[vb vn] vd] eqn:Hret.
    assert (Hvd : (length vd <= 1)%nat /\ Forall (fun d => is_video_download d = true) vd).
    { unfold retrieveVideo in Hret. destruct retrieved as [|blob|v];
        try (injection Hret as <- <- <-; split; [simpl; lia | constructor]).
      destruct (size blob =? 0);
        [injection Hret as <- <- <-; split; [simpl; lia | constructor]|].
      destruct (size blob >? 500 * 1024 * 1024);
        [injection Hret as <- <- <-; split; [simpl; lia | constructor]|].
      injection Hret as <- <- <-.
      destruct (truthy_string (video_read env)); split; simpl; try lia;
        repeat constructor. }
    destruct (json_download_ok env); simpl.
    + split.
      * split; [intros ->; repeat split; eauto | intros (_ & _ & _ & H); exact H].
      * intros _. eexists. eexists. eexists.
        split; [reflexivity|]. destruct Hvd. repeat split; assumption.
    + split; [|discriminate]. split; [discriminate|].
      intros (_ & _ & H & _). discriminate.
  - destruct (json_download_ok env); simpl.
    + split.
      * split; [intros ->; repeat split; eauto; intros; contradiction
               | intros (_ & _ & _ & H); exact H].
      * intros _. exists []. eexists. eexists.
        split; [reflexivity|]. repeat split; [simpl; lia | constructor].
    + split; [|discriminate]. split; [discriminate|].
      intros (_ & _ & H & _). discriminate.
Qed.

(** X13. Outside video mode an export has nothing to do with the video:
    the blob store, its reader and the clock reading for the video file
    name have no influence on the run, no video download is asked for,
    and the document says [hasVideo: false]. *)
Theorem logs_mode_export_ignores_video
    (env env' : ExportEnv) (logs : list NetworkLogEntry) (tab : Z)
    (export_mode : string) :
  export_mode <> "video" ->
  same_outside_video env env' ->
  exportAllLogs env' logs tab export_mode = exportAllLogs env logs tab export_mode /\
  Forall (fun d => is_video_download d = false)
         (downloads (exportAllLogs env logs tab export_mode)) /\
  (forall data, document (exportAllLogs env logs tab export_mode) = Some data ->
                videoData data = NoVideoData).
Proof.
  intros Hm (Hs & Hj & Hh & Hiso & Hnow & Hn1 & Hn2).
  unfold exportAllLogs.
  rewrite Hs, Hj, Hh, Hiso, Hnow, Hn1, Hn2.
  apply String.eqb_neq in Hm. rewrite Hm.
  destruct (storage_get env) as [[il es]|].
  - destruct (json_download_ok env); simpl;
      (split; [reflexivity|]); (split; [repeat constructor|]);
      intros data [= <-]; reflexivity.
  - simpl. split; [reflexivity|]. split; [constructor | discriminate].
Qed.

Lemma logs_mode_export_witness :
  exportAllLogs env_unreadable_video two_requests_one_answered 1 "logs"
  = exportAllLogs env_empty_video two_requests_one_answered 1 "logs" /\
  Forall (fun d => is_video_download d = false)
         (downloads (exportAllLogs env_empty_video two_requests_one_answered 1 "logs")) /\
  (forall data,
     document (exportAllLogs env_empty_video two_requests_one_answered 1 "logs") = Some data ->
     videoData data = NoVideoData).
Proof.
  apply (logs_mode_export_ignores_video env_empty_video env_unreadable_video
           two_requests_one_answered 1 "logs").
  - discriminate.
  - repeat split.
Defined.

Lemma generateVideoTimelineHTML_by_name (read : option string) (now1 now2 : Z)
    (data : ExportData) (blob : Blob) (videoFileName : option string) :
  10 * 1024 * 1024 <= size blob ->
  useDataUrl (generateVideoTimelineHTML read now1 now2 data (Some blob) videoFileName)
  = false /\
  videoContainer (generateVideoTimelineHTML read now1 now2 data (Some blob) videoFileName)
  = VideoElement (if truthy_string videoFileName
                  then default "" videoFileName else "video.webm").
Proof.
  intros Hbig. unfold generateVideoTimelineHTML.
  replace (size blob <? maxDataUrlSize) with false
    by (symmetry; apply Z.ltb_ge; unfold maxDataUrlSize; lia).
  split; [reflexivity|]. cbn [videoContainer].
  destruct videoFileName as [name|]; [|reflexivity].
  unfold truthy_string. destruct (String.eqb_spec name "") as [->|Hne]; [reflexivity|].
  cbn [negb default]. unfold id.
  destruct (String.eqb_spec name "") as [?|_]; [contradiction | reflexivity].
Qed.

(** X14. A recording of 10 MiB or more is not embedded: the exported
    page holds a [<video>] element that refers to a file by name. Up to
    500 MiB the name is the one recorded in the document and the one
    under which the video is downloaded; but that download is asked for
    only when the recording could be read, so after a failed read the
    page refers to a file the export did not write. Above 500 MiB no
    video is downloaded at all, the document records no file name, and
    the page refers to [video.webm]. *)
Theorem exported_page_refers_to_video_file
    (env : ExportEnv) (logs : list NetworkLogEntry) (tab : Z)
    (stored : option (list InteractionLogEntry) * option (list ElementSnapshot))
    (blob : Blob) :
  storage_get env = Some stored ->
  getVideoBlob env = Some (VideoBlob blob) ->
  10 * 1024 * 1024 <= size blob ->
  json_download_ok env = true ->
  exists data html,
    document (exportAllLogs env logs tab "video") = Some data /\
    last (downloads (exportAllLogs env logs tab "video"))
    = Some {| d_url := VideoHtmlDataUrl html;
              d_filename := "capture_all_timeline_" +:+ decimal (export_now env)
                            +:+ ".html" |} /\
    useDataUrl html = false /\
    if size blob >? 500 * 1024 * 1024 then
      videoData data = HasVideoData None (size blob) /\
      videoContainer html = VideoElement "video.webm" /\
      Forall (fun d => is_video_download d = false)
             (downloads (exportAllLogs env logs tab "video"))
    else
      videoData data
      = HasVideoData (Some ("capture_all_video_" +:+ decimal (video_now env) +:+ ".webm"))
                     (size blob) /\
      videoContainer html
      = VideoElement ("capture_all_video_" +:+ decimal (video_now env) +:+ ".webm") /\
      filter (fun d => is_video_download d = true)
             (downloads (exportAllLogs env logs tab "video"))
      = if truthy_string (video_read env)
        then [ {| d_url := VideoDataUrl (default "" (video_read env));
                  d_filename := "capture_all_video_" +:+ decimal (video_now env)
                                +:+ ".webm" |} ]
        else [].
Proof.
  intros Hstore Hget Hbig Hjson. unfold exportAllLogs.
  rewrite Hstore. destruct stored as [il es]. simpl String.eqb. cbv iota.
  rewrite Hget, Hjson. unfold retrieveVideo.
  replace (size blob =? 0) with false by (symmetry; apply Z.eqb_neq; lia).
  destruct (size blob >? 500 * 1024 * 1024); cbv beta iota zeta.
  - eexists. eexists. split; [reflexivity|]. split; [reflexivity|].
    destruct (generateVideoTimelineHTML_by_name (html_read env) (html_now1 env)
                (html_now2 env)
                {| exportDate := iso_now env; e_tabId := tab; mode := "video";
                   e_networkLogs := logs; e_interactionLogs := default [] il;
                   e_elementSnapshots := default [] es;
                   videoData := HasVideoData None (size blob);
                   summary := {| totalNetworkRequests := length logs;
                                 totalInteractions := length (default [] il);
                                 totalElementSnapshots := length (default [] es) |} |}
                blob None Hbig) as [Hu Hc].
    split; [exact Hu|]. split; [reflexivity|]. split; [exact Hc|].
    repeat constructor.
  - eexists. eexists. split; [reflexivity|].
    split; [destruct (truthy_string (video_read env)); reflexivity|].
    destruct (generateVideoTimelineHTML_by_name (html_read env) (html_now1 env)
                (html_now2 env)
                {| exportDate := iso_now env; e_tabId := tab; mode := "video";
                   e_networkLogs := logs; e_interactionLogs := default [] il;
                   e_elementSnapshots := default [] es;
                   videoData :=
                     HasVideoData
                       (Some ("capture_all_video_" +:+ decimal (video_now env) +:+ ".webm"))
                       (size blob);
                   summary := {| totalNetworkRequests := length logs;
                                 totalInteractions := length (default [] il);
                                 totalElementSnapshots := length (default [] es) |} |}
                blob
                (Some ("capture_all_video_" +:+ decimal (video_now env) +:+ ".webm"))
                Hbig) as [Hu Hc].
    split; [exact Hu|]. split; [reflexivity|]. split; [exact Hc|].
    destruct (truthy_string (video_read env)); reflexivity.
Qed.

Lemma exported_page_witness :
  exists data html,
    document (exportAllLogs env_unreadable_video [] 1 "video") = Some data /\
    last (downloads (exportAllLogs env_unreadable_video [] 1 "video"))
    = Some {| d_url := VideoHtmlDataUrl html;
              d_filename := "capture_all_timeline_"
                            +:+ decimal (export_now env_unreadable_video) +:+ ".html" |} /\
    useDataUrl html = false /\
    if size {| size := 20 * 1024 * 1024; blob_type := "video/webm" |} >? 500 * 1024 * 1024 then
      videoData data = HasVideoData None (20 * 1024 * 1024) /\
      videoContainer html = VideoElement "video.webm" /\
      Forall (fun d => is_video_download d = false)
             (downloads (exportAllLogs env_unreadable_video [] 1 "video"))
    else
      videoData data
      = HasVideoData (Some ("capture_all_video_"
                            +:+ decimal (video_now env_unreadable_video) +:+ ".webm"))
                     (20 * 1024 * 1024) /\
      videoContainer html
      = VideoElement ("capture_all_video_"
                      +:+ decimal (video_now env_unreadable_video) +:+ ".webm") /\
      filter (fun d => is_video_download d = true)
             (downloads (exportAllLogs env_unreadable_video [] 1 "video"))
      = if truthy_string (video_read env_unreadable_video)
        then [ {| d_url := VideoDataUrl (default "" (video_read env_unreadable_video));
                  d_filename := "capture_all_video_"
                                +:+ decimal (video_now env_unreadable_video) +:+ ".webm" |} ]
        else [].
Proof.
  apply (exported_page_refers_to_video_file env_unreadable_video [] 1
           (Some [ {| i_timestamp := 500; i_data := [("type", JStr "click")] |} ], None)
           {| size := 20 * 1024 * 1024; blob_type := "video/webm" |}).
  - reflexivity.
  - reflexivity.
  - simpl. lia.
  - reflexivity.
Defined.

(** ** Content script: scrolling *)

Lemma handleScroll_all_stopped (st : ScrollState) (events : list ScrollOccurrence) :
  isRecordingInteractions (sc_content st) = false ->
  handleScroll_all st events = (st, []).
Proof.
  intros Hst. induction events as [|o rest IH]; [reflexivity|].
  cbn [handleScroll_all]. unfold handleScroll. rewrite Hst.
  cbn [fst snd option_list]. rewrite IH. reflexivity.
Qed.

(** The bound behind the throttle: no message goes out before
    [lastScrollTime + 100], nor before the first event. *)
Lemma handleScroll_all_bound (events : list ScrollOccurrence) :
  forall (st : ScrollState) (lo hi : Z),
    StronglySorted (fun a b => so_now a <= so_now b) events ->
    Forall (fun o => lo <= so_now o <= hi) events ->
    100 * Z.of_nat (length (snd (handleScroll_all st events)))
    <= Z.max 0 (hi - Z.max lo (lastScrollTime st + 100) + 100).
Proof.
  induction events as [|o rest IH]; intros st lo hi Hsorted Hall.
  - simpl. lia.
  - apply StronglySorted_inv in Hsorted as [Hrest Hfirst].
    apply Forall_cons in Hall as [Ho Hall].
    assert (Hall' : Forall (fun o' => so_now o <= so_now o' <= hi) rest).
    { rewrite Forall_forall in *. intros o' Ho'.
      specialize (Hfirst o' Ho'). specialize (Hall o' Ho'). lia. }
    cbn [handleScroll_all]. unfold handleScroll.
    destruct (isRecordingInteractions (sc_content st)) eqn:Hrec.
    2:{ cbn [fst snd option_list]. rewrite handleScroll_all_stopped by exact Hrec.
        simpl. lia. }
    unfold SCROLL_THROTTLE.
    destruct (Z.ltb_spec (so_now o - lastScrollTime st) 100) as [Hsoon|Hlate].
    + cbn [fst snd]. change (option_list None ++ ?l) with l.
      specialize (IH st (so_now o) hi Hrest Hall').
      lia.
    + unfold logInteraction.
      destruct (so_context_ok o), (so_sent o); cbn [fst snd option_list];
        try (rewrite handleScroll_all_stopped by reflexivity; simpl; lia).
      rewrite length_app. change (length (option_list (Some ?m))) with 1%nat.
      specialize (IH {| sc_content := sc_content st; lastScrollTime := so_now o |}
                     (so_now o) hi Hrest Hall').
      cbn [lastScrollTime] in IH.
      lia.
Qed.

(** X15. Scroll events are throttled: over any sequence of scroll events
    whose clock readings do not go backwards and lie between [lo] and
    [hi], at most one scroll record goes out per 100 ms, that is, 100
    times the number of records sent is at most [hi - lo + 100]. *)
Theorem scroll_records_are_throttled
    (st : ScrollState) (events : list ScrollOccurrence) (lo hi : Z) :
  lo <= hi ->
  StronglySorted (fun a b => so_now a <= so_now b) events ->
  Forall (fun o => lo <= so_now o <= hi) events ->
  100 * Z.of_nat (length (snd (handleScroll_all st events))) <= hi - lo + 100.
Proof.
  intros Hlohi Hsorted Hall.
  pose proof (handleScroll_all_bound events st lo hi Hsorted Hall). lia.
Qed.

Lemma scroll_records_witness :
  100 * Z.of_nat (length (snd (handleScroll_all scrolling
                                 [scroll_at 1000; scroll_at 1050; scroll_at 1099;
                                  scroll_at 1100; scroll_at 1150])))
  <= 1150 - 1000 + 100.
Proof.
  apply (scroll_records_are_throttled scrolling
           [scroll_at 1000; scroll_at 1050; scroll_at 1099; scroll_at 1100; scroll_at 1150]
           1000 1150).
  - lia.
  - repeat constructor; simpl; lia.
  - repeat constructor; simpl; lia.
Defined.

(** ** Content script: the element descriptor *)

Lemma substring0_length (n : nat) (s : string) :
  (String.length (substring0 n s) <= n)%nat.
Proof.
  unfold substring0. revert s. induction n as [|n IH]; intros [|c s]; simpl; try lia.
  specialize (IH s). lia.
Qed.

Lemma substring0_prefix (n : nat) (s : string) :
  exists rest, s = substring0 n s +:+ rest.
Proof.
  unfold substring0. revert s. induction n as [|n IH]; intros [|c s]; simpl.
  - exists "". reflexivity.
  - exists (String c s). reflexivity.
  - exists "". reflexivity.
  - destruct (IH s) as [rest Hrest]. exists rest.
    change (String c (String.substring 0 n s) +:+ rest)
      with (String c (String.substring 0 n s +:+ rest)).
    rewrite <- Hrest. reflexivity.
Qed.

Lemma relevant_attributes_sublist (element : Element) (names : list string) :
  sublist
    ((omap (fun attr => (fun v => (attr, v)) <$> getAttribute attr element) names).*1)
    names.
Proof.
  induction names as [|attr names IH]; [constructor|].
  rewrite omap_cons_eq.
  destruct (getAttribute attr element) as [v|]; cbn [fmap option_fmap option_map].
  - rewrite fmap_cons. cbn [fst]. apply sublist_skip, IH.
  - apply sublist_cons, IH.
Qed.

Lemma relevant_attributes_values (element : Element) (names : list string) k v :
  (k, v) ∈ omap (fun attr => (fun v => (attr, v)) <$> getAttribute attr element) names ->
  getAttribute k element = Some v.
Proof.
  intros H. apply list_elem_of_omap in H as (attr & _ & Hattr).
  destruct (getAttribute attr element) as [w|] eqn:Hw; [|discriminate].
  simpl in Hattr. injection Hattr as -> ->. exact Hw.
Qed.

Lemma selector_path_length (room : nat) : forall (current : Element) (path : list string),
  (length (selector_path room current path) <= room + length path)%nat.
Proof.
  induction room as [|room IH]; intros current path; simpl; [lia|].
  destruct (is_body current); [lia|].
  destruct (parentElement current) as [parent|].
  - specialize (IH parent (level_selector current :: path)). simpl in IH. lia.
  - simpl. lia.
Qed.

(** X16. The descriptor [getElementData] builds is bounded in what it
    takes from the page: its text is a prefix of the element's text of
    at most 100 characters; its attributes are attributes of the element
    from the allow-list only, each at most once and in the order of the
    list; and the selector has at most five levels. *)
Theorem element_descriptor_is_bounded (element : Element) :
  (forall t, ed_text (getElementData element) = Some t ->
     (String.length t <= 100)%nat /\
     exists full rest, textContent element = Some full /\ full = t +:+ rest) /\
  sublist ((ed_attributes (getElementData element)).*1) relevantAttrs /\
  (forall k v, (k, v) ∈ ed_attributes (getElementData element) ->
     getAttribute k element = Some v) /\
  (length (selector_path 5 element []) <= 5)%nat.
Proof.
  split; [|split; [|split]].
  - intros t. cbn [getElementData ed_text].
    destruct (textContent element) as [full|]; [|discriminate].
    destruct (nonempty full); [|discriminate].
    intros [= <-]. split; [apply substring0_length|].
    destruct (substring0_prefix 100 full) as [rest Hrest]. eauto.
  - apply relevant_attributes_sublist.
  - intros k v. apply relevant_attributes_values.
  - pose proof (selector_path_length 5 element []). simpl in *. lia.
Qed.

(** ** Content script: changes and snapshots *)

(** X17. The record logged for a change event holds the element
    descriptor, the page address and, of the field's [value] property,
    only its length; for a checkbox or a radio button it holds the
    [checked] flag instead. Two change events whose targets have the same
    descriptor and type, and the same [checked] flag (checkbox, radio) or
    values of equal length (any other field), give the same message. The
    descriptor goes into the record as it is, with the [value] content
    attribute. *)
Theorem change_logged_by_descriptor_and_length
    (context_ok sent : bool) (href : string) (st : ContentState)
    (event1 event2 : ChangeEvent) :
  getElementData (ch_target event1) = getElementData (ch_target event2) ->
  ch_type event1 = ch_type event2 ->
  (if String.eqb (ch_type event1) "checkbox" || String.eqb (ch_type event1) "radio"
   then ch_checked event1 = ch_checked event2
   else String.length (default "" (el_value (ch_target event1)))
        = String.length (default "" (el_value (ch_target event2)))) ->
  handleChange context_ok sent href st event1
  = handleChange context_ok sent href st event2
  /\
  (isRecordingInteractions st = true -> context_ok = true -> sent = true ->
   snd (handleChange context_ok sent href st event1)
   = Some {| c_type := "change";
             c_element := getElementData (ch_target event1);
             c_value :=
               if String.eqb (ch_type event1) "checkbox"
                  || String.eqb (ch_type event1) "radio"
               then Checked (ch_checked event1)
               else ValueLength
                      (String.length (default "" (el_value (ch_target event1))));
             c_url := href |}).
Proof.
  intros Hdata Htype Hvalue. split.
  - unfold handleChange. rewrite !valueLength_is_length, Hdata, <- Htype.
    destruct (String.eqb (ch_type event1) "checkbox" || String.eqb (ch_type event1) "radio");
      rewrite Hvalue; reflexivity.
  - intros Hrec -> ->. unfold handleChange. rewrite Hrec.
    rewrite valueLength_is_length. reflexivity.
Qed.

Lemma change_logged_witness :
  handleChange true true "https://example.org/" recording
    {| ch_target := typed_input "hunter2"; ch_type := "password";
       ch_checked := false |}
  = handleChange true true "https://example.org/" recording
      {| ch_target := typed_input "abcdefg"; ch_type := "password";
         ch_checked := false |}.
Proof.
  apply (change_logged_by_descriptor_and_length
           true true "https://example.org/" recording
           {| ch_target := typed_input "hunter2"; ch_type := "password";
              ch_checked := false |}
           {| ch_target := typed_input "abcdefg"; ch_type := "password";
              ch_checked := false |}).
  - reflexivity.
  - reflexivity.
  - reflexivity.
Defined.



(** ** The stored interaction log *)

Lemma storage_run_app messages steps1 steps2 st :
  storage_run messages (steps1 ++ steps2) st
  = storage_run messages steps2 (storage_run messages steps1 st).
Proof. unfold storage_run. apply foldl_app. Qed.

Lemma one_after_another_S n :
  one_after_another (S n) = one_after_another n ++ [GetResolved n; SetApplied n].
Proof.
  unfold one_after_another. rewrite seq_S, flat_map_app. simpl. reflexivity.
Qed.

Lemma one_after_another_run messages stored n :
  (n <= length messages)%nat ->
  exists now_stored,
    storage_run messages (one_after_another n) (at_rest stored) = at_rest now_stored /\
    default [] now_stored = default [] stored ++ map stored_entry (take n messages).
Proof.
  induction n as [|n IH]; intros Hn.
  - exists stored. split; [reflexivity|]. rewrite take_0, app_nil_r. reflexivity.
  - destruct IH as (mid & Hrun & Hmid); [lia|].
    destruct (lookup_lt_is_Some_2 messages n) as [m Hm]; [lia|].
    rewrite one_after_another_S, storage_run_app, Hrun.
    exists (Some (storeInteraction (m_now m) (m_data m) mid)). split.
    + unfold storage_run, at_rest. cbn [foldl storage_step stored_interactionLogs held_logs].
      rewrite Hm. cbn [stored_interactionLogs held_logs].
      rewrite lookup_insert_eq. rewrite delete_insert_id by apply lookup_empty.
      reflexivity.
    + cbn [default]. unfold id, storeInteraction. rewrite Hmid.
      rewrite (take_S_r _ _ _ Hm), map_app, <- app_assoc. reflexivity.
Qed.

(** X19. Interactions handled one after another are all stored, in the
    order of their messages, after what was stored before. But the
    handler reads the log, adds its record and writes the log back, so
    when the handlers of two messages overlap, both reading before
    either writes, the record of the handler that writes first is lost. *)
Theorem interactions_kept_unless_handlers_overlap
    (stored : option (list InteractionLogEntry))
    (messages : list InteractionMessage) (m1 m2 : InteractionMessage) :
  default []
    (stored_interactionLogs
       (storage_run messages (one_after_another (length messages)) (at_rest stored)))
  = default [] stored ++ map stored_entry messages
  /\
  stored_interactionLogs
    (storage_run [m1; m2]
       [GetResolved 0; GetResolved 1; SetApplied 0; SetApplied 1] (at_rest stored))
  = Some (default [] stored ++ [stored_entry m2])
  /\
  stored_interactionLogs
    (storage_run [m1; m2]
       [GetResolved 0; GetResolved 1; SetApplied 1; SetApplied 0] (at_rest stored))
  = Some (default [] stored ++ [stored_entry m1]).
Proof.
  split; [|split].
  - destruct (one_after_another_run messages stored (length messages))
      as (now_stored & Hrun & Hnow); [lia|].
    rewrite Hrun. cbn [at_rest stored_interactionLogs].
    rewrite Hnow, firstn_all. reflexivity.
  - unfold storage_run, at_rest.
    cbn [foldl storage_step stored_interactionLogs held_logs lookup list_lookup].
    rewrite lookup_insert_ne by discriminate. rewrite lookup_insert_eq.
    cbn [stored_interactionLogs held_logs].
    rewrite lookup_delete_ne by discriminate. rewrite lookup_insert_eq.
    reflexivity.
  - unfold storage_run, at_rest.
    cbn [foldl storage_step stored_interactionLogs held_logs lookup list_lookup].
    rewrite lookup_insert_eq.
    cbn [stored_interactionLogs held_logs].
    rewrite lookup_delete_ne by discriminate.
    rewrite lookup_insert_ne by discriminate. rewrite lookup_insert_eq.
    reflexivity.
Qed.

(** ** The offscreen document *)

(** X20. [createOffscreenDocument] gives up after three sends: it sends
    the start message at most three times and waits at most 2.5 seconds
    in all. It resolves exactly when the contexts can be listed, a
    document exists or can be created, and one of the three sends
    resolves, and then the last thing it did was that send. It creates a
    document only when it found none. *)
Theorem offscreen_document_retry_is_bounded (env : OffscreenEnv) :
  (sum_list_with (fun a => if is_send a then 1 else 0)%nat
                 (fst (createOffscreenDocument env)) <= 3)%nat /\
  0 <= waited (fst (createOffscreenDocument env)) <= 2500 /\
  (snd (createOffscreenDocument env) = true
   <-> (exists n, existingContexts env = Some n /\
                  ((0 < n)%nat \/ createDocument_ok env = true)) /\
       (sendMessage_ok env 1%nat = true \/ sendMessage_ok env 2%nat = true \/
        sendMessage_ok env 3%nat = true)) /\
  (CreateDocument ∈ fst (createOffscreenDocument env) ->
   existingContexts env = Some 0%nat) /\
  (snd (createOffscreenDocument env) = true ->
   last (fst (createOffscreenDocument env)) = Some SendStartRecording).
Proof.
  destruct env as [contexts create_ok send_ok].
  unfold createOffscreenDocument, maxRetries.
  cbn [existingContexts createDocument_ok sendMessage_ok].
  destruct contexts as [[|n]|]; [destruct create_ok| |];
    cbn [Nat.ltb Nat.leb send_attempts];
    unfold maxRetries;
    try (destruct (send_ok 1%nat) eqn:H1;
         [|destruct (send_ok 2%nat) eqn:H2;
           [|destruct (send_ok 3%nat) eqn:H3]]);
    cbn [fst snd Nat.ltb Nat.leb app sum_list_with is_send waited foldr last];
    (split; [lia|]); (split; [lia|]);
    (split; [split;
             [ intros Hok; try discriminate Hok;
               (split; [eexists; split;
                          [reflexivity | first [left; lia | right; reflexivity]]
                       | auto])
             | intros ((k & Hk & Hor) & Hsend);
               try reflexivity;
               try (destruct Hsend as [Hs|[Hs|Hs]]; congruence);
               try discriminate Hk;
               try (injection Hk as <-; destruct Hor as [Hor|Hor]; [lia | discriminate Hor]) ]
            |]);
    (split; [intros Hin; try reflexivity;
             repeat (apply elem_of_cons in Hin as [Hin|Hin]; [discriminate Hin|]);
             apply elem_of_nil in Hin; destruct Hin
            | intros Hok; try discriminate Hok; reflexivity]).
Qed.

(** ** The recording flag and the attached tabs *)

(** X21. The recording flag does not tell whether events are logged.
    After a recording is stopped on one tab while another tab is still
    attached, [isRecording] is false, which is what [getStatus] reports,
    and the requests of the other tab go on being added to the log. *)
Theorem status_off_while_another_tab_is_logged
    (s : Session) (tab1 tab2 now : Z) (p : RequestWillBeSentParams) :
  tab1 <> tab2 ->
  tab2 ∈ attachedTabs s ->
  fst (getStatus (stopRecording true tab1 s)) = false /\
  networkLogs (onDebuggerEvent now tab2 (Network_requestWillBeSent p)
                 (stopRecording true tab1 s))
  = handleNetworkRequest now p tab2 (networkLogs s).
Proof.
  intros Hne Hin.
  assert (Hstill : tab2 ∈ attachedTabs (stopRecording true tab1 s)).
  { unfold stopRecording. case_bool_decide; simpl; [|exact Hin].
    apply elem_of_difference. split; [exact Hin|].
    rewrite elem_of_singleton. congruence. }
  split.
  - unfold stopRecording, getStatus. case_bool_decide; reflexivity.
  - unfold onDebuggerEvent. rewrite bool_decide_eq_true_2 by exact Hstill.
    unfold stopRecording. case_bool_decide; reflexivity.
Qed.

Lemma status_off_witness :
  fst (getStatus (stopRecording true 1 two_tabs_session)) = false /\
  networkLogs (onDebuggerEvent 10 2 (Network_requestWillBeSent req_x)
                 (stopRecording true 1 two_tabs_session))
  = handleNetworkRequest 10 req_x 2 (networkLogs two_tabs_session).
Proof.
  apply (status_off_while_another_tab_is_logged two_tabs_session 1 2 10 req_x).
  - discriminate.
  - change (2 ∈ ({[ 2 ]} ∪ ({[ 1 ]} ∪ ∅) : gset Z)).
    apply elem_of_union_l, elem_of_singleton_2. reflexivity.
Defined.

(** ** Content script: the XPath of an element *)

(** Induction along the chain of previous siblings. *)
Lemma previous_sibling_ind (P : Element -> Prop) :
  (forall e, (forall s, previousElementSibling e = Some s -> P s) -> P e) ->
  forall e, P e.
Proof.
  intros H. fix IH 1. intros e. apply H. intros s Hs.
  destruct e as [tn i c t a v r cs b prev parent]. simpl in Hs.
  destruct prev as [s'|]; [|discriminate Hs].
  assert (E : s' = s) by congruence. rewrite <- E. apply IH.
Qed.

Lemma siblings_from_eq (sibling : Element) :
  siblings_from sibling
  = sibling :: match previousElementSibling sibling with
               | Some s => siblings_from s
               | None => []
               end.
Proof. destruct sibling. reflexivity. Qed.

Lemma sibling_index_eq (tag : string) (index : nat) (sibling : Element) :
  sibling_index tag index sibling
  = match previousElementSibling sibling with
    | Some s => sibling_index tag
                  (if String.eqb (tagName sibling) tag then S index else index) s
    | None => if String.eqb (tagName sibling) tag then S index else index
    end.
Proof. destruct sibling. reflexivity. Qed.

Lemma sibling_index_counts (tag : string) (sibling : Element) : forall index : nat,
  sibling_index tag index sibling
  = (index + length (filter (fun s => tagName s = tag) (siblings_from sibling)))%nat.
Proof.
  induction sibling as [sibling IH] using previous_sibling_ind. intros index.
  rewrite sibling_index_eq, siblings_from_eq, filter_cons.
  destruct (String.eqb_spec (tagName sibling) tag) as [Heq|Hne];
    destruct (decide (tagName sibling = tag)) as [Hd|Hd]; try contradiction;
    destruct (previousElementSibling sibling) as [s|];
    try rewrite (IH s eq_refl); cbn [length filter list_filter]; lia.
Qed.

(** X22. The index [getXPath] writes for an element is its place among
    the siblings of its tag, counted from 1: one more than the number of
    earlier element siblings with the same tag name. *)
Theorem xpath_index_is_place_among_same_tag_siblings (current : Element) :
  xpath_step current
  = "/" +:+ toLowerCase (tagName current) +:+ "["
    +:+ decimal (1 + Z.of_nat (length (filter (fun s => tagName s = tagName current)
                                          (previous_siblings current))))
    +:+ "]".
Proof.
  unfold xpath_step, previous_siblings.
  destruct (previousElementSibling current) as [s|].
  - rewrite sibling_index_counts, Nat2Z.inj_add. reflexivity.
  - reflexivity.
Qed.

(** ** Reading the exported entries back *)

Lemma unique_key {A B : Type} (l : list (A * B)) (k : A) (v1 v2 : B) :
  NoDup l.*1 -> (k, v1) ∈ l -> (k, v2) ∈ l -> v1 = v2.
Proof.
  induction l as [|[k' v'] l IH]; intros Hnd H1 H2.
  - apply elem_of_nil in H1. destruct H1.
  - rewrite fmap_cons in Hnd. apply NoDup_cons in Hnd as [Hk' Hnd].
    apply elem_of_cons in H1 as [H1|H1]; apply elem_of_cons in H2 as [H2|H2].
    + congruence.
    + exfalso. apply Hk'. injection H1 as <- <-.
      apply list_elem_of_fmap. exists (k, v2). auto.
    + exfalso. apply Hk'. injection H2 as <- <-.
      apply list_elem_of_fmap. exists (k, v1). auto.
    + apply IH; assumption.
Qed.

Lemma get_prop_lookup (props : list (string * jsval)) (k : string) (v : jsval) :
  NoDup props.*1 -> (k, v) ∈ props -> get_prop k (JObj props) = v.
Proof.
  intros Hnd Hin. unfold get_prop.
  destruct (list_find (fun kv => fst kv = k) (reverse props)) as [[j kv]|] eqn:Hfind.
  - apply list_find_Some in Hfind as (Hj & Hk & _).
    assert (Hkv : kv ∈ props)
      by (apply elem_of_reverse; eapply list_elem_of_lookup_2, Hj).
    destruct kv as [k' v']. simpl in Hk. subst k'. simpl.
    eapply unique_key; eauto.
  - apply list_find_None in Hfind. rewrite Forall_forall in Hfind.
    exfalso. apply (Hfind (k, v)); [apply elem_of_reverse, Hin | reflexivity].
Qed.

Lemma get_prop_absent (props : list (string * jsval)) (k : string) :
  k ∉ props.*1 -> get_prop k (JObj props) = JUndefined.
Proof.
  intros Hk. unfold get_prop.
  destruct (list_find (fun kv => fst kv = k) (reverse props)) as [[j kv]|] eqn:Hfind;
    [|reflexivity].
  apply list_find_Some in Hfind as (Hj & Hkey & _).
  exfalso. apply Hk. apply list_elem_of_fmap. exists kv. split; [auto|].
  apply elem_of_reverse. eapply list_elem_of_lookup_2, Hj.
Qed.

Lemma json_image_JObj (props : list (string * jsval)) :
  json_image (JObj props)
  = JObj (omap (fun kv => match snd kv with
                          | JUndefined => None
                          | _ => Some (fst kv, json_image (snd kv))
                          end) props).
Proof. reflexivity. Qed.

Lemma image_props_elem (props : list (string * jsval)) (k : string) (w : jsval) :
  (k, w) ∈ omap (fun kv => match snd kv with
                           | JUndefined => None
                           | _ => Some (fst kv, json_image (snd kv))
                           end) props
  <-> exists v, (k, v) ∈ props /\ v <> JUndefined /\ w = json_image v.
Proof.
  rewrite list_elem_of_omap. split.
  - intros ([k' v] & Hin & Hv). simpl in Hv.
    destruct v; try discriminate; injection Hv as <- <-;
      eexists; (split; [exact Hin|]); split; try reflexivity; discriminate.
  - intros (v & Hin & Hv & ->). exists (k, v). split; [exact Hin|].
    simpl. destruct v; try reflexivity. contradiction.
Qed.

Lemma image_props_NoDup (props : list (string * jsval)) :
  NoDup props.*1 ->
  NoDup (omap (fun kv => match snd kv with
                         | JUndefined => None
                         | _ => Some (fst kv, json_image (snd kv))
                         end) props).*1.
Proof.
  intros Hnd. apply (sublist_NoDup _ props.*1); [exact Hnd|].
  clear Hnd. induction props as [|[k v] props IH]; [constructor|].
  rewrite omap_cons_eq. cbn [snd fst].
  destruct v; rewrite ?fmap_cons; cbn [fst];
    first [apply sublist_skip, IH | apply sublist_cons, IH].
Qed.

(** Reading a property of a written object gives the written property. *)
Lemma get_prop_json_image (props : list (string * jsval)) (k : string) :
  NoDup props.*1 ->
  get_prop k (json_image (JObj props)) = json_image (get_prop k (JObj props)).
Proof.
  intros Hnd. rewrite json_image_JObj.
  destruct (decide (k ∈ props.*1)) as [Hk|Hk].
  - apply list_elem_of_fmap in Hk as ([k' v] & -> & Hin). cbn [fst].
    rewrite (get_prop_lookup props k' v Hnd Hin).
    assert (Hv : v = JUndefined \/ v <> JUndefined)
      by (destruct v; (left; reflexivity) || (right; discriminate)).
    destruct Hv as [->|Hv].
    + apply get_prop_absent. intros Habs.
      apply list_elem_of_fmap in Habs as ([k2 w] & Hk2 & Hw). cbn [fst] in Hk2. subst k2.
      apply image_props_elem in Hw as (v & Hin' & Hv & _).
      apply Hv. eapply unique_key; eauto.
    + apply get_prop_lookup; [apply image_props_NoDup, Hnd|].
      apply image_props_elem. eauto.
  - rewrite (get_prop_absent props k Hk). apply get_prop_absent.
    intros Habs. apply Hk.
    apply list_elem_of_fmap in Habs as ([k2 w] & Hk2 & Hw). cbn [fst] in Hk2. subst k2.
    apply image_props_elem in Hw as (v & Hin' & _).
    apply list_elem_of_fmap. exists (k, v). auto.
Qed.

Lemma array_get_json_image (items : list jsval) (i : nat) (x : jsval) :
  items !! i = Some x -> x <> JUndefined ->
  array_get (json_image (JArr items)) i = json_image x.
Proof.
  intros Hi Hx. cbn [json_image array_get].
  rewrite list_lookup_fmap, Hi. simpl. destruct x; try reflexivity. contradiction.
Qed.

Lemma NetworkLogEntry_keys (e : NetworkLogEntry) :
  exists props, NetworkLogEntry_to_js e = JObj props /\ NoDup props.*1.
Proof.
  eexists. split; [reflexivity|].
  apply (bool_decide_unpack _). vm_compute. exact I.
Qed.

Lemma ResponseRecord_keys (r : ResponseRecord) :
  exists props, ResponseRecord_to_js r = JObj props /\ NoDup props.*1.
Proof.
  eexists. split; [reflexivity|].
  apply (bool_decide_unpack _). vm_compute. exact I.
Qed.

Lemma entry_prop_read_back (e : NetworkLogEntry) (k : string) :
  get_prop k (json_image (NetworkLogEntry_to_js e))
  = json_image (get_prop k (NetworkLogEntry_to_js e)).
Proof.
  destruct (NetworkLogEntry_keys e) as (props & -> & Hnd).
  apply get_prop_json_image, Hnd.
Qed.

Lemma response_prop_read_back (r : ResponseRecord) (k : string) :
  get_prop k (json_image (ResponseRecord_to_js r))
  = json_image (get_prop k (ResponseRecord_to_js r)).
Proof.
  destruct (ResponseRecord_keys r) as (props & -> & Hnd).
  apply get_prop_json_image, Hnd.
Qed.

(** Properties are read by name: the order in which they are listed does
    not matter. *)
Lemma get_prop_Permutation (props props' : list (string * jsval)) (k : string) :
  props ≡ₚ props' -> NoDup props.*1 ->
  get_prop k (JObj props) = get_prop k (JObj props').
Proof.
  intros Hperm Hnd.
  assert (Hnd' : NoDup props'.*1) by (rewrite <- Hperm; exact Hnd).
  destruct (decide (k ∈ props.*1)) as [Hk|Hk].
  - apply list_elem_of_fmap in Hk as ([k' v] & -> & Hin). cbn [fst].
    rewrite (get_prop_lookup props k' v Hnd Hin).
    symmetry. apply get_prop_lookup; [exact Hnd'|].
    rewrite <- Hperm. exact Hin.
  - rewrite (get_prop_absent props k Hk).
    symmetry. apply get_prop_absent. rewrite <- Hperm. exact Hk.
Qed.

Lemma NetworkLogEntry_in_keys (arrival : list LaterPhase) (e : NetworkLogEntry) :
  arrival ≡ₚ later_phases ->
  exists props props',
    NetworkLogEntry_to_js_in arrival e = JObj props /\
    NetworkLogEntry_to_js e = JObj props' /\
    props ≡ₚ props' /\ NoDup props.*1.
Proof.
  intros Hperm. eexists. eexists. split; [reflexivity|]. split; [reflexivity|].
  assert (Hprops :
    [ ("type", JStr (type e)); ("timestamp", JNum (timestamp e));
      ("requestId", JStr (requestId e)); ("url", JStr (url e));
      ("method", JStr (method e)); ("headers", headers e);
      ("postData", postData e); ("tabId", JNum (tabId e)) ]
    ++ map (phase_property e) arrival
    ≡ₚ [ ("type", JStr (type e)); ("timestamp", JNum (timestamp e));
         ("requestId", JStr (requestId e)); ("url", JStr (url e));
         ("method", JStr (method e)); ("headers", headers e);
         ("postData", postData e); ("tabId", JNum (tabId e));
         ("response", js_option ResponseRecord_to_js (response e));
         ("loadingFinished",
          js_option LoadingFinishedRecord_to_js (loadingFinished e));
         ("loadingFailed", js_option LoadingFailedRecord_to_js (loadingFailed e)) ]).
  { rewrite Hperm. reflexivity. }
  split; [exact Hprops|].
  rewrite Hprops. apply (bool_decide_unpack _). vm_compute. exact I.
Qed.

Lemma entry_prop_read_back_in (arrival : list LaterPhase) (e : NetworkLogEntry)
    (k : string) :
  arrival ≡ₚ later_phases ->
  get_prop k (json_image (NetworkLogEntry_to_js_in arrival e))
  = json_image (get_prop k (NetworkLogEntry_to_js e)).
Proof.
  intros Hperm.
  destruct (NetworkLogEntry_in_keys arrival e Hperm)
    as (props & props' & -> & -> & Hprops & Hnd).
  rewrite (get_prop_json_image props k Hnd).
  rewrite (get_prop_Permutation props props' k Hprops Hnd). reflexivity.
Qed.

(** X23. The exported JSON gives the network log back entry by entry,
    in whatever order the phases of a request arrived: parsed again,
    element [i] of [networkLogs] carries the request id, address, method,
    time and tab of entry [i] of the log; it has a [response] with the
    logged status and time exactly when a response was logged, and it
    has [loadingFinished] and [loadingFailed] exactly when these were
    logged. *)
Theorem exported_entries_read_back
    (env : ExportEnv) (logs : list NetworkLogEntry) (tab : Z) (export_mode : string)
    (data : ExportData) (arrival : nat -> list LaterPhase)
    (i : nat) (e : NetworkLogEntry) :
  document (exportAllLogs env logs tab export_mode) = Some data ->
  logs !! i = Some e ->
  arrival i ≡ₚ later_phases ->
  exists parsed entry,
    JSON_parse (renderJSON_in arrival data) = Some parsed /\
    entry = array_get (get_prop "networkLogs" parsed) i /\
    get_prop "requestId" entry = JStr (requestId e) /\
    get_prop "url" entry = JStr (url e) /\
    get_prop "method" entry = JStr (method e) /\
    get_prop "timestamp" entry = JNum (timestamp e) /\
    get_prop "tabId" entry = JNum (tabId e) /\
    match response e with
    | Some r =>
        get_prop "status" (get_prop "response" entry) = JNum (status r) /\
        get_prop "timestamp" (get_prop "response" entry) = JNum (r_timestamp r)
    | None => get_prop "response" entry = JUndefined
    end /\
    (get_prop "loadingFinished" entry = JUndefined <-> loadingFinished e = None) /\
    (get_prop "loadingFailed" entry = JUndefined <-> loadingFailed e = None).
Proof.
  intros Hdoc Hi Harrival.
  assert (Hlogs : e_networkLogs data = logs).
  { unfold exportAllLogs in Hdoc.
    destruct (storage_get env) as [[il es]|]; [|discriminate].
    destruct (if String.eqb export_mode "video" then _ else _) as [[[vb vn] vd]|];
      [|discriminate].
    destruct (json_download_ok env); injection Hdoc as <-; reflexivity. }
  assert (Htext : JSON_stringify (ExportData_to_js_in arrival data)
                  = Some (renderJSON_in arrival data))
    by reflexivity.
  apply JSON_parse_stringify in Htext.
  destruct (parsed_document_props_in arrival data) as (_ & Pnet & _ & _).
  exists (json_image (ExportData_to_js_in arrival data)).
  eexists. split; [exact Htext|]. split; [reflexivity|].
  rewrite Pnet, Hlogs.
  rewrite (array_get_json_image _ i (NetworkLogEntry_to_js_in (arrival i) e));
    [|rewrite list_lookup_imap, Hi; reflexivity | discriminate].
  rewrite !(entry_prop_read_back_in _ _ _ Harrival).
  repeat (split; [reflexivity|]).
  split; [|split].
  - change (get_prop "response" (NetworkLogEntry_to_js e))
      with (js_option ResponseRecord_to_js (response e)).
    destruct (response e) as [r|]; [|reflexivity].
    cbn [js_option]. rewrite !response_prop_read_back. split; reflexivity.
  - change (get_prop "loadingFinished" (NetworkLogEntry_to_js e))
      with (js_option LoadingFinishedRecord_to_js (loadingFinished e)).
    destruct (loadingFinished e); simpl; split; intros H; try reflexivity; discriminate H.
  - change (get_prop "loadingFailed" (NetworkLogEntry_to_js e))
      with (js_option LoadingFailedRecord_to_js (loadingFailed e)).
    destruct (loadingFailed e) as [x|]; simpl; split; intros H;
      try reflexivity; discriminate H.
Qed.

Lemma exported_entries_witness :
  [LoadingFinishedPhase; ResponsePhase; LoadingFailedPhase] ≡ₚ later_phases /\
  exists parsed entry,
    JSON_parse (renderJSON_in (fun _ => [LoadingFinishedPhase; ResponsePhase;
                                         LoadingFailedPhase])
                  exported_document) = Some parsed /\
    entry = array_get (get_prop "networkLogs" parsed) 0 /\
    get_prop "requestId" entry = JStr "x" /\
    get_prop "url" entry = JStr "https://example.org/a" /\
    get_prop "method" entry = JStr "GET" /\
    get_prop "timestamp" entry = JNum 10 /\
    get_prop "tabId" entry = JNum 1 /\
    (get_prop "status" (get_prop "response" entry) = JNum 200 /\
     get_prop "timestamp" (get_prop "response" entry) = JNum 15) /\
    (get_prop "loadingFinished" entry = JUndefined <-> @None LoadingFinishedRecord = None) /\
    (get_prop "loadingFailed" entry = JUndefined <-> @None LoadingFailedRecord = None).
Proof.
  assert (Horder : [LoadingFinishedPhase; ResponsePhase; LoadingFailedPhase]
                   ≡ₚ later_phases) by apply Permutation_swap.
  split; [exact Horder|].
  apply (exported_entries_read_back env_empty_video two_requests_one_answered 1 "video"
           exported_document
           (fun _ => [LoadingFinishedPhase; ResponsePhase; LoadingFailedPhase]) 0
           {| type := "request"; timestamp := 10; requestId := "x";
              url := "https://example.org/a"; method := "GET"; headers := JObj [];
              postData := JUndefined; tabId := 1;
              response := Some {| status := 200; statusText := "OK"; r_headers := JObj [];
                                  mimeType := Some "image/png"; r_timestamp := 15;
                                  body := None; bodySize := None |};
              loadingFinished := None; loadingFailed := None |}).
  - reflexivity.
  - reflexivity.
  - exact Horder.
Defined.

(** ** Content script: losing the extension context *)

Lemma page_step_stopped (st : ScrollState) (ev : PageEvent) :
  isRecordingInteractions (sc_content st) = false ->
  snd (page_step st ev) = None /\
  isRecordingInteractions (sc_content (fst (page_step st ev))) = false.
Proof.
  intros Hst. destruct ev as [c s h e|c s h e|o|lastError]; cbn [page_step].
  - unfold handleInput. rewrite Hst. cbn [fst snd sc_content]. auto.
  - unfold handleChange. rewrite Hst. cbn [fst snd sc_content]. auto.
  - unfold handleScroll. rewrite Hst. cbn [fst snd]. auto.
  - cbn [fst snd sc_content]. split; [reflexivity|].
    unfold logInteraction_callback. destruct lastError; [reflexivity|exact Hst].
Qed.

Lemma page_run_stopped (events : list PageEvent) : forall st : ScrollState,
  isRecordingInteractions (sc_content st) = false ->
  snd (page_run st events) = [].
Proof.
  induction events as [|ev rest IH]; intros st Hst; [reflexivity|].
  destruct (page_step_stopped st ev Hst) as [Hnone Hstill].
  cbn [page_run snd]. rewrite Hnone, (IH _ Hstill). reflexivity.
Qed.

Lemma page_step_context_lost (st : ScrollState) (ev : PageEvent) :
  context_valid_at ev = false ->
  is_throttled st ev = false ->
  snd (page_step st ev) = None /\
  isRecordingInteractions (sc_content (fst (page_step st ev))) = false.
Proof.
  intros Hev Hthr.
  destruct (isRecordingInteractions (sc_content st)) eqn:Hst;
    [|apply page_step_stopped, Hst].
  destruct ev as [c s h e|c s h e|o|lastError]; cbn [context_valid_at] in Hev;
    cbn [is_throttled] in Hthr; cbn [page_step].
  - subst c. unfold handleInput, logInteraction. rewrite Hst.
    cbn [fst snd sc_content isRecordingInteractions]. auto.
  - subst c. unfold handleChange, logInteraction. rewrite Hst.
    cbn [fst snd sc_content isRecordingInteractions]. auto.
  - unfold handleScroll, logInteraction. rewrite Hst, Hev, Hthr.
    cbn [fst snd sc_content isRecordingInteractions]. auto.
  - destruct lastError; [|discriminate Hev].
    cbn [fst snd sc_content]. split; reflexivity.
Qed.

(** X24. Once a handler, or the callback of a message, finds the
    extension context invalid, the content script sends nothing more:
    neither for that event nor for any input, change or scroll event
    after it, however the context answers later, until recording is
    started again. (A scroll event dropped by the throttle does not look
    at the context.) *)
Theorem nothing_sent_once_context_is_lost
    (st : ScrollState) (ev : PageEvent) (events : list PageEvent) :
  context_valid_at ev = false ->
  is_throttled st ev = false ->
  snd (page_run st (ev :: events)) = [] /\
  isRecordingInteractions (sc_content (fst (page_run st (ev :: events)))) = false.
Proof.
  intros Hev Hthr.
  destruct (page_step_context_lost st ev Hev Hthr) as [Hnone Hstopped].
  cbn [page_run fst snd]. rewrite Hnone, (page_run_stopped events _ Hstopped).
  split; [reflexivity|].
  clear Hnone. revert Hstopped. generalize (fst (page_step st ev)).
  induction events as [|ev' rest IH]; intros st' Hst'; [exact Hst'|].
  cbn [page_run fst]. apply IH. apply page_step_stopped, Hst'.
Qed.

Lemma nothing_sent_witness :
  snd (page_run scrolling
         [InputOccurred false true "https://example.org/"
            {| target := typed_input "hunter2";
               inputType := Some "insertText" |};
          ScrollOccurred (scroll_at 1000);
          ChangeOccurred true true "https://example.org/"
            {| ch_target := sample_input; ch_type := "password"; ch_checked := false |}])
  = [] /\
  isRecordingInteractions
    (sc_content
       (fst (page_run scrolling
               [InputOccurred false true "https://example.org/"
                  {| target := typed_input "hunter2";
                     inputType := Some "insertText" |};
                ScrollOccurred (scroll_at 1000);
                ChangeOccurred true true "https://example.org/"
                  {| ch_target := sample_input; ch_type := "password";
                     ch_checked := false |}]))) = false.
Proof.
  apply (nothing_sent_once_context_is_lost scrolling
           (InputOccurred false true "https://example.org/"
              {| target := typed_input "hunter2";
                 inputType := Some "insertText" |})
           [ScrollOccurred (scroll_at 1000);
            ChangeOccurred true true "https://example.org/"
              {| ch_target := sample_input; ch_type := "password"; ch_checked := false |}]).
  - reflexivity.
  - reflexivity.
Defined.

(** A message is sent, its callback finds [chrome.runtime.lastError] set,
    and the next input event sends nothing. *)
Example callback_error_stops_recording :
  length (snd (page_run scrolling
                 [InputOccurred true true "https://example.org/"
                    {| target := typed_input "hunter2";
                       inputType := Some "insertText" |};
                  MessageAnswered true;
                  InputOccurred true true "https://example.org/"
                    {| target := typed_input "hunter23";
                       inputType := Some "insertText" |}]))
  = 1%nat /\
  sc_content
    (fst (page_run scrolling
            [InputOccurred true true "https://example.org/"
               {| target := typed_input "hunter2";
                  inputType := Some "insertText" |};
             MessageAnswered true]))
  = {| isRecordingInteractions := false; isContextValid := false |}.
Proof. split; reflexivity. Qed.
